(** * LoquiLex-UI orchestration core: a shallow embedding and its properties

    The TypeScript sources under [web/src/orchestration] are embedded as
    Rocq functions on explicit state:

    - [BoundedQueue], [MessageBuffer]   (utils/bounded-queue.ts)
    - [Retry]                           (utils/retry.ts, utils/cancellation.ts)
    - [Limiter]                         (utils/concurrency-fixed.ts)
    - [Smoother]                        (utils/throttle.ts, ValueSmoother)
    - [WS]                              (client/ws-client.ts, WSClient.send)
    - [Worker]                          (worker/worker-channel.ts)
    - [Semaphore]                       (utils/concurrency-fixed.ts)
    - [Token]                           (utils/cancellation.ts, CancellationTokenImpl)
    - [Throttler], [RateLimiter]        (utils/throttle.ts)
    - [Store]                           (store/helpers.ts)

    Conventions.  A JavaScript [number] that a caller supplies or that the
    code computes with is a [JsNumber]: [NaN], an infinity or a rational.
    Comparisons are exact.  An arithmetic result that is an integer of
    magnitude at most 2^53 is exact; any other is what the [Engine] rounds
    the exact result to.  [Math.pow], the digits of a number that is no such
    integer and the run time of a timer are the engine's as well.  A
    property holds for every engine, unless it names the laws of rounding
    ([IEEE]) it rests on; sample runs use [exactEngine].  What the code
    only counts up from 0 or reads off a length ([running], [droppedCount],
    sequence numbers, byte sizes) and a reading of [Date.now()] is a [Z];
    the instants and durations of a run's own clock are rationals.

    [undefined] as "no value" is [None]; a value of a generic type [T] may
    itself be [undefined], which [isUndefined] tests; a key of an object
    literal is absent or holds a value that may be [undefined] ([Key]).
    A callback of the configuration or an external effect (postMessage,
    WebSocket.send, onDrop) is a log in the state, in call order. *)

From Stdlib Require Import ZArith QArith Qminmax List String Bool Lia.
From Stdlib Require Import DecimalString Lqa Sorted Qpower Qround Qreduction.
From stdpp Require Import gmap.
Import ListNotations.

Set Warnings "-register-all".
Local Open Scope Z_scope.

(** ** JavaScript errors, as the classes of the sources declare them *)

Inductive JsError : Type :=
| Error (message : string)
| CancellationError (message : string)
| NonRetryableError (message : string) (cause : option JsError)
| RetryableError (message : string) (cause : option JsError).

(** [new CancellationError()] uses the default message of the class. *)
Definition newCancellationError : JsError :=
  CancellationError "Operation was cancelled".

(** A thrown value is an [Error] instance or anything else; the sources
    normalise with [error instanceof Error ? error : new Error(String(error))];
    for a value that is no [Error] we keep its [String(...)] image. *)
Inductive Thrown : Type :=
| ThrownError (e : JsError)
| ThrownValue (asString : string).

Definition toError (t : Thrown) : JsError :=
  match t with
  | ThrownError e => e
  | ThrownValue s => Error s
  end.

Definition isNonRetryable (t : Thrown) : bool :=
  match t with
  | ThrownError (NonRetryableError _ _) => true
  | _ => false
  end.

Definition isCancellationError (e : JsError) : bool :=
  match e with
  | CancellationError _ => true
  | _ => false
  end.

(** ** JavaScript numbers

    A [number] is an IEEE-754 double: NaN, an infinity, or a rational.
    Comparisons of numbers are exact, so they are functions of these values
    alone.  The two zeros are one value here: the sources never divide by a
    zero nor take its sign. *)

Inductive JsNumber : Type :=
| NaN
| Infinity (negative : bool)
| Finite (q : Q).

(** What the language leaves to the engine and the host, or what depends on
    the 53 bits of a double: the rounding of an arithmetic result that is
    not an integer within [2^53], [Math.pow] where the standard only asks
    for an approximation, the digits of a number that is no such integer,
    and how long a timer armed with a given delay takes to run. *)
Class Engine : Type := {
  round : Q -> JsNumber;
  power : JsNumber -> JsNumber -> JsNumber;
  digits : Q -> string;
  timer : JsNumber -> Q
}.

Module JsNum.

Definition ofZ (z : Z) : JsNumber := Finite (inject_Z z).
Definition ofNat (n : nat) : JsNumber := ofZ (Z.of_nat n).

(** The order of two numbers; none when a NaN is involved. *)
Definition compare (a b : JsNumber) : option comparison :=
  match a, b with
  | NaN, _ | _, NaN => None
  | Infinity true, Infinity true => Some Eq
  | Infinity false, Infinity false => Some Eq
  | Infinity true, _ => Some Lt
  | _, Infinity true => Some Gt
  | Infinity false, _ => Some Gt
  | _, Infinity false => Some Lt
  | Finite x, Finite y => Some (x ?= y)%Q
  end.

(** [a < b], [a <= b], [a > b], [a >= b], [a === b] *)
Definition lt (a b : JsNumber) : bool :=
  match compare a b with Some Lt => true | _ => false end.
Definition le (a b : JsNumber) : bool :=
  match compare a b with Some Lt | Some Eq => true | _ => false end.
Definition gt (a b : JsNumber) : bool := lt b a.
Definition ge (a b : JsNumber) : bool := le b a.
Definition eq (a b : JsNumber) : bool :=
  match compare a b with Some Eq => true | _ => false end.

Definition isNaN (a : JsNumber) : bool :=
  match a with NaN => true | _ => false end.

(** [Math.min(a, b)], [Math.max(a, b)] *)
Definition min (a b : JsNumber) : JsNumber :=
  match compare a b with None => NaN | Some Gt => b | Some _ => a end.
Definition max (a b : JsNumber) : JsNumber :=
  match compare a b with None => NaN | Some Lt => b | Some _ => a end.

(** [ToNumber] of a value that is a number or [undefined]. *)
Definition toNumber (x : option JsNumber) : JsNumber :=
  match x with
  | Some a => a
  | None => NaN
  end.

(** An integer of magnitude at most [2^53] is a double. *)
Definition exactInteger (q : Q) : bool :=
  (Z.pos (Qden q) =? 1) && (Z.abs (Qnum q) <=? 2 ^ 53).

Section Arithmetic.
Context {E : Engine}.

(** The double an arithmetic operation returns for the exact result [q]. *)
Definition fl (q : Q) : JsNumber :=
  let r := Qred q in
  if exactInteger r then Finite r else round r.

Definition neg (a : JsNumber) : JsNumber :=
  match a with
  | NaN => NaN
  | Infinity s => Infinity (negb s)
  | Finite x => Finite (- x)
  end.

(** [a + b], [a - b], [a * b], [a / b] *)
Definition add (a b : JsNumber) : JsNumber :=
  match a, b with
  | NaN, _ | _, NaN => NaN
  | Infinity s, Infinity s' => if Bool.eqb s s' then Infinity s else NaN
  | Infinity s, Finite _ => Infinity s
  | Finite _, Infinity s => Infinity s
  | Finite x, Finite y => fl (x + y)
  end.

Definition sub (a b : JsNumber) : JsNumber := add a (neg b).

(** The infinity [Infinity s] times a finite [y]. *)
Definition scaleInfinity (s : bool) (y : Q) : JsNumber :=
  match (y ?= 0)%Q with
  | Eq => NaN
  | Lt => Infinity (negb s)
  | Gt => Infinity s
  end.

Definition mul (a b : JsNumber) : JsNumber :=
  match a, b with
  | NaN, _ | _, NaN => NaN
  | Infinity s, Infinity s' => Infinity (xorb s s')
  | Infinity s, Finite y => scaleInfinity s y
  | Finite x, Infinity s => scaleInfinity s x
  | Finite x, Finite y => fl (x * y)
  end.

Definition div (a b : JsNumber) : JsNumber :=
  match a, b with
  | NaN, _ | _, NaN => NaN
  | Infinity _, Infinity _ => NaN
  | Infinity s, Finite y =>
      match (y ?= 0)%Q with Lt => Infinity (negb s) | _ => Infinity s end
  | Finite _, Infinity _ => Finite 0
  | Finite x, Finite y =>
      match (y ?= 0)%Q with
      | Eq =>
          match (x ?= 0)%Q with
          | Eq => NaN
          | Lt => Infinity true
          | Gt => Infinity false
          end
      | _ => fl (x / y)
      end
  end.

(** [Math.pow(base, exponent)]: the standard fixes the result for a NaN or
    zero exponent and for a NaN base. *)
Definition pow (base exponent : JsNumber) : JsNumber :=
  match exponent with
  | NaN => NaN
  | Finite e =>
      match (e ?= 0)%Q with
      | Eq => Finite 1
      | _ => if isNaN base then NaN else power base exponent
      end
  | Infinity _ => if isNaN base then NaN else power base exponent
  end.

(** [String(a)], as a template literal prints a number. *)
Definition toString (a : JsNumber) : string :=
  match a with
  | NaN => "NaN"
  | Infinity false => "Infinity"
  | Infinity true => "-Infinity"
  | Finite q =>
      let r := Qred q in
      if exactInteger r then NilZero.string_of_int (Z.to_int (Qnum r)) else digits r
  end.

(** A number or [undefined] inside a template literal. *)
Definition template (x : option JsNumber) : string :=
  match x with
  | Some a => toString a
  | None => "undefined"
  end.

End Arithmetic.

End JsNum.
Coercion JsNum.ofZ : Z >-> JsNumber.

(** Exact arithmetic: an engine for sample runs, whose timers run on time.
    No sample run prints a number that is not an integer; [digits] is a
    placeholder. *)
Definition exactPower (base exponent : JsNumber) : JsNumber :=
  match base, exponent with
  | Finite b, Finite e => Finite (Qred (Qpower b (Qfloor e)))
  | _, _ => NaN
  end.

Definition exactEngine : Engine :=
  {| round := Finite;
     power := exactPower;
     digits := fun _ => "fraction"%string;
     timer := fun d => match d with Finite q => Qmax 0 q | _ => 0%Q end |}.

(** ** JavaScript values of an open type

    Where a source is generic in [T], a value of [T] may be [undefined],
    and the sources test for it. *)

(** [x === undefined] *)
Class JsValue (T : Type) : Type := isUndefined : T -> bool.

(** Strings and numbers are never [undefined]. *)
#[global] Instance string_value : JsValue string := fun _ => false.
#[global] Instance nat_value : JsValue nat := fun _ => false.
#[global] Instance Z_value : JsValue Z := fun _ => false.

(** A value that may be missing: [None] is [undefined]. *)
#[global] Instance option_value {T : Type} : JsValue (option T) :=
  fun x => match x with None => true | Some _ => false end.

(** ** Object literals

    A key of an object literal is left out, or present with a value that
    may be [undefined] ([None]); after a spread [{ ...d, ...c }] a key holds
    what [c] gives it when [c] has the key, also when that is [undefined]. *)

Inductive Key (A : Type) : Type :=
| Absent
| Present (value : option A).
Arguments Absent {A}.
Arguments Present {A} value.

Definition spreadKey {A : Type} (d : option A) (c : Key A) : option A :=
  match c with
  | Absent => d
  | Present value => value
  end.

(** A boolean or [undefined] as the condition of an [if] or an operand of
    [&&]. *)
Definition truthy (x : option bool) : bool :=
  match x with
  | Some b => b
  | None => false
  end.

(** ** utils/bounded-queue.ts : BoundedQueue *)

(** The three strategies of the type; the [default:] branch of [enqueue],
    which throws on any other string, cannot be reached from typed code. *)
Inductive DropStrategy : Type := oldest | newest | reject.

Record BoundedQueueConfig : Type := mkConfig {
  maxSize : JsNumber;
  dropStrategy : DropStrategy
}.

Module BoundedQueue.
Section Queue.
Context {T : Type} {V : JsValue T}.

(** [onDropCalls] is the sequence of arguments [config.onDrop] has been
    called with (the callback itself is optional in the source; the log
    records when it would run). *)
Record t : Type := mk {
  config : BoundedQueueConfig;
  items : list T;
  droppedCount : Z;
  onDropCalls : list T
}.

Definition create (cfg : BoundedQueueConfig) : t :=
  {| config := cfg; items := []; droppedCount := 0; onDropCalls := [] |}.

Definition size (q : t) : Z := Z.of_nat (length (items q)).

Definition isEmpty (q : t) : bool := size q =? 0.

Definition isFull (q : t) : bool := JsNum.ge (JsNum.ofZ (size q)) (maxSize (config q)).

Definition enqueue (q : t) (item : T) : bool * t :=
  if JsNum.lt (JsNum.ofZ (size q)) (maxSize (config q)) then
    (true, {| config := config q; items := items q ++ [item];
              droppedCount := droppedCount q; onDropCalls := onDropCalls q |})
  else
    match dropStrategy (config q) with
    | oldest =>
        match items q with
        | dropped :: rest =>
            if isUndefined dropped then
              (* the head was an [undefined] item: shifted out, not counted *)
              (true, {| config := config q; items := rest ++ [item];
                        droppedCount := droppedCount q;
                        onDropCalls := onDropCalls q |})
            else
              (true, {| config := config q; items := rest ++ [item];
                        droppedCount := droppedCount q + 1;
                        onDropCalls := onDropCalls q ++ [dropped] |})
        | [] =>
            (* shift() returned undefined: the item is pushed, nothing is counted *)
            (true, {| config := config q; items := [item];
                      droppedCount := droppedCount q;
                      onDropCalls := onDropCalls q |})
        end
    | newest =>
        (false, {| config := config q; items := items q;
                   droppedCount := droppedCount q + 1;
                   onDropCalls := onDropCalls q ++ [item] |})
    | reject => (false, q)
    end.

Definition dequeue (q : t) : option T * t :=
  match items q with
  | [] => (None, q)
  | x :: rest =>
      (Some x, {| config := config q; items := rest;
                  droppedCount := droppedCount q; onDropCalls := onDropCalls q |})
  end.

Definition peek (q : t) : option T := hd_error (items q).

Definition clear (q : t) : t :=
  {| config := config q; items := [];
     droppedCount := droppedCount q; onDropCalls := onDropCalls q |}.

Definition drain (q : t) : list T * t := (items q, clear q).

Definition resetDroppedCount (q : t) : Z * t :=
  (droppedCount q,
   {| config := config q; items := items q;
      droppedCount := 0; onDropCalls := onDropCalls q |}).

Definition toArray (q : t) : list T := items q.

(** The public operations, for statements over call sequences. *)
Inductive op : Type :=
| Enqueue (item : T)
| Dequeue
| Peek
| Clear
| Drain
| ResetDroppedCount.

Definition step (q : t) (o : op) : t :=
  match o with
  | Enqueue item => snd (enqueue q item)
  | Dequeue => snd (dequeue q)
  | Peek => q
  | Clear => clear q
  | Drain => snd (drain q)
  | ResetDroppedCount => snd (resetDroppedCount q)
  end.

Definition run (q : t) (ops : list op) : t := fold_left step ops q.

End Queue.
Arguments t : clear implicits.
Arguments op : clear implicits.
End BoundedQueue.

(** ** utils/bounded-queue.ts : MessageBuffer (extends BoundedQueue) *)

Module MessageBuffer.
Section Buffer.
Context {T : Type} {V : JsValue T}.
(** [estimateSize] is [JSON.stringify(item).length * 2], or [100] when
    serialisation throws; it is a function of the item alone. *)
Variable estimateSize : T -> Z.

Record t : Type := mk {
  base : BoundedQueue.t T;
  totalBytes : Z;
  maxBytes : JsNumber
}.

Definition create (cfg : BoundedQueueConfig) (maxBytes : option JsNumber) : t :=
  {| base := BoundedQueue.create cfg;
     totalBytes := 0;
     maxBytes := match maxBytes with Some b => b | None => JsNum.ofZ (1024 * 1024) end |}.

Definition items (b : t) : list T := BoundedQueue.items (base b).
Definition size (b : t) : Z := BoundedQueue.size (base b).
Definition isEmpty (b : t) : bool := BoundedQueue.isEmpty (base b).
Definition droppedCount (b : t) : Z := BoundedQueue.droppedCount (base b).
Definition onDropCalls (b : t) : list T := BoundedQueue.onDropCalls (base b).

(** The overriding [dequeue]: [super.dequeue()], then the byte counter. *)
Definition dequeue (b : t) : option T * t :=
  let (item, q) := BoundedQueue.dequeue (base b) in
  match item with
  | Some x =>
      if isUndefined x
      then (Some x, {| base := q; totalBytes := totalBytes b; maxBytes := maxBytes b |})
      else (Some x, {| base := q; totalBytes := totalBytes b - estimateSize x;
                       maxBytes := maxBytes b |})
  | None => (None, {| base := q; totalBytes := totalBytes b; maxBytes := maxBytes b |})
  end.

(** One pass of the body of the [while] loop of [enqueue]: it calls
    [this.dequeue()], which is the override above, and then subtracts the
    size of the dropped item from [totalBytes] itself. *)
Definition evictOne (b : t) : t :=
  let (dropped, b1) := dequeue b in
  match dropped with
  | Some d =>
      if isUndefined d then b1
      else {| base := base b1; totalBytes := totalBytes b1 - estimateSize d;
              maxBytes := maxBytes b1 |}
  | None => b1
  end.

(** [this.totalBytes + itemSize > this.maxBytes] *)
Definition overBudget (b : t) (itemSize : Z) : bool :=
  JsNum.gt (JsNum.ofZ (totalBytes b + itemSize)) (maxBytes b).

(** The [while] loop; every pass removes one item, so [length (items b)]
    passes always suffice (see [evictLoop_exit]). *)
Fixpoint evictLoop (fuel : nat) (itemSize : Z) (b : t) : t :=
  match fuel with
  | O => b
  | S fuel' =>
      if negb (isEmpty b) && overBudget b itemSize
      then evictLoop fuel' itemSize (evictOne b)
      else b
  end.

(** The byte-budget phase of [enqueue] (the outer [if] and the loop). *)
Definition makeRoom (b : t) (itemSize : Z) : t :=
  if overBudget b itemSize && negb (isEmpty b)
  then evictLoop (length (items b)) itemSize b
  else b.

Definition enqueue (b : t) (item : T) : bool * t :=
  let itemSize := estimateSize item in
  let b1 := makeRoom b itemSize in
  let (success, q) := BoundedQueue.enqueue (base b1) item in
  if success
  then (true, {| base := q; totalBytes := totalBytes b1 + itemSize;
                 maxBytes := maxBytes b1 |})
  else (false, {| base := q; totalBytes := totalBytes b1; maxBytes := maxBytes b1 |}).

Definition clear (b : t) : t :=
  {| base := BoundedQueue.clear (base b); totalBytes := 0; maxBytes := maxBytes b |}.

(** Sum of the size estimator over the items currently held. *)
Definition heldBytes (b : t) : Z :=
  fold_right (fun x acc => estimateSize x + acc) 0 (items b).

Inductive op : Type :=
| Enqueue (item : T)
| Dequeue
| Clear.

Definition step (b : t) (o : op) : t :=
  match o with
  | Enqueue item => snd (enqueue b item)
  | Dequeue => snd (dequeue b)
  | Clear => clear b
  end.

Definition run (b : t) (ops : list op) : t := fold_left step ops b.

End Buffer.
Arguments t : clear implicits.
Arguments op : clear implicits.
End MessageBuffer.

(** ** utils/retry.ts, with the token of utils/cancellation.ts *)

Module Retry.

(** A configuration as the functions read it.  The type declares numbers
    and a boolean; what a key holds after the spread of a partial
    configuration may also be [undefined] ([None]). *)
Record RetryConfig : Type := mkRetryConfig {
  maxAttempts : option JsNumber;
  initialDelay : option JsNumber;
  maxDelay : option JsNumber;
  backoffMultiplier : option JsNumber;
  jitter : option bool
}.

Definition DEFAULT_RETRY_CONFIG : RetryConfig :=
  {| maxAttempts := Some (JsNum.ofZ 3);
     initialDelay := Some (JsNum.ofZ 1000);
     maxDelay := Some (JsNum.ofZ 30000);
     backoffMultiplier := Some (JsNum.ofZ 2);
     jitter := Some true |}.

(** [Partial<RetryConfig>] *)
Record PartialRetryConfig : Type := mkPartial {
  maxAttempts' : Key JsNumber;
  initialDelay' : Key JsNumber;
  maxDelay' : Key JsNumber;
  backoffMultiplier' : Key JsNumber;
  jitter' : Key bool
}.

(** [{}], which is also what the parameter defaults to *)
Definition emptyPartial : PartialRetryConfig :=
  {| maxAttempts' := Absent; initialDelay' := Absent; maxDelay' := Absent;
     backoffMultiplier' := Absent; jitter' := Absent |}.

Definition spread (d : RetryConfig) (c : PartialRetryConfig) : RetryConfig :=
  {| maxAttempts := spreadKey (maxAttempts d) (maxAttempts' c);
     initialDelay := spreadKey (initialDelay d) (initialDelay' c);
     maxDelay := spreadKey (maxDelay d) (maxDelay' c);
     backoffMultiplier := spreadKey (backoffMultiplier d) (backoffMultiplier' c);
     jitter := spreadKey (jitter d) (jitter' c) |}.

(** A token as [withRetry] sees it.  The caller cancels it at some instant
    of the run's clock, or never; [cancel()] is idempotent and the flag
    never goes back (cancellation.ts), so the instant determines
    [isCancelled] at every later read. *)
Record CancellationToken : Type := mkToken { cancelTime : option Q }.

Definition isCancelledAt (token : option CancellationToken) (now : Q) : bool :=
  match token with
  | Some tok =>
      match cancelTime tok with
      | Some c => Qle_bool c now
      | None => false
      end
  | None => false
  end.

(** The token fires strictly inside the wait [(now, now + ms)]. *)
Definition firesDuring (token : option CancellationToken) (now ms : Q) : option Q :=
  match token with
  | Some tok =>
      match cancelTime tok with
      | Some c => if negb (Qle_bool c now) && negb (Qle_bool (now + ms)%Q c)
                  then Some c else None
      | None => None
      end
  | None => None
  end.

Section Backoff.
Context {E : Engine}.

(** [delay] before the jitter and the final clamp:
    [Math.min(initialDelay * Math.pow(backoffMultiplier, attempt), maxDelay)]. *)
Definition cappedDelay (attempt : nat) (config : RetryConfig) : JsNumber :=
  JsNum.min
    (JsNum.mul (JsNum.toNumber (initialDelay config))
       (JsNum.pow (JsNum.toNumber (backoffMultiplier config)) (JsNum.ofNat attempt)))
    (JsNum.toNumber (maxDelay config)).

(** [random] is the value [Math.random()] returns in this call (it is read
    only when [jitter] is set). *)
Definition calculateBackoffDelay (random : Q) (attempt : nat) (config : RetryConfig)
  : JsNumber :=
  let delay := cappedDelay attempt config in
  let delay :=
    if truthy (jitter config) then
      let jitterRange := JsNum.mul delay (Finite (1 # 4)) in
      JsNum.add delay
        (JsNum.mul (JsNum.mul (JsNum.sub (Finite random) (Finite (1 # 2))) 2) jitterRange)
    else delay in
  JsNum.max 0 delay.

(** [sleep(ms, token)] started at [now]: the settlement of the promise and
    the instant it settles; the timer armed with [ms] runs after
    [timer ms]. *)
Definition sleep (ms : JsNumber) (token : option CancellationToken) (now : Q)
  : (unit + JsError) * Q :=
  if isCancelledAt token now then
    (inr (Error "Operation was cancelled"), now)
  else
    match firesDuring token now (timer ms) with
    | Some c => (inr (Error "Operation was cancelled"), c)
    | None => (inl tt, (now + timer ms)%Q)
    end.

End Backoff.

Section WithRetry.
Context {E : Engine} {T : Type}.

Inductive Settlement : Type :=
| Resolved (value : T)
| Rejected (reason : Thrown).

(** What one invocation of [operation] does: how it settles and how long
    it takes. *)
Record Invocation : Type := mkInvocation {
  outcome : Settlement;
  duration : Q
}.

(** [operation i] is the [i]-th invocation (counting from 0) of the
    caller's thunk; [random i] is what [Math.random()] yields when the
    delay after attempt [i] is computed. *)
Variable operation : nat -> Invocation.
Variable random : nat -> Q.

Record RunState : Type := mkRun {
  now : Q;
  calls : nat;
  sleeps : list JsNumber
}.

Definition start : RunState := {| now := 0; calls := 0; sleeps := [] |}.

(** The rejection after the loop:
    [new RetryableError(`Operation failed after ${maxAttempts} attempts`, lastError)]. *)
Definition exhausted (config : RetryConfig) (lastError : option JsError) : Settlement :=
  Rejected (ThrownError
    (RetryableError
       ("Operation failed after " ++ JsNum.template (maxAttempts config) ++ " attempts")
       lastError)).

(** The body of the [try]: [throwIfCancelled()], then [await operation()]. *)
Definition attemptOnce (token : option CancellationToken) (st : RunState)
  : Settlement * RunState :=
  if isCancelledAt token (now st) then
    (Rejected (ThrownError (CancellationError "Operation was cancelled")), st)
  else
    let inv := operation (calls st) in
    (outcome inv,
     {| now := (now st + duration inv)%Q; calls := S (calls st); sleeps := sleeps st |}).

(** The [for] loop, followed for at most [fuel] tests of its condition:
    [None] when the call has not settled by then (with
    [maxAttempts = Infinity] and an operation that keeps failing it never
    does). *)
Fixpoint retryLoop (fuel : nat) (config : RetryConfig)
    (token : option CancellationToken)
    (attempt : nat) (lastError : option JsError) (st : RunState)
  : option (Settlement * RunState) :=
  match fuel with
  | O => None
  | S fuel' =>
      if JsNum.lt (JsNum.ofNat attempt) (JsNum.toNumber (maxAttempts config)) then
        match attemptOnce token st with
        | (Resolved v, st1) => Some (Resolved v, st1)
        | (Rejected error, st1) =>
            let lastError := Some (toError error) in
            if isNonRetryable error then Some (Rejected error, st1)
            else if JsNum.eq (JsNum.ofNat attempt)
                      (JsNum.sub (JsNum.toNumber (maxAttempts config)) 1) then
              Some (exhausted config lastError, st1)
            else
              let delay := calculateBackoffDelay (random attempt) attempt config in
              match sleep delay token (now st1) with
              | (inl _, wake) =>
                  retryLoop fuel' config token (S attempt) lastError
                    {| now := wake; calls := calls st1;
                       sleeps := sleeps st1 ++ [delay] |}
              | (inr e, at_) =>
                  Some (Rejected (ThrownError e),
                        {| now := at_; calls := calls st1;
                           sleeps := sleeps st1 ++ [delay] |})
              end
        end
      else Some (exhausted config lastError, st)
  end.

Definition withRetry (fuel : nat) (config : PartialRetryConfig)
    (token : option CancellationToken) (st : RunState)
  : option (Settlement * RunState) :=
  let finalConfig := spread DEFAULT_RETRY_CONFIG config in
  retryLoop fuel finalConfig token 0 None st.

End WithRetry.
Arguments Settlement : clear implicits.
Arguments Invocation : clear implicits.

End Retry.

(** ** utils/concurrency-fixed.ts : ConcurrencyLimiter, on the event loop

    Every [execute] call creates one promise and one [queuedOp] record; both
    are named by the call's [OpId].  Tokens are [CancellationTokenImpl]s of
    cancellation.ts, held in a store by [TokenId]; the only callbacks the
    limiter registers are the closures of [execute], which close over the
    [queuedOp] they remove. *)

Module Limiter.

Record ConcurrencyLimiterConfig : Type := mkLimiterConfig {
  maxConcurrent : JsNumber;
  queueLimit : JsNumber
}.

Definition OpId := nat.
Definition TokenId := nat.

Inductive Callback : Type :=
| RemoveQueued (op : OpId).

Record TokenState : Type := mkTokenState {
  isCancelled : bool;
  callbacks : list Callback
}.

Definition freshToken : TokenState := {| isCancelled := false; callbacks := [] |}.

Record QueuedOperation : Type := mkQueued {
  opId : OpId;
  cancellationToken : option TokenId
}.

Section World.
Context {V : Type}.

Inductive Settlement : Type :=
| Resolved (value : V)
| Rejected (reason : JsError).

Record World : Type := mkWorld {
  config : ConcurrencyLimiterConfig;
  running : Z;
  queue : list QueuedOperation;
  tokens : gmap TokenId TokenState;
  promises : gmap OpId Settlement;
  invoked : list OpId;
  inflight : gset OpId;
  nextOp : OpId
}.

Definition init (cfg : ConcurrencyLimiterConfig) : World :=
  {| config := cfg; running := 0; queue := []; tokens := ∅; promises := ∅;
     invoked := []; inflight := ∅; nextOp := O |}.

Definition setRunning (r : Z) (w : World) : World :=
  mkWorld (config w) r (queue w) (tokens w) (promises w) (invoked w) (inflight w) (nextOp w).
Definition setQueue (q : list QueuedOperation) (w : World) : World :=
  mkWorld (config w) (running w) q (tokens w) (promises w) (invoked w) (inflight w) (nextOp w).
Definition setTokens (ts : gmap TokenId TokenState) (w : World) : World :=
  mkWorld (config w) (running w) (queue w) ts (promises w) (invoked w) (inflight w) (nextOp w).
Definition setPromises (ps : gmap OpId Settlement) (w : World) : World :=
  mkWorld (config w) (running w) (queue w) (tokens w) ps (invoked w) (inflight w) (nextOp w).
Definition setNextOp (n : OpId) (w : World) : World :=
  mkWorld (config w) (running w) (queue w) (tokens w) (promises w) (invoked w) (inflight w) n.

(** Calling [operation()] of the record: logged, and in flight until it settles. *)
Definition invoke (op : OpId) (w : World) : World :=
  mkWorld (config w) (running w) (queue w) (tokens w) (promises w)
          (invoked w ++ [op]) ({[op]} ∪ inflight w) (nextOp w).
Definition landed (op : OpId) (w : World) : World :=
  mkWorld (config w) (running w) (queue w) (tokens w) (promises w)
          (invoked w) (inflight w ∖ {[op]}) (nextOp w).

(** [resolve]/[reject] of a promise: only the first settlement counts. *)
Definition settle (op : OpId) (s : Settlement) (w : World) : World :=
  match promises w !! op with
  | Some _ => w
  | None => setPromises (<[op := s]> (promises w)) w
  end.

Definition tokenState (w : World) (t : TokenId) : TokenState :=
  default freshToken (tokens w !! t).

(** [cancellationToken?.isCancelled] *)
Definition tokenCancelled (w : World) (token : option TokenId) : bool :=
  match token with
  | Some t => isCancelled (tokenState w t)
  | None => false
  end.

Definition isQueued (op : OpId) (q : list QueuedOperation) : bool :=
  existsb (fun r => Nat.eqb (opId r) op) q.

(** [queue.splice(queue.indexOf(queuedOp), 1)] *)
Fixpoint removeQueued (op : OpId) (q : list QueuedOperation) : list QueuedOperation :=
  match q with
  | [] => []
  | r :: rest => if Nat.eqb (opId r) op then rest else r :: removeQueued op rest
  end.

(** The closure registered by [execute] for a queued operation. *)
Definition runCallback (cb : Callback) (w : World) : World :=
  match cb with
  | RemoveQueued op =>
      if isQueued op (queue w)
      then settle op (Rejected newCancellationError)
                  (setQueue (removeQueued op (queue w)) w)
      else w
  end.

(** [token.onCancelled(callback)] *)
Definition onCancelled (t : TokenId) (cb : Callback) (w : World) : World :=
  let ts := tokenState w t in
  if isCancelled ts then runCallback cb w
  else setTokens (<[t := {| isCancelled := false; callbacks := callbacks ts ++ [cb] |}]>
                    (tokens w)) w.

(** [token.cancel()] *)
Definition cancel (t : TokenId) (w : World) : World :=
  let ts := tokenState w t in
  if isCancelled ts then w
  else
    let w1 := setTokens (<[t := {| isCancelled := true; callbacks := callbacks ts |}]>
                           (tokens w)) w in
    let w2 := fold_left (fun acc cb => runCallback cb acc) (callbacks ts) w1 in
    setTokens (<[t := {| isCancelled := true; callbacks := [] |}]> (tokens w2)) w2.

(** [executeImmediate] up to its [await]; [finally_] is what runs in the
    [finally] block when the function ends without suspending. *)
Definition executeImmediateWith (finally_ : World -> World)
    (queuedOp : QueuedOperation) (w : World) : World :=
  let w := setRunning (running w + 1) w in
  if tokenCancelled w (cancellationToken queuedOp) then
    finally_ (setRunning (running w - 1)
                (settle (opId queuedOp) (Rejected newCancellationError) w))
  else invoke (opId queuedOp) w.

(** [processQueue]; each pass shifts one record, so [length (queue w)]
    passes are enough. *)
Fixpoint processQueueLoop (fuel : nat) (w : World) : World :=
  match fuel with
  | O => w
  | S fuel' =>
      if JsNum.ge (JsNum.ofZ (running w)) (maxConcurrent (config w))
         || (Nat.eqb (length (queue w)) 0)
      then w
      else
        match queue w with
        | [] => w
        | nextOp_ :: rest =>
            executeImmediateWith (processQueueLoop fuel') nextOp_ (setQueue rest w)
        end
  end.

Definition processQueue (w : World) : World :=
  processQueueLoop (S (length (queue w))) w.

Definition executeImmediate (queuedOp : QueuedOperation) (w : World) : World :=
  executeImmediateWith processQueue queuedOp w.

(** [execute(operation, cancellationToken)]: the executor of the promise. *)
Definition execute (token : option TokenId) (w : World) : World :=
  let id := nextOp w in
  let w := setNextOp (S id) w in
  if tokenCancelled w token then settle id (Rejected newCancellationError) w
  else
    let queuedOp := {| opId := id; cancellationToken := token |} in
    if JsNum.lt (JsNum.ofZ (running w)) (maxConcurrent (config w))
    then executeImmediate queuedOp w
    else if JsNum.ge (JsNum.ofZ (Z.of_nat (length (queue w)))) (queueLimit (config w)) then
      settle id (Rejected (Error "Concurrency queue is full")) w
    else
      let w := setQueue (queue w ++ [queuedOp]) w in
      match token with
      | Some t => onCancelled t (RemoveQueued id) w
      | None => w
      end.

(** The continuation of [executeImmediate] after its [await], when the
    operation in flight settles with [result]. *)
Definition complete (op : OpId) (result : V + Thrown) (w : World) : World :=
  if decide (op ∈ inflight w) then
    let w := landed op w in
    let w :=
      match result with
      | inl v => settle op (Resolved v) w
      | inr error => settle op (Rejected (toError error)) w
      end in
    processQueue (setRunning (running w - 1) w)
  else w.

Inductive Event : Type :=
| Execute (token : option TokenId)
| Complete (op : OpId) (result : V + Thrown)
| Cancel (t : TokenId).

Definition step (w : World) (e : Event) : World :=
  match e with
  | Execute token => execute token w
  | Complete op result => complete op result w
  | Cancel t => cancel t w
  end.

Definition run (w : World) (es : list Event) : World := fold_left step es w.

End World.
Arguments World : clear implicits.
Arguments Settlement : clear implicits.
Arguments Event : clear implicits.

End Limiter.

(** ** utils/throttle.ts : ValueSmoother

    [Date.now()] is an argument of every call.  The timer of [setTimeout]
    is the pair of what its closure captured and the delay it was given;
    [fire] is the closure running. *)

Module Smoother.
Section Smoother.
Context {T : Type} {V : JsValue T} {E : Engine}.

Record PendingTimeout : Type := mkPending {
  captured : T;
  delay : JsNumber
}.

Record t : Type := mk {
  lastValue : option T;
  lastUpdate : Z;
  minInterval : JsNumber;
  pendingTimeout : option PendingTimeout
}.

(** [new ValueSmoother(maxHz)]; the parameter defaults to 5 when it is
    absent or [undefined]. *)
Definition create (maxHz : option JsNumber) : t :=
  let maxHz := match maxHz with Some hz => hz | None => JsNum.ofZ 5 end in
  let cappedHz := JsNum.max 2 (JsNum.min 10 maxHz) in
  {| lastValue := None; lastUpdate := 0;
     minInterval := JsNum.div 1000 cappedHz; pendingTimeout := None |}.

(** [this.lastValue === undefined]: nothing was stored yet, or the value
    stored is [undefined]. *)
Definition lastValueUndefined (s : t) : bool :=
  match lastValue s with
  | None => true
  | Some last => isUndefined last
  end.

Definition emit (now : Z) (value : T) (s : t) : t :=
  {| lastValue := Some value; lastUpdate := now;
     minInterval := minInterval s; pendingTimeout := pendingTimeout s |}.

Definition shouldEmit (now : Z) (value : T) (forceEmit : bool) (s : t) : bool * t :=
  let timeSinceLastUpdate := now - lastUpdate s in
  if forceEmit || lastValueUndefined s then
    (true, emit now value s)
  else if JsNum.ge (JsNum.ofZ timeSinceLastUpdate) (minInterval s) then
    (true, emit now value s)
  else
    match pendingTimeout s with
    | None =>
        let remainingTime := JsNum.sub (minInterval s) (JsNum.ofZ timeSinceLastUpdate) in
        (false, {| lastValue := lastValue s; lastUpdate := lastUpdate s;
                   minInterval := minInterval s;
                   pendingTimeout := Some {| captured := value; delay := remainingTime |} |})
    | Some _ => (false, s)
    end.

(** The callback given to [setTimeout], run at [now]. *)
Definition fire (now : Z) (s : t) : t :=
  match pendingTimeout s with
  | Some p =>
      {| lastValue := Some (captured p); lastUpdate := now;
         minInterval := minInterval s; pendingTimeout := None |}
  | None => s
  end.

Definition cancel (s : t) : t :=
  {| lastValue := lastValue s; lastUpdate := lastUpdate s;
     minInterval := minInterval s; pendingTimeout := None |}.

Definition getLastValue (s : t) : option T := lastValue s.

End Smoother.
Arguments t : clear implicits.
Arguments PendingTimeout : clear implicits.
End Smoother.

(** ** client/ws-client.ts : WSClient.send and the buffer it feeds *)

Module WS.

Inductive ConnectionState : Type :=
| disconnected | connecting | connected | reconnecting | failed.

Definition isConnected (s : ConnectionState) : bool :=
  match s with connected => true | _ => false end.

Inductive ReadyState : Type := CONNECTING | OPEN | CLOSING | CLOSED.

(** The browser's socket: frames handed to it while open are transmitted. *)
Record WebSocket : Type := mkSocket {
  readyState : ReadyState;
  transmitted : list string
}.

(** [WebSocket.send]: throws while the socket is still connecting, sends
    when open, and silently discards once closing or closed. *)
Definition socketSend (ws : WebSocket) (message : string) : JsError + WebSocket :=
  match readyState ws with
  | CONNECTING => inl (Error "InvalidStateError")
  | OPEN => inr {| readyState := OPEN; transmitted := transmitted ws ++ [message] |}
  | _ => inr ws
  end.

Section Client.
Context {Data : Type}.

Record WSEnvelope : Type := mkEnvelope {
  v : Z;
  t : string;
  seq : Z;
  corr : option string;
  t_wall : string;
  data : Data
}.

(** An envelope is an object, never [undefined]. *)
#[local] Instance envelope_value : JsValue WSEnvelope := fun _ => false.

(** [JSON.stringify(envelope)], or what it throws; and the size
    estimator of the message buffer. *)
Variable stringify : WSEnvelope -> Thrown + string.
Variable estimateSize : WSEnvelope -> Z.

Record WSClient : Type := mkClient {
  maxMessageSize : option JsNumber;
  ws : option WebSocket;
  state : ConnectionState;
  messageBuffer : MessageBuffer.t WSEnvelope;
  lastSeq : Z;
  onErrorCalls : list JsError;
  (** every envelope [send] has constructed, in order *)
  constructed : list WSEnvelope
}.

Definition create (maxMessageSize maxBufferSize : option JsNumber) : WSClient :=
  {| maxMessageSize := maxMessageSize;
     ws := None;
     state := disconnected;
     messageBuffer :=
       MessageBuffer.create {| maxSize := 1000; dropStrategy := oldest |} maxBufferSize;
     lastSeq := 0;
     onErrorCalls := [];
     constructed := [] |}.

Definition reportError (e : JsError) (c : WSClient) : WSClient :=
  mkClient (maxMessageSize c) (ws c) (state c) (messageBuffer c) (lastSeq c)
           (onErrorCalls c ++ [e]) (constructed c).

(** [send(type, data, { correlationId })]; [nowIso] is
    [new Date().toISOString()]. *)
Definition send (type : string) (payload : Data) (correlationId : option string)
    (nowIso : string) (c : WSClient) : bool * WSClient :=
  let envelope :=
    {| v := 1; t := type; seq := lastSeq c + 1; corr := correlationId;
       t_wall := nowIso; data := payload |} in
  let c1 := mkClient (maxMessageSize c) (ws c) (state c) (messageBuffer c)
                     (lastSeq c + 1) (onErrorCalls c) (constructed c ++ [envelope]) in
  match isConnected (state c), ws c with
  | true, Some socket =>
      match stringify envelope with
      | inl error => (false, reportError (toError error) c1)
      | inr message =>
          if JsNum.gt (JsNum.ofNat (String.length message))
                      (default (JsNum.ofZ (64 * 1024)) (maxMessageSize c))
          then (false, reportError (Error "Message too large") c1)
          else
            match socketSend socket message with
            | inr socket' =>
                (true, mkClient (maxMessageSize c1) (Some socket') (state c1)
                                (messageBuffer c1) (lastSeq c1) (onErrorCalls c1)
                                (constructed c1))
            | inl e => (false, reportError e c1)
            end
      end
  | _, _ =>
      let (ok, buffer) := MessageBuffer.enqueue estimateSize (messageBuffer c1) envelope in
      (ok, mkClient (maxMessageSize c1) (ws c1) (state c1) buffer (lastSeq c1)
                    (onErrorCalls c1) (constructed c1))
  end.

(** What [connect], [disconnect], the reconnect timer and the socket
    handlers do to the fields above: they assign [state] and [ws] (and
    [onopen] flushes the buffer, see [Flush]); none of them assigns
    [lastSeq].  Any assignment is allowed here, which covers every order
    in which the real handlers can run. *)
Definition transport (st : ConnectionState) (socket : option WebSocket)
    (c : WSClient) : WSClient :=
  mkClient (maxMessageSize c) socket st (messageBuffer c) (lastSeq c)
           (onErrorCalls c) (constructed c).

(** [flushBufferedMessages]; a failing [ws.send] ends the loop.  Each
    pass dequeues, so [length] of the buffer bounds the passes. *)
Fixpoint flushLoop (fuel : nat) (c : WSClient) : WSClient :=
  match fuel with
  | O => c
  | S fuel' =>
      if MessageBuffer.isEmpty (messageBuffer c) then c
      else
        let (message, buffer) := MessageBuffer.dequeue estimateSize (messageBuffer c) in
        let c1 := mkClient (maxMessageSize c) (ws c) (state c) buffer (lastSeq c)
                           (onErrorCalls c) (constructed c) in
        match message, ws c with
        | Some m, Some socket =>
            match readyState socket with
            | OPEN =>
                match stringify m with
                | inr text =>
                    match socketSend socket text with
                    | inr socket' =>
                        flushLoop fuel'
                          (mkClient (maxMessageSize c1) (Some socket') (state c1)
                                    (messageBuffer c1) (lastSeq c1) (onErrorCalls c1)
                                    (constructed c1))
                    | inl _ => c1
                    end
                | inl _ => c1
                end
            | _ => flushLoop fuel' c1
            end
        | _, _ => flushLoop fuel' c1
        end
  end.

Definition flushBufferedMessages (c : WSClient) : WSClient :=
  flushLoop (length (MessageBuffer.items (messageBuffer c))) c.

Inductive Event : Type :=
| Send (type : string) (payload : Data) (correlationId : option string) (nowIso : string)
| Transport (st : ConnectionState) (socket : option WebSocket)
| Flush.

Definition step (c : WSClient) (e : Event) : WSClient :=
  match e with
  | Send type payload correlationId nowIso =>
      snd (send type payload correlationId nowIso c)
  | Transport st socket => transport st socket c
  | Flush => flushBufferedMessages c
  end.

Definition run (c : WSClient) (es : list Event) : WSClient := fold_left step es c.

End Client.
#[global] Existing Instance envelope_value.
Arguments WSEnvelope : clear implicits.
Arguments WSClient : clear implicits.
Arguments Event : clear implicits.

End WS.

(** ** worker/worker-channel.ts : WorkerChannel

    A request is named by the number its id string is made from
    ([String(this.nextId++)]); its promise and its timeout timer carry the
    same name. *)

Module Worker.

Inductive WorkerMessageType : Type :=
| INIT | COMPUTE_PROGRESS | COMPUTE_ETA | SHUTDOWN.

Record Sample : Type := mkSample { timestamp : JsNumber; progress : JsNumber }.

Inductive Payload : Type :=
| EmptyObject
| ProgressRequest (samples : list Sample) (targetHz : JsNumber)
| Samples (samples : list Sample).

Record WorkerMessage : Type := mkMessage {
  type : WorkerMessageType;
  id : nat;
  data : Payload
}.

Record PendingRequest : Type := mkPending { timeout : nat }.

(** The token argument, as the channel reads it at the call. *)
Record CancellationToken : Type := mkToken { isCancelled : bool }.

Section Channel.
Context {Result : Type}.
(** [worker.postMessage(message)] may throw (a payload that cannot be
    cloned); [None] is the normal case. *)
Variable postMessageThrows : WorkerMessage -> option Thrown.

Inductive Settlement : Type :=
| Resolved (result : option Result)
| Rejected (reason : Thrown).

(** [WorkerResponse]: [{ id, result?, error? }] *)
Record WorkerResponse : Type := mkResponse {
  requestId : nat;
  result : option Result;
  error : option string
}.

(** [if (error)]: a missing or empty string is falsy. *)
Definition truthy (s : option string) : bool :=
  match s with
  | Some text => negb (String.eqb text EmptyString)
  | None => false
  end.

(** What an [async] method hands back: a promise already rejected by a
    [throw] before any request existed, or the promise of request [id]. *)
Inductive Call : Type :=
| Threw (e : JsError)
| Awaiting (id : nat).

Record WorkerChannel : Type := mkChannel {
  nextId : nat;
  pendingRequests : gmap nat PendingRequest;
  isShutdown : bool;
  (** [worker.postMessage] calls, in order *)
  posted : list WorkerMessage;
  (** [worker.terminate()] has been called *)
  terminated : bool;
  (** settled request promises *)
  settled : gmap nat Settlement;
  (** armed timeout timers *)
  timers : gset nat;
  (** requests whose token has a cancellation callback registered *)
  cancelHooks : gset nat;
  (** [shutdown] suspended at its [await], and on which request *)
  shutdownAwaits : option nat
}.

Definition create : WorkerChannel :=
  {| nextId := 1; pendingRequests := ∅; isShutdown := false; posted := [];
     terminated := false; settled := ∅; timers := ∅; cancelHooks := ∅;
     shutdownAwaits := None |}.

Definition settle (i : nat) (s : Settlement) (c : WorkerChannel) : WorkerChannel :=
  match settled c !! i with
  | Some _ => c
  | None =>
      mkChannel (nextId c) (pendingRequests c) (isShutdown c) (posted c) (terminated c)
                (<[i := s]> (settled c)) (timers c) (cancelHooks c) (shutdownAwaits c)
  end.

Definition setPending (p : gmap nat PendingRequest) (c : WorkerChannel) : WorkerChannel :=
  mkChannel (nextId c) p (isShutdown c) (posted c) (terminated c)
            (settled c) (timers c) (cancelHooks c) (shutdownAwaits c).

Definition clearTimeout (timer : nat) (c : WorkerChannel) : WorkerChannel :=
  mkChannel (nextId c) (pendingRequests c) (isShutdown c) (posted c) (terminated c)
            (settled c) (timers c ∖ {[timer]}) (cancelHooks c) (shutdownAwaits c).

Definition terminate (c : WorkerChannel) : WorkerChannel :=
  mkChannel (nextId c) (pendingRequests c) (isShutdown c) (posted c) true
            (settled c) (timers c) (cancelHooks c) None.

(** [sendMessage(type, data, cancellationToken, timeoutMs)] *)
Definition sendMessage (ty : WorkerMessageType) (payload : Payload)
    (token : option CancellationToken) (c : WorkerChannel) : Call * WorkerChannel :=
  if isShutdown c then (Threw (Error "Worker is shutdown"), c)
  else if match token with Some tok => isCancelled tok | None => false end
  then (Threw newCancellationError, c)
  else
    let i := nextId c in
    let message := {| type := ty; id := i; data := payload |} in
    let c1 :=
      mkChannel (S i)
                (<[i := {| timeout := i |}]> (pendingRequests c))
                (isShutdown c) (posted c) (terminated c) (settled c)
                ({[i]} ∪ timers c)
                (match token with Some _ => {[i]} ∪ cancelHooks c | None => cancelHooks c end)
                (shutdownAwaits c) in
    match postMessageThrows message with
    | None =>
        (Awaiting i,
         mkChannel (nextId c1) (pendingRequests c1) (isShutdown c1)
                   (posted c1 ++ [message]) (terminated c1) (settled c1)
                   (timers c1) (cancelHooks c1) (shutdownAwaits c1))
    | Some error =>
        (Awaiting i,
         settle i (Rejected error)
           (clearTimeout i (setPending (delete i (pendingRequests c1)) c1)))
    end.

Definition initialize (c : WorkerChannel) : Call * WorkerChannel :=
  sendMessage INIT EmptyObject None c.

Definition computeProgress (samples : list Sample) (targetHz : JsNumber)
    (token : option CancellationToken) (c : WorkerChannel) : Call * WorkerChannel :=
  if isShutdown c then (Threw (Error "Worker is shutdown"), c)
  else sendMessage COMPUTE_PROGRESS (ProgressRequest samples targetHz) token c.

Definition computeETA (samples : list Sample)
    (token : option CancellationToken) (c : WorkerChannel) : Call * WorkerChannel :=
  if isShutdown c then (Threw (Error "Worker is shutdown"), c)
  else sendMessage COMPUTE_ETA (Samples samples) token c.

(** The loop of [shutdown] and of [handleError] over a snapshot of the
    pending entries. *)
Definition rejectAll (reason : JsError) (c : WorkerChannel) : WorkerChannel :=
  fold_left
    (fun acc entry =>
       settle (fst entry) (Rejected (ThrownError reason))
              (clearTimeout (timeout (snd entry)) acc))
    (map_to_list (pendingRequests c)) c.

(** [shutdown()].  Its [await this.sendMessage('SHUTDOWN', {})] either
    throws at once, which the [catch] swallows, or suspends until that
    request settles (see [resume]); [terminate] follows. *)
Definition shutdown (c : WorkerChannel) : WorkerChannel :=
  if isShutdown c then c
  else
    let c1 := mkChannel (nextId c) (pendingRequests c) true (posted c) (terminated c)
                        (settled c) (timers c) (cancelHooks c) (shutdownAwaits c) in
    let c2 := setPending ∅ (rejectAll (Error "Worker is shutting down") c1) in
    match sendMessage SHUTDOWN EmptyObject None c2 with
    | (Threw _, c3) => terminate c3
    | (Awaiting i, c3) =>
        match settled c3 !! i with
        | Some _ => terminate c3
        | None =>
            mkChannel (nextId c3) (pendingRequests c3) (isShutdown c3) (posted c3)
                      (terminated c3) (settled c3) (timers c3) (cancelHooks c3) (Some i)
        end
    end.

(** After request [i] settled: a [shutdown] waiting on it goes on. *)
Definition resume (i : nat) (c : WorkerChannel) : WorkerChannel :=
  match shutdownAwaits c with
  | Some j => if Nat.eqb i j then terminate c else c
  | None => c
  end.

(** [handleMessage]: a response [{ id, result, error }] from the worker. *)
Definition handleMessage (response : WorkerResponse) (c : WorkerChannel)
  : WorkerChannel :=
  let i := requestId response in
  match pendingRequests c !! i with
  | None => c
  | Some request =>
      let c1 := clearTimeout (timeout request) (setPending (delete i (pendingRequests c)) c) in
      resume i
        (if truthy (error response)
         then settle i (Rejected (ThrownError (Error (default EmptyString (error response))))) c1
         else settle i (Resolved (result response)) c1)
  end.

(** The timeout callback of request [i] (default 5000 ms). *)
Definition timeoutFired (i : nat) (c : WorkerChannel) : WorkerChannel :=
  if decide (i ∈ timers c) then
    resume i
      (settle i (Rejected (ThrownError (Error "Worker request timed out after 5000ms")))
         (clearTimeout i (setPending (delete i (pendingRequests c)) c)))
  else c.

(** [handleError]: an error event of the worker rejects whatever is pending. *)
Definition handleError (message : string) (c : WorkerChannel) : WorkerChannel :=
  let c1 := setPending ∅ (rejectAll (Error ("Worker error: " ++ message)%string) c) in
  match shutdownAwaits c with
  | Some j => if decide (is_Some (pendingRequests c !! j)) then terminate c1 else c1
  | None => c1
  end.

(** The cancellation callback of request [i]. *)
Definition tokenFired (i : nat) (c : WorkerChannel) : WorkerChannel :=
  if decide (i ∈ cancelHooks c) then
    match pendingRequests c !! i with
    | Some request =>
        resume i
          (settle i (Rejected (ThrownError newCancellationError))
             (clearTimeout (timeout request)
                (setPending (delete i (pendingRequests c)) c)))
    | None => c
    end
  else c.

Inductive Event : Type :=
| Initialize
| ComputeProgress (samples : list Sample) (targetHz : JsNumber)
    (token : option CancellationToken)
| ComputeETA (samples : list Sample) (token : option CancellationToken)
| Shutdown
| Response (response : WorkerResponse)
| WorkerError (message : string)
| TimeoutFired (i : nat)
| TokenFired (i : nat).

Definition step (c : WorkerChannel) (e : Event) : WorkerChannel :=
  match e with
  | Initialize => snd (initialize c)
  | ComputeProgress samples hz token => snd (computeProgress samples hz token c)
  | ComputeETA samples token => snd (computeETA samples token c)
  | Shutdown => shutdown c
  | Response r => handleMessage r c
| WorkerError message => handleError message c
  | TimeoutFired i => timeoutFired i c
  | TokenFired i => tokenFired i c
  end.

Definition run (c : WorkerChannel) (es : list Event) : WorkerChannel :=
  fold_left step es c.

End Channel.
Arguments Settlement : clear implicits.
Arguments WorkerResponse : clear implicits.
Arguments WorkerChannel : clear implicits.
Arguments Event : clear implicits.

End Worker.

(** ** utils/concurrency-fixed.ts : Semaphore

    A call of [acquire] is named by its rank among the calls; the promise
    it returns is resolved when the rank enters [granted]. *)

Module Semaphore.

Record t : Type := mk {
  permits : JsNumber;
  waitQueue : list nat;
  (** [acquire] promises resolved so far, in the order they were resolved *)
  granted : list nat;
  (** [tryAcquire] calls that returned true *)
  taken : nat;
  nextCaller : nat
}.

Definition create (permits : JsNumber) : t :=
  {| permits := permits; waitQueue := []; granted := []; taken := 0; nextCaller := 0 |}.

Section Permits.
Context {E : Engine}.

Definition acquire (s : t) : t :=
  let caller := nextCaller s in
  if JsNum.gt (permits s) 0
  then mk (JsNum.sub (permits s) 1) (waitQueue s) (granted s ++ [caller]) (taken s) (S caller)
  else mk (permits s) (waitQueue s ++ [caller]) (granted s) (taken s) (S caller).

Definition release (s : t) : t :=
  if Z.of_nat (length (waitQueue s)) >? 0 then
    match waitQueue s with
    | next :: rest => mk (permits s) rest (granted s ++ [next]) (taken s) (nextCaller s)
    | [] => s
    end
  else mk (JsNum.add (permits s) 1) (waitQueue s) (granted s) (taken s) (nextCaller s).

Definition tryAcquire (s : t) : bool * t :=
  if JsNum.gt (permits s) 0
  then (true, mk (JsNum.sub (permits s) 1) (waitQueue s) (granted s) (S (taken s))
                (nextCaller s))
  else (false, s).

Definition availablePermits (s : t) : JsNumber := permits s.

Inductive op : Type := Acquire | Release | TryAcquire.

Definition step (s : t) (o : op) : t :=
  match o with
  | Acquire => acquire s
  | Release => release s
  | TryAcquire => snd (tryAcquire s)
  end.

Definition run (s : t) (ops : list op) : t := fold_left step ops s.

End Permits.

End Semaphore.

(** ** utils/cancellation.ts : CancellationTokenImpl

    A callback is named by a number and may throw when called; the token
    catches what it throws and warns.  Callbacks that call back into the
    token they are registered on are not covered. *)

Module Token.

Record Callback : Type := mkCallback { name : nat; throws : bool }.

Record t : Type := mk {
  isCancelled : bool;
  callbacks : list Callback;
  (** callbacks called so far, in order *)
  called : list Callback;
  (** [console.warn] calls, by the callback that threw *)
  warned : list Callback
}.

Definition create : t :=
  {| isCancelled := false; callbacks := []; called := []; warned := [] |}.

(** [try { callback() } catch (error) { console.warn(...) }] *)
Definition invoke (s : t) (callback : Callback) : t :=
  mk (isCancelled s) (callbacks s) (called s ++ [callback])
     (if throws callback then warned s ++ [callback] else warned s).

Definition cancel (s : t) : t :=
  if isCancelled s then s
  else
    let s1 := mk true (callbacks s) (called s) (warned s) in
    let s2 := fold_left invoke (callbacks s1) s1 in
    mk (isCancelled s2) [] (called s2) (warned s2).

Definition throwIfCancelled (s : t) : option JsError :=
  if isCancelled s then Some (CancellationError "Operation was cancelled") else None.

Definition onCancelled (callback : Callback) (s : t) : t :=
  if isCancelled s then invoke s callback
  else mk (isCancelled s) (callbacks s ++ [callback]) (called s) (warned s).

Inductive op : Type := Cancel | OnCancelled (callback : Callback).

Definition step (s : t) (o : op) : t :=
  match o with
  | Cancel => cancel s
  | OnCancelled callback => onCancelled callback s
  end.

Definition run (s : t) (ops : list op) : t := fold_left step ops s.

End Token.

(** ** utils/throttle.ts : createThrottler

    [executed] logs the calls of [fn]: when, and with which arguments. *)

Module Throttler.

(** The configuration after the spread; a key may hold [undefined]. *)
Record ThrottleConfig : Type := mkThrottleConfig {
  maxHz : option JsNumber;
  leading : option bool;
  trailing : option bool
}.

Definition DEFAULT_THROTTLE_CONFIG : ThrottleConfig :=
  {| maxHz := Some (JsNum.ofZ 5); leading := Some true; trailing := Some true |}.

(** [Partial<ThrottleConfig>] and the spread [{ ...DEFAULT_THROTTLE_CONFIG, ...config }]. *)
Record PartialThrottleConfig : Type := mkPartial {
  maxHz' : Key JsNumber;
  leading' : Key bool;
  trailing' : Key bool
}.

Definition spread (d : ThrottleConfig) (c : PartialThrottleConfig) : ThrottleConfig :=
  {| maxHz := spreadKey (maxHz d) (maxHz' c);
     leading := spreadKey (leading d) (leading' c);
     trailing := spreadKey (trailing d) (trailing' c) |}.

(** [!timeoutId] *)
Definition isNull {A : Type} (x : option A) : bool :=
  match x with None => true | Some _ => false end.

Section Throttler.
Context {E : Engine} {Args : Type}.

Record t : Type := mk {
  config : ThrottleConfig;
  interval : JsNumber;
  lastExecution : Z;
  (** the armed timer, with the delay it was given *)
  timeoutId : option JsNumber;
  lastArgs : option Args;
  executed : list (Z * Args)
}.

Definition createThrottler (c : PartialThrottleConfig) : t :=
  let cfg := spread DEFAULT_THROTTLE_CONFIG c in
  let cappedHz := JsNum.max 2 (JsNum.min 10 (JsNum.toNumber (maxHz cfg))) in
  {| config := cfg; interval := JsNum.div 1000 cappedHz;
     lastExecution := 0; timeoutId := None; lastArgs := None; executed := [] |}.

(** [execute(args)], with its own reading [now] of the clock. *)
Definition execute (now : Z) (args : Args) (s : t) : t :=
  mk (config s) (interval s) now (timeoutId s) (lastArgs s) (executed s ++ [(now, args)]).

(** [throttled(...args)]; [now] is the reading at its start and
    [executeNow] the one [execute] takes if it is called. *)
Definition throttled (now executeNow : Z) (args : Args) (s : t) : t :=
  let timeSinceLastExecution := now - lastExecution s in
  let s1 := mk (config s) (interval s) (lastExecution s) (timeoutId s) (Some args)
               (executed s) in
  if truthy (leading (config s))
     && JsNum.ge (JsNum.ofZ timeSinceLastExecution) (interval s)
  then execute executeNow args s1
  else if truthy (trailing (config s)) && isNull (timeoutId s1)
  then
    let remainingTime := JsNum.sub (interval s) (JsNum.ofZ timeSinceLastExecution) in
    mk (config s1) (interval s1) (lastExecution s1) (Some (JsNum.max 0 remainingTime))
       (lastArgs s1) (executed s1)
  else s1.

(** The callback given to [setTimeout], run at [now]. *)
Definition fire (now : Z) (s : t) : t :=
  let s1 := mk (config s) (interval s) (lastExecution s) None (lastArgs s) (executed s) in
  match lastArgs s1 with
  | Some args =>
      let s2 := execute now args s1 in
      mk (config s2) (interval s2) (lastExecution s2) (timeoutId s2) None (executed s2)
  | None => s1
  end.

Definition cancel (s : t) : t :=
  match timeoutId s with
  | Some _ => mk (config s) (interval s) (lastExecution s) None None (executed s)
  | None => s
  end.

End Throttler.
Arguments t : clear implicits.

End Throttler.

(** ** utils/throttle.ts : RateLimiter

    [admitted] logs the readings of the clock at which [isAllowed]
    returned true. *)

Module RateLimiter.

Record t : Type := mk {
  calls : list Z;
  maxHz : JsNumber;
  windowMs : Z;
  admitted : list Z
}.

(** [new RateLimiter(maxHz)]; the parameter defaults to 5 when it is absent
    or [undefined]. *)
Definition create (maxHz : option JsNumber) : t :=
  let maxHz := match maxHz with Some hz => hz | None => JsNum.ofZ 5 end in
  {| calls := []; maxHz := JsNum.max 2 (JsNum.min 10 maxHz); windowMs := 1000;
     admitted := [] |}.

(** [this.calls.filter(time => now - time < this.windowMs)] *)
Definition recent (now : Z) (s : t) : list Z :=
  List.filter (fun time => now - time <? windowMs s) (calls s).

Definition isAllowed (now : Z) (s : t) : bool * t :=
  let calls1 := recent now s in
  if JsNum.lt (JsNum.ofZ (Z.of_nat (length calls1))) (maxHz s)
  then (true, mk (calls1 ++ [now]) (maxHz s) (windowMs s) (admitted s ++ [now]))
  else (false, mk calls1 (maxHz s) (windowMs s) (admitted s)).

Definition getCurrentRate (now : Z) (s : t) : Z :=
  Z.of_nat (length (recent now s)).

Definition reset (s : t) : t := mk [] (maxHz s) (windowMs s) (admitted s).

Inductive op : Type := IsAllowed (now : Z) | Reset.

Definition step (s : t) (o : op) : t :=
  match o with
  | IsAllowed now => snd (isAllowed now s)
  | Reset => reset s
  end.

Definition run (s : t) (ops : list op) : t := fold_left step ops s.

End RateLimiter.

(** ** store/helpers.ts : the async-operation state machine

    [Value] stands for what a payload can be: the casts [payload as T] and
    [payload as Error] of the reducer do nothing at run time. *)

Module Store.

Inductive AsyncOperationState : Type := idle | pending | success | error | cancelled.

Section Store.
Context {Value : Type}.

Record AsyncOperation : Type := mkOperation {
  state : AsyncOperationState;
  data : option Value;
  error' : option Value;
  startTime : option Z;
  endTime : option Z
}.

Record StoreAction : Type := mkAction {
  type : string;
  payload : option Value;
  timestamp : Z;
  correlationId : option string
}.

Definition createAsyncOperation : AsyncOperation :=
  {| state := idle; data := None; error' := None; startTime := None; endTime := None |}.

Definition createPendingOperation (startTime : option Z) (now : Z) : AsyncOperation :=
  {| state := pending; data := None; error' := None;
     startTime := Some (default now startTime); endTime := None |}.

Definition createSuccessOperation (data : Value) (startTime : option Z) (now : Z)
  : AsyncOperation :=
  {| state := success; data := Some data; error' := None;
     startTime := startTime; endTime := Some now |}.

Definition createErrorOperation (error : Value) (startTime : option Z) (now : Z)
  : AsyncOperation :=
  {| state := Store.error; data := None; error' := Some error;
     startTime := startTime; endTime := Some now |}.

Definition createCancelledOperation (startTime : option Z) (now : Z) : AsyncOperation :=
  {| state := cancelled; data := None; error' := None;
     startTime := startTime; endTime := Some now |}.

(** [updateOperationState(operation, newState, data, error)]; [now] is
    its [Date.now()]. *)
Definition updateOperationState (operation : AsyncOperation)
    (newState : AsyncOperationState) (data : option Value) (error : option Value)
    (now : Z) : AsyncOperation :=
  match newState with
  | pending =>
      {| state := pending;
         startTime := Some (default now (startTime operation));
         data := None; error' := None; endTime := None |}
  | success =>
      {| state := success; data := data; error' := None;
         startTime := startTime operation; endTime := Some now |}
  | Store.error =>
      {| state := Store.error; error' := error; data := None;
         startTime := startTime operation; endTime := Some now |}
  | cancelled =>
      {| state := cancelled; data := Store.data operation; error' := error' operation;
         startTime := startTime operation; endTime := Some now |}
  | idle =>
      {| state := newState; data := Store.data operation; error' := error' operation;
         startTime := startTime operation; endTime := endTime operation |}
  end.

Definition isTerminalState (s : AsyncOperationState) : bool :=
  match s with
  | success | Store.error | cancelled => true
  | _ => false
  end.

Definition isLoading (operation : AsyncOperation) : bool :=
  match state operation with pending => true | _ => false end.

Definition isSuccess (operation : AsyncOperation) : bool :=
  match state operation with success => true | _ => false end.

Definition isError (operation : AsyncOperation) : bool :=
  match state operation with Store.error => true | _ => false end.

(** [if (!operation.startTime) return undefined]: a missing start time
    and the start time 0 are both falsy. *)
Definition getOperationDuration (operation : AsyncOperation) (now : Z) : option Z :=
  match startTime operation with
  | None => None
  | Some start =>
      if start =? 0 then None
      else Some (default now (endTime operation) - start)
  end.

Definition createAction (type : string) (payload : option Value)
    (correlationId : option string) (now : Z) : StoreAction :=
  {| type := type; payload := payload; timestamp := now; correlationId := correlationId |}.

(** [String.prototype.endsWith] *)
Definition endsWith (s suffix : string) : bool :=
  let n := String.length s in
  let m := String.length suffix in
  (m <=? n)%nat && String.eqb (String.substring (n - m) m s) suffix.

Definition asyncOperationReducer (state : AsyncOperation) (action : StoreAction)
    (now : Z) : AsyncOperation :=
  if endsWith (type action) "/pending" then
    updateOperationState state pending None None now
  else if endsWith (type action) "/fulfilled" then
    updateOperationState state success (payload action) None now
  else if endsWith (type action) "/rejected" then
    updateOperationState state Store.error None (payload action) now
  else if endsWith (type action) "/cancelled" then
    updateOperationState state cancelled None None now
  else state.

(** A history of dispatched actions, each with the clock reading of its
    reduction. *)
Definition run (state : AsyncOperation) (actions : list (StoreAction * Z))
  : AsyncOperation :=
  fold_left (fun acc a => asyncOperationReducer acc (fst a) (snd a)) actions state.

End Store.
Arguments AsyncOperation : clear implicits.
Arguments StoreAction : clear implicits.

End Store.

(** * Vocabulary of the statements, and sample inputs *)

(** The number [m] is the integer [n]. *)
Definition isInteger (m : JsNumber) (n : Z) : Prop :=
  JsNum.eq m (JsNum.ofZ n) = true.

(** [totalBytes] agrees with the items held. *)
Definition inSync {T : Type} (estimateSize : T -> Z) (b : MessageBuffer.t T) : Prop :=
  MessageBuffer.totalBytes b = MessageBuffer.heldBytes estimateSize b.

(** Size of a string item: [JSON.stringify(s).length * 2] for a string
    without characters to escape (the two quotes are counted). *)
Definition stringItemSize (s : string) : Z := Z.of_nat (String.length s + 2) * 2.

(** An ordinary failure: the operation rejects, with anything but a
    [NonRetryableError]. *)
Definition failsRetryably {T : Type} (inv : Retry.Invocation T) : Prop :=
  exists error, Retry.outcome inv = Retry.Rejected error /\ isNonRetryable error = false.

(** No token, or a token nobody cancels during the run. *)
Definition neverCancelled (token : option Retry.CancellationToken) : Prop :=
  forall now : Q, Retry.isCancelledAt token now = false.

Definition failTwiceThenSucceed (i : nat) : Retry.Invocation string :=
  if (i <? 2)%nat
  then Retry.mkInvocation (Retry.Rejected (ThrownError (Error "fail"))) 5
  else Retry.mkInvocation (Retry.Resolved "success"%string) 5.

Definition alwaysFail (i : nat) : Retry.Invocation string :=
  Retry.mkInvocation (Retry.Rejected (ThrownError (Error "persistent failure"))) 5.

Definition doNotRetry (i : nat) : Retry.Invocation string :=
  Retry.mkInvocation
    (Retry.Rejected (ThrownError (NonRetryableError "do not retry" None))) 5.

(** [{ maxAttempts: 3, initialDelay: 100, jitter: false }], and the same
    with five attempts *)
Definition threeAttempts : Retry.PartialRetryConfig :=
  Retry.mkPartial (Present (Some (JsNum.ofZ 3))) (Present (Some (JsNum.ofZ 100)))
    Absent Absent (Present (Some false)).

Definition fiveAttempts : Retry.PartialRetryConfig :=
  Retry.mkPartial (Present (Some (JsNum.ofZ 5))) (Present (Some (JsNum.ofZ 100)))
    Absent Absent (Present (Some false)).

(** The caller's configuration allows no attempt: it gives [maxAttempts]
    the value [undefined], or a number for which [0 < maxAttempts] fails. *)
Definition allowsNoAttempt (config : Retry.PartialRetryConfig) : Prop :=
  match Retry.maxAttempts' config with
  | Absent => False
  | Present (Some m) => JsNum.gt m 0 = false
  | Present None => True
  end.

(** The caller's configuration asks for [n] attempts: it gives
    [maxAttempts] the integer [n], or leaves the key out and [n] is the
    default 3. *)
Definition allowsAttempts (config : Retry.PartialRetryConfig) (n : Z) : Prop :=
  match Retry.maxAttempts' config with
  | Absent => n = 3
  | Present (Some m) => isInteger m n
  | Present None => False
  end.

Definition neverCalled (i : nat) : Retry.Invocation string :=
  Retry.mkInvocation (Retry.Resolved "result"%string) 0.

Definition cancelledAtStart : option Retry.CancellationToken :=
  Some (Retry.mkToken (Some 0%Q)).

(** The envelope [send] builds from its arguments and [lastSeq]. *)
Definition envelopeOf {Data : Type} (type : string) (payload : Data)
    (correlationId : option string) (nowIso : string) (c : WS.WSClient Data)
  : WS.WSEnvelope Data :=
  {| WS.v := 1; WS.t := type; WS.seq := WS.lastSeq c + 1; WS.corr := correlationId;
     WS.t_wall := nowIso; WS.data := payload |}.

(** Sequence numbers handed out so far are increasing and bounded by [lastSeq]. *)
Definition seqInvariant {Data : Type} (c : WS.WSClient Data) : Prop :=
  StronglySorted Z.lt (map WS.seq (WS.constructed c)) /\
  Forall (fun e => WS.seq e <= WS.lastSeq c) (WS.constructed c).

Definition queuedIds {V : Type} (w : Limiter.World V) : list Limiter.OpId :=
  map Limiter.opId (Limiter.queue w).

(** An operation that exists, is not queued and has not been invoked. *)
Definition gone {V : Type} (op : Limiter.OpId) (w : Limiter.World V) : Prop :=
  (op < Limiter.nextOp w)%nat /\ ~ In op (queuedIds w) /\ ~ In op (Limiter.invoked w).

(** What holds of the queue in every state, whatever the tokens say. *)
Record QueueInv {V : Type} (w : Limiter.World V) : Prop := mkQueueInv {
  inv_queue_lt : forall i, In i (queuedIds w) -> (i < Limiter.nextOp w)%nat;
  inv_invoked_lt : forall i, In i (Limiter.invoked w) -> (i < Limiter.nextOp w)%nat;
  inv_promises_lt :
    forall i s, Limiter.promises w !! i = Some s -> (i < Limiter.nextOp w)%nat;
  inv_nodup : List.NoDup (queuedIds w);
  inv_unsettled : forall i, In i (queuedIds w) -> Limiter.promises w !! i = None;
  inv_not_invoked : forall i, In i (queuedIds w) -> ~ In i (Limiter.invoked w);
  inv_inflight : forall i, i ∈ Limiter.inflight w -> In i (Limiter.invoked w)
}.

(** A queued record that came with a token: the token is not cancelled
    and still holds the record's callback. *)
Definition HookInv {V : Type} (w : Limiter.World V) : Prop :=
  forall r t, In r (Limiter.queue w) -> Limiter.cancellationToken r = Some t ->
    Limiter.isCancelled (Limiter.tokenState w t) = false /\
    In (Limiter.RemoveQueued (Limiter.opId r)) (Limiter.callbacks (Limiter.tokenState w t)).

Definition Inv {V : Type} (w : Limiter.World V) : Prop := QueueInv w /\ HookInv w.

(** The tokens are untouched and no record has entered the queue. *)
Definition shrinks {V : Type} (w w' : Limiter.World V) : Prop :=
  Limiter.tokens w' = Limiter.tokens w /\
  forall r, In r (Limiter.queue w') -> In r (Limiter.queue w).

(** * Further vocabulary *)

(** [k] successive [dequeue()] calls: what each returned, and the queue left. *)
Fixpoint dequeueMany {T : Type} (k : nat) (q : BoundedQueue.t T)
  : list (option T) * BoundedQueue.t T :=
  match k with
  | O => ([], q)
  | S k' =>
      let (x, q1) := BoundedQueue.dequeue q in
      let (xs, q2) := dequeueMany k' q1 in
      (x :: xs, q2)
  end.

(** An operation of the queue other than [resetDroppedCount]. *)
Definition keepsCount {T : Type} (o : BoundedQueue.op T) : Prop :=
  match o with
  | BoundedQueue.ResetDroppedCount => False
  | _ => True
  end.

(** The delays [withRetry] asks [sleep] for after attempts [from],
    [from + 1], ..., [count] of them. *)
Definition backoffSchedule {E : Engine} (random : nat -> Q) (config : Retry.RetryConfig)
    (from count : nat) : list JsNumber :=
  map (fun i => Retry.calculateBackoffDelay (random i) i config) (seq from count).

(** What the limiter's counters satisfy in every state: [running] is the
    number of operations in flight; the last operation started found
    [running >= maxConcurrent] false and the last record queued found
    [queue.length >= queueLimit] false; no operation in flight has
    settled. *)
Definition FlightInv {V : Type} (w : Limiter.World V) : Prop :=
  Limiter.running w = Z.of_nat (size (Limiter.inflight w)) /\
  (0 < Limiter.running w ->
   JsNum.ge (JsNum.ofZ (Limiter.running w - 1))
     (Limiter.maxConcurrent (Limiter.config w)) = false) /\
  (0 < Z.of_nat (length (Limiter.queue w)) ->
   JsNum.ge (JsNum.ofZ (Z.of_nat (length (Limiter.queue w)) - 1))
     (Limiter.queueLimit (Limiter.config w)) = false) /\
  (forall i, i ∈ Limiter.inflight w -> Limiter.promises w !! i = None).

(** How the promise of an operation settles when the operation does. *)
Definition settlementOf {V : Type} (result : V + Thrown) : Limiter.Settlement V :=
  match result with
  | inl v => Limiter.Resolved v
  | inr error => Limiter.Rejected (toError error)
  end.

(** [texts] are the serialisations [JSON.stringify] gives for [messages],
    none of which throws. *)
Definition serialised {Data : Type} (stringify : WS.WSEnvelope Data -> Thrown + string)
    (messages : list (WS.WSEnvelope Data)) (texts : list string) : Prop :=
  Forall2 (fun m text => stringify m = inr text) messages texts.

(** The socket of the client, if any, is not open. *)
Definition noOpenSocket {Data : Type} (c : WS.WSClient Data) : Prop :=
  match WS.ws c with
  | None => True
  | Some socket => WS.readyState socket <> WS.OPEN
  end.

(** The configuration of the bounded queue under the client's buffer. *)
Definition bufferConfig {Data : Type} (c : WS.WSClient Data) : BoundedQueueConfig :=
  BoundedQueue.config (MessageBuffer.base (WS.messageBuffer c)).

(** Two messages buffered while away, then an open socket. *)
Definition backOnline : WS.WSClient string :=
  WS.run (fun m => inr (WS.t m)) (fun _ => 10) (WS.create None None)
    [WS.Send "asr.partial" "he"%string None "2025-01-01T00:00:00.000Z";
     WS.Send "asr.final" "hello"%string None "2025-01-01T00:00:01.000Z";
     WS.Transport WS.connected (Some (WS.mkSocket WS.OPEN []))].

(** The same two messages, with a socket that is already closed. *)
Definition stillAway : WS.WSClient string :=
  WS.transport WS.reconnecting (Some (WS.mkSocket WS.CLOSED [])) backOnline.

(** What holds of a worker channel in every state: timers are armed for
    exactly the pending requests, a pending request is not settled, and
    every id handed out so far is pending or settled. *)
Record WorkerInv {Result : Type} (c : Worker.WorkerChannel Result) : Prop := mkWorkerInv {
  winv_timers : Worker.timers c = dom (Worker.pendingRequests c);
  winv_timeout :
    forall i r, Worker.pendingRequests c !! i = Some r -> Worker.timeout r = i;
  winv_unsettled :
    forall i, is_Some (Worker.pendingRequests c !! i) -> Worker.settled c !! i = None;
  winv_issued :
    forall i, (1 <= i < Worker.nextId c)%nat ->
      is_Some (Worker.pendingRequests c !! i) \/ is_Some (Worker.settled c !! i);
  winv_unissued :
    forall i, ~ (1 <= i < Worker.nextId c)%nat ->
      Worker.pendingRequests c !! i = None /\ Worker.settled c !! i = None;
  winv_shutdown :
    Worker.isShutdown c = true ->
    Worker.pendingRequests c = ∅ /\ Worker.terminated c = true;
  winv_awaits : Worker.shutdownAwaits c = None;
  winv_nextId : (1 <= Worker.nextId c)%nat
}.

(** Every message handed to [postMessage] is a request of a caller, with
    an id below the counter, and ids increase along the log. *)
Definition PostedInv {Result : Type} (c : Worker.WorkerChannel Result) : Prop :=
  StronglySorted lt (map Worker.id (Worker.posted c)) /\
  Forall (fun m => (1 <= Worker.id m < Worker.nextId c)%nat /\
                   Worker.type m <> Worker.SHUTDOWN) (Worker.posted c).

(** One request in flight, its response outstanding. *)
Definition oneRequest : Worker.WorkerChannel string :=
  Worker.run (fun _ => None) Worker.create
    [Worker.ComputeProgress [Worker.mkSample 1000 (Finite (1 # 2))] 5 None].

(** What happens to a [ValueSmoother]: a value is offered (not forced),
    the pending timer runs, or [cancel] is called. *)
Inductive SmootherEvent (T : Type) : Type :=
| Offer (now : Z) (value : T)
| TimerFires (now : Z)
| CancelPending.
Arguments Offer {T} now value.
Arguments TimerFires {T} now.
Arguments CancelPending {T}.

(** The readings of [Date.now()] along a history. *)
Fixpoint clock {T : Type} (es : list (SmootherEvent T)) : list Z :=
  match es with
  | [] => []
  | Offer now _ :: rest => now :: clock rest
  | TimerFires now :: rest => now :: clock rest
  | CancelPending :: rest => clock rest
  end.

(** The values offered along a history. *)
Fixpoint offered {T : Type} (es : list (SmootherEvent T)) : list T :=
  match es with
  | [] => []
  | Offer _ value :: rest => value :: offered rest
  | _ :: rest => offered rest
  end.

(** The times at which [shouldEmit] answered true. *)
Fixpoint emissions {T : Type} {V : JsValue T} {E : Engine}
    (s : Smoother.t T) (es : list (SmootherEvent T)) : list Z :=
  match es with
  | [] => []
  | Offer now value :: rest =>
      let (ok, s') := Smoother.shouldEmit now value false s in
      (if ok then [now] else []) ++ emissions s' rest
  | TimerFires now :: rest => emissions (Smoother.fire now s) rest
  | CancelPending :: rest => emissions (Smoother.cancel s) rest
  end.

(** Successive times are at least [d] apart: [b - a >= d] holds. *)
Fixpoint spaced (d : JsNumber) (times : list Z) : Prop :=
  match times with
  | a :: (b :: _) as rest => JsNum.ge (JsNum.ofZ (b - a)) d = true /\ spaced d rest
  | _ => True
  end.

(** What rounding to the nearest double satisfies: it keeps the order; it
    leaves an integer of magnitude at most 2^53, and one half, as they
    are; what it returns is a double, which it leaves as it is; and it
    commutes with the change of sign. *)
Record IEEE (E : Engine) : Prop := mkIEEE {
  round_monotone : forall p q : Q, (p <= q)%Q -> JsNum.le (round p) (round q) = true;
  round_integer : forall z : Z, Z.abs z <= 2 ^ 53 -> round (inject_Z z) = Finite (inject_Z z);
  round_half : round (1 # 2) = Finite (1 # 2);
  round_range : forall q r : Q, round q = Finite r -> JsNum.eq (round r) (Finite r) = true;
  round_odd : forall q : Q, round (- q) = JsNum.neg (round q)
}.

(** A number that is a double: rounding leaves it as it is. *)
Definition isDouble {E : Engine} (x : JsNumber) : Prop :=
  match x with
  | Finite q => JsNum.eq (round q) (Finite q) = true
  | _ => True
  end.

(** The number of [release] calls in a history. *)
Definition releases (ops : list Semaphore.op) : nat :=
  length (List.filter (fun o => match o with Semaphore.Release => true | _ => false end) ops).

(** The callbacks handed to [onCancelled] along a history, in order. *)
Fixpoint registered (ops : list Token.op) : list Token.Callback :=
  match ops with
  | [] => []
  | Token.OnCancelled callback :: rest => callback :: registered rest
  | Token.Cancel :: rest => registered rest
  end.

(** The part of a log that lies in the window ending at [now]. *)
Definition inWindow (now : Z) (log : list Z) : list Z :=
  List.filter (fun time => now - time <? 1000) log.

(** A throttler at the default 5 Hz whose trailing timer, armed by the
    call at 1050 ms, is overdue. *)
Definition overdue {E : Engine} : Throttler.t string :=
  Throttler.throttled 1050 1050 "b"%string
    (Throttler.throttled 1000 1000 "a"%string
       (Throttler.createThrottler (Throttler.mkPartial Absent Absent Absent))).

(** What holds of an async operation the reducer has produced. *)
Definition OperationInv {Value : Type} (op : Store.AsyncOperation Value) : Prop :=
  (Store.data op = None \/ Store.error' op = None) /\
  (is_Some (Store.endTime op) <-> Store.isTerminalState (Store.state op) = true) /\
  (Store.isLoading op = true ->
   Store.data op = None /\ Store.error' op = None /\ is_Some (Store.startTime op)).

(** * Properties *)

(** ** Numbers: comparisons of counts *)

Section NumberFacts.

Lemma lt_ofZ (a b : Z) : JsNum.lt (JsNum.ofZ a) (JsNum.ofZ b) = (a <? b).
Proof.
  unfold JsNum.lt, JsNum.ofZ. simpl.
  destruct (Qcompare_spec (inject_Z a) (inject_Z b)) as [H|H|H];
    [rewrite inject_Z_injective in H|rewrite <- Zlt_Qlt in H..];
    symmetry; [apply Z.ltb_ge|apply Z.ltb_lt|apply Z.ltb_ge]; lia.
Qed.

Lemma le_ofZ (a b : Z) : JsNum.le (JsNum.ofZ a) (JsNum.ofZ b) = (a <=? b).
Proof.
  unfold JsNum.le, JsNum.ofZ. simpl.
  destruct (Qcompare_spec (inject_Z a) (inject_Z b)) as [H|H|H];
    [rewrite inject_Z_injective in H|rewrite <- Zlt_Qlt in H..];
    symmetry; [apply Z.leb_le|apply Z.leb_le|apply Z.leb_gt]; lia.
Qed.

Lemma gt_ofZ (a b : Z) : JsNum.gt (JsNum.ofZ a) (JsNum.ofZ b) = (b <? a).
Proof. apply lt_ofZ. Qed.

Lemma ge_ofZ (a b : Z) : JsNum.ge (JsNum.ofZ a) (JsNum.ofZ b) = (b <=? a).
Proof. apply le_ofZ. Qed.

Lemma eq_ofZ (a b : Z) : JsNum.eq (JsNum.ofZ a) (JsNum.ofZ b) = (a =? b).
Proof.
  unfold JsNum.eq, JsNum.ofZ. simpl.
  destruct (Qcompare_spec (inject_Z a) (inject_Z b)) as [H|H|H];
    [rewrite inject_Z_injective in H|rewrite <- Zlt_Qlt in H..];
    symmetry; [apply Z.eqb_eq|apply Z.eqb_neq|apply Z.eqb_neq]; lia.
Qed.

(** [a < b] and [a >= b] exclude each other; both fail on a NaN. *)
Lemma lt_ge_false (a b : JsNumber) : JsNum.lt a b = true -> JsNum.ge a b = false.
Proof.
  unfold JsNum.lt, JsNum.ge, JsNum.le.
  destruct a as [|[|]|x], b as [|[|]|y]; simpl; try discriminate; try reflexivity.
  rewrite <- (Qcompare_antisym x y). destruct (x ?= y)%Q; simpl; congruence.
Qed.

Lemma ge_lt_false (a b : JsNumber) : JsNum.ge a b = true -> JsNum.lt a b = false.
Proof.
  intros H. destruct (JsNum.lt a b) eqn:E; [|reflexivity].
  apply lt_ge_false in E. congruence.
Qed.

(** Against a limit that is the integer [n], counts compare as integers. *)
Lemma integer_finite (m : JsNumber) (n : Z) :
  isInteger m n -> exists q, m = Finite q /\ (q == inject_Z n)%Q.
Proof.
  unfold isInteger, JsNum.eq, JsNum.ofZ.
  destruct m as [|[|]|q]; simpl; try discriminate.
  destruct (Qcompare_spec q (inject_Z n)) as [H|H|H]; try discriminate.
  intros _. exists q. split; [reflexivity|exact H].
Qed.

Lemma lt_integer (k : Z) (m : JsNumber) (n : Z) :
  isInteger m n -> JsNum.lt (JsNum.ofZ k) m = (k <? n).
Proof.
  intros Hm. destruct (integer_finite m n Hm) as (q & -> & Hq).
  rewrite <- lt_ofZ. unfold JsNum.lt, JsNum.ofZ. simpl. rewrite Hq. reflexivity.
Qed.

Lemma ge_integer (k : Z) (m : JsNumber) (n : Z) :
  isInteger m n -> JsNum.ge (JsNum.ofZ k) m = (n <=? k).
Proof.
  intros Hm. destruct (integer_finite m n Hm) as (q & -> & Hq).
  rewrite <- ge_ofZ. unfold JsNum.ge, JsNum.le, JsNum.ofZ. simpl. rewrite Hq. reflexivity.
Qed.

Lemma gt_integer (k : Z) (m : JsNumber) (n : Z) :
  isInteger m n -> JsNum.gt (JsNum.ofZ k) m = (n <? k).
Proof.
  intros Hm. destruct (integer_finite m n Hm) as (q & -> & Hq).
  rewrite <- gt_ofZ. unfold JsNum.gt, JsNum.lt, JsNum.ofZ. simpl. rewrite Hq. reflexivity.
Qed.

(** Sums and differences of integers are exact up to 2^53, whatever the
    engine rounds elsewhere. *)
Lemma Qred_inject_Z (z : Z) : Qred (inject_Z z) = inject_Z z.
Proof.
  unfold Qred, inject_Z.
  pose proof (Z.ggcd_gcd z 1) as Hg. pose proof (Z.ggcd_correct_divisors z 1) as Hd.
  destruct (Z.ggcd z 1) as [g [a b]]. simpl in Hg, Hd.
  rewrite Z.gcd_1_r in Hg. subst g. destruct Hd as [Ha Hb].
  rewrite Z.mul_1_l in Ha, Hb. subst. reflexivity.
Qed.

Lemma fl_ofZ {E : Engine} (z : Z) :
  Z.abs z <= 2 ^ 53 -> JsNum.fl (inject_Z z) = JsNum.ofZ z.
Proof.
  intros Hz. unfold JsNum.fl, JsNum.ofZ.
  rewrite Qred_inject_Z. unfold JsNum.exactInteger. simpl Qden. simpl Qnum.
  rewrite Z.eqb_refl. apply Z.leb_le in Hz. rewrite Hz. reflexivity.
Qed.

Lemma add_ofZ {E : Engine} (a b : Z) :
  Z.abs (a + b) <= 2 ^ 53 -> JsNum.add (JsNum.ofZ a) (JsNum.ofZ b) = JsNum.ofZ (a + b).
Proof.
  intros Hz. change (JsNum.add (JsNum.ofZ a) (JsNum.ofZ b))
    with (JsNum.fl (inject_Z a + inject_Z b)).
  rewrite <- inject_Z_plus. apply fl_ofZ. exact Hz.
Qed.

Lemma sub_ofZ {E : Engine} (a b : Z) :
  Z.abs (a - b) <= 2 ^ 53 -> JsNum.sub (JsNum.ofZ a) (JsNum.ofZ b) = JsNum.ofZ (a - b).
Proof.
  intros Hz. unfold JsNum.sub.
  assert (Hneg : JsNum.neg (JsNum.ofZ b) = JsNum.ofZ (- b)).
  { unfold JsNum.neg, JsNum.ofZ. rewrite inject_Z_opp. reflexivity. }
  rewrite Hneg. apply add_ofZ. replace (a + - b) with (a - b) by lia. exact Hz.
Qed.

(** A test [k >= m] that fails keeps failing for smaller counts. *)
Lemma ge_down (k k' : Z) (m : JsNumber) :
  k' <= k -> JsNum.ge (JsNum.ofZ k) m = false -> JsNum.ge (JsNum.ofZ k') m = false.
Proof.
  intros Hle. unfold JsNum.ge, JsNum.le, JsNum.ofZ.
  destruct m as [|[|]|q]; simpl; try (intros; reflexivity || assumption).
  destruct (Qcompare_spec q (inject_Z k)) as [H|H|H]; try discriminate. intros _.
  assert (Hk : (inject_Z k' <= inject_Z k)%Q) by (rewrite <- Zle_Qle; exact Hle).
  destruct (Qcompare_spec q (inject_Z k')) as [H'|H'|H']; try reflexivity; exfalso; lra.
Qed.

(** A test [k >= m] that holds keeps holding for larger counts. *)
Lemma ge_up (k k' : Z) (m : JsNumber) :
  k <= k' -> JsNum.ge (JsNum.ofZ k) m = true -> JsNum.ge (JsNum.ofZ k') m = true.
Proof.
  intros Hle. unfold JsNum.ge, JsNum.le, JsNum.ofZ.
  destruct m as [|[|]|q]; simpl; try (intros; reflexivity || assumption).
  assert (Hk : (inject_Z k <= inject_Z k')%Q) by (rewrite <- Zle_Qle; exact Hle).
  destruct (Qcompare_spec q (inject_Z k)) as [H|H|H]; try discriminate; intros _;
    destruct (Qcompare_spec q (inject_Z k')) as [H'|H'|H']; try reflexivity; exfalso; lra.
Qed.

(** What a failed test [k - 1 >= m] says when [m] is the integer [n]. *)
Lemma below_integer (k : Z) (m : JsNumber) (n : Z) :
  isInteger m n -> JsNum.ge (JsNum.ofZ (k - 1)) m = false -> k <= n.
Proof.
  intros Hm. rewrite (ge_integer _ _ _ Hm). intros H. apply Z.leb_gt in H. lia.
Qed.

(** An exact result that is the integer [z] is that double. *)
Lemma fl_integer {E : Engine} (x : Q) (z : Z) :
  (x == inject_Z z)%Q -> Z.abs z <= 2 ^ 53 -> JsNum.fl x = JsNum.ofZ z.
Proof.
  intros Hx Hz. rewrite <- (fl_ofZ z Hz). unfold JsNum.fl.
  rewrite (Qred_complete _ _ Hx). reflexivity.
Qed.

Lemma sub_integer {E : Engine} (m : JsNumber) (n : Z) :
  isInteger m n -> Z.abs (n - 1) <= 2 ^ 53 -> JsNum.sub m 1 = JsNum.ofZ (n - 1).
Proof.
  intros Hm Hz. destruct (integer_finite m n Hm) as (q & -> & Hq).
  change (JsNum.sub (Finite q) 1) with (JsNum.fl (q + - inject_Z 1)).
  apply fl_integer; [|exact Hz].
  rewrite Hq, <- inject_Z_opp, <- inject_Z_plus. reflexivity.
Qed.

(** An integer within 2^53 prints its decimal digits. *)
Lemma toString_integer {E : Engine} (m : JsNumber) (n : Z) :
  isInteger m n -> Z.abs n <= 2 ^ 53 ->
  JsNum.toString m = NilZero.string_of_int (Z.to_int n).
Proof.
  intros Hm Hz. destruct (integer_finite m n Hm) as (q & -> & Hq).
  unfold JsNum.toString.
  rewrite (Qred_complete _ _ Hq), Qred_inject_Z.
  unfold JsNum.exactInteger. cbn [Qnum Qden inject_Z].
  rewrite Z.eqb_refl. apply Z.leb_le in Hz. rewrite Hz. reflexivity.
Qed.

(** The order of numbers. *)
Lemma le_finite (x y : Q) : JsNum.le (Finite x) (Finite y) = true <-> (x <= y)%Q.
Proof.
  unfold JsNum.le, JsNum.compare.
  destruct (Qcompare_spec x y) as [H|H|H]; split; intros H';
    try reflexivity; try discriminate; lra.
Qed.

Lemma eq_finite (x y : Q) : JsNum.eq (Finite x) (Finite y) = true <-> (x == y)%Q.
Proof.
  unfold JsNum.eq, JsNum.compare.
  destruct (Qcompare_spec x y) as [H|H|H]; split; intros H';
    try reflexivity; try discriminate; try assumption; lra.
Qed.

Lemma lt_finite (x y : Q) : JsNum.lt (Finite x) (Finite y) = true <-> (x < y)%Q.
Proof.
  unfold JsNum.lt, JsNum.compare.
  destruct (Qcompare_spec x y) as [H|H|H]; split; intros H';
    try reflexivity; try discriminate; try assumption; lra.
Qed.

Lemma le_trans (a b c : JsNumber) :
  JsNum.le a b = true -> JsNum.le b c = true -> JsNum.le a c = true.
Proof.
  destruct a as [|[|]|x], b as [|[|]|y], c as [|[|]|z];
    try (simpl; intros; first [discriminate|reflexivity]).
  rewrite !le_finite. intros. lra.
Qed.

Lemma le_antisym (a b : JsNumber) :
  JsNum.le a b = true -> JsNum.le b a = true -> JsNum.eq a b = true.
Proof.
  destruct a as [|[|]|x], b as [|[|]|y];
    try (simpl; intros; first [discriminate|reflexivity]).
  rewrite !le_finite, eq_finite. intros. lra.
Qed.

Lemma eq_le (a b : JsNumber) : JsNum.eq a b = true -> JsNum.le a b = true.
Proof.
  destruct a as [|[|]|x], b as [|[|]|y];
    try (simpl; intros; first [discriminate|reflexivity]).
  rewrite le_finite, eq_finite. intros. lra.
Qed.

Lemma eq_sym (a b : JsNumber) : JsNum.eq a b = true -> JsNum.eq b a = true.
Proof.
  destruct a as [|[|]|x], b as [|[|]|y];
    try (simpl; intros; first [discriminate|reflexivity]).
  rewrite !eq_finite. intros. lra.
Qed.

Lemma eq_same (x : Q) : JsNum.eq (Finite x) (Finite x) = true.
Proof. apply eq_finite. reflexivity. Qed.

(** What a failed test [k - 1 >= q] says of [k] and [q] rounded up. *)
Lemma below_ceiling (k : Z) (q : Q) :
  JsNum.ge (JsNum.ofZ (k - 1)) (Finite q) = false -> k <= Qceiling q.
Proof.
  intros H. unfold JsNum.ge in H.
  assert (Hlt : (inject_Z (k - 1) < q)%Q).
  { destruct (Qlt_le_dec (inject_Z (k - 1)) q) as [|Hle]; [assumption|].
    apply le_finite in Hle. unfold JsNum.ofZ in H. congruence. }
  pose proof (Qle_ceiling q) as Hc.
  assert (Hz : (inject_Z (k - 1) < inject_Z (Qceiling q))%Q) by lra.
  rewrite <- Zlt_Qlt in Hz. lia.
Qed.

(** [Math.max(0, x)] against bounds of [x]. *)
Lemma max_lower (a x : JsNumber) :
  JsNum.le a x = true -> JsNum.le a (JsNum.max 0 x) = true.
Proof.
  intros Hax. unfold JsNum.max.
  destruct (JsNum.compare 0 x) as [[| |]|] eqn:Ec.
  - apply (le_trans a x); [exact Hax|].
    unfold JsNum.le. destruct x as [|[|]|q]; try discriminate.
    simpl in Ec |- *. injection Ec as Ec.
    rewrite <- (Qcompare_antisym (inject_Z 0) q), Ec in *. reflexivity.
  - exact Hax.
  - apply (le_trans a x); [exact Hax|].
    unfold JsNum.le. destruct x as [|[|]|q]; try discriminate; try reflexivity.
    simpl in Ec |- *. injection Ec as Ec.
    rewrite <- (Qcompare_antisym (inject_Z 0) q), Ec. reflexivity.
  - destruct x as [|[|]|q], a as [|[|]|p]; discriminate.
Qed.

Lemma max_upper (x b : JsNumber) :
  JsNum.le 0 b = true -> JsNum.le x b = true -> JsNum.le (JsNum.max 0 x) b = true.
Proof.
  intros H0 Hx. unfold JsNum.max.
  destruct (JsNum.compare 0 x) as [[| |]|] eqn:Ec; try assumption.
  destruct x as [|[|]|q], b as [|[|]|p]; discriminate.
Qed.

(** [Math.max(0, x)] is never negative. *)
Lemma max_not_negative (x : JsNumber) : JsNum.lt (JsNum.max 0 x) 0 = false.
Proof.
  unfold JsNum.max.
  destruct (JsNum.compare 0 x) as [[| |]|] eqn:Ec; try reflexivity.
  destruct x as [|[|]|q]; try discriminate; try reflexivity.
  unfold JsNum.lt. simpl in Ec |- *. injection Ec as Ec.
  rewrite <- (Qcompare_antisym (inject_Z 0) q), Ec. reflexivity.
Qed.

Section Rounding.
Context {E : Engine}.
Hypothesis Hieee : IEEE E.

(** Under the laws, every arithmetic result is the rounding of the exact
    one. *)
Lemma fl_round (x : Q) : JsNum.fl x = round (Qred x).
Proof.
  unfold JsNum.fl. destruct (JsNum.exactInteger (Qred x)) eqn:Ee; [|reflexivity].
  destruct (Qred x) as [n d]. unfold JsNum.exactInteger in Ee. cbn [Qnum Qden] in Ee.
  apply andb_true_iff in Ee as [Hd Hn]. apply Z.eqb_eq in Hd. injection Hd as ->.
  apply Z.leb_le in Hn. symmetry. exact (round_integer E Hieee n Hn).
Qed.

Lemma fl_monotone (x y : Q) : (x <= y)%Q -> JsNum.le (JsNum.fl x) (JsNum.fl y) = true.
Proof.
  intros Hxy. rewrite !fl_round. apply (round_monotone E Hieee).
  rewrite !Qred_correct. exact Hxy.
Qed.

Lemma fl_double (x : Q) : isDouble (JsNum.fl x).
Proof.
  rewrite fl_round. destruct (round (Qred x)) as [|[|]|r] eqn:Er; simpl; trivial.
  exact (round_range E Hieee (Qred x) r Er).
Qed.

Lemma double_integer (z : Z) : Z.abs z <= 2 ^ 53 -> isDouble (Finite (inject_Z z)).
Proof.
  intros Hz. simpl. rewrite (round_integer E Hieee z Hz). apply eq_same.
Qed.

Lemma double_half : isDouble (Finite (1 # 2)).
Proof. simpl. rewrite (round_half E Hieee). apply eq_same. Qed.

Lemma double_opp (x : Q) : isDouble (Finite x) -> isDouble (Finite (- x)).
Proof.
  simpl. rewrite (round_odd E Hieee).
  destruct (round x) as [|[|]|r]; simpl; try discriminate.
  rewrite !eq_finite. intros H. rewrite H. reflexivity.
Qed.

(** A result whose exact value lies between two doubles lies between
    them. *)
Lemma double_bounds (lo hi x : Q) :
  isDouble (Finite lo) -> isDouble (Finite hi) -> (lo <= x <= hi)%Q ->
  exists r : Q, JsNum.fl x = Finite r /\ (lo <= r <= hi)%Q.
Proof.
  intros Hlo Hhi [Hl Hh]. rewrite fl_round. simpl in Hlo, Hhi.
  assert (H1 : JsNum.le (Finite lo) (round (Qred x)) = true).
  { apply (le_trans _ (round lo)); [apply eq_le, eq_sym; exact Hlo|].
    apply (round_monotone E Hieee). rewrite Qred_correct. exact Hl. }
  assert (H2 : JsNum.le (round (Qred x)) (Finite hi) = true).
  { apply (le_trans _ (round hi)); [|apply eq_le; exact Hhi].
    apply (round_monotone E Hieee). rewrite Qred_correct. exact Hh. }
  destruct (round (Qred x)) as [|[|]|r]; try discriminate.
  exists r. split; [reflexivity|]. apply le_finite in H1, H2. split; assumption.
Qed.

Lemma mul_double (a b : JsNumber) : isDouble (JsNum.mul a b).
Proof.
  destruct a as [|s|x], b as [|s'|y]; simpl; trivial.
  - unfold JsNum.scaleInfinity. destruct (y ?= 0)%Q; exact I.
  - unfold JsNum.scaleInfinity. destruct (x ?= 0)%Q; exact I.
  - apply fl_double.
Qed.

Lemma min_double (a b : JsNumber) : isDouble a -> isDouble b -> isDouble (JsNum.min a b).
Proof.
  intros Ha Hb. unfold JsNum.min.
  destruct (JsNum.compare a b) as [[| |]|]; first [assumption|exact I].
Qed.

End Rounding.

(** Exact arithmetic satisfies the laws. *)
Lemma exactEngine_IEEE : IEEE exactEngine.
Proof.
  split.
  - intros p q Hpq. apply le_finite. exact Hpq.
  - intros z _. reflexivity.
  - reflexivity.
  - intros q r Hr. apply eq_same.
  - intros q. reflexivity.
Qed.

End NumberFacts.

(** ** BoundedQueue *)

Section BoundedQueueFacts.
Context {T : Type} {V : JsValue T}.
Import BoundedQueue.

Lemma config_step (q : t T) (o : op T) : config (step q o) = config q.
Proof.
  destruct o; simpl; try reflexivity.
  - unfold enqueue.
    destruct (JsNum.lt _ _); [reflexivity|].
    destruct (dropStrategy (config q)); [destruct (items q) as [|d rest]|..];
      try reflexivity.
    destruct (isUndefined d); reflexivity.
  - unfold dequeue. destruct (items q); reflexivity.
Qed.

Lemma config_run (ops : list (op T)) (q : t T) : config (run q ops) = config q.
Proof.
  revert q. induction ops as [|o ops IH]; intros q; [reflexivity|].
  unfold run in *. simpl. rewrite IH. apply config_step.
Qed.

(** One enqueue keeps the bound, unless 'oldest' meets capacity zero. *)
Lemma size_enqueue (q : t T) (x : T) (n : Z) :
  isInteger (maxSize (config q)) n ->
  size q <= n ->
  (dropStrategy (config q) = oldest -> 1 <= n) ->
  size (snd (enqueue q x)) <= n.
Proof.
  unfold enqueue. intros Hn Hle Hold. rewrite (lt_integer _ _ _ Hn).
  unfold size in *.
  destruct (Z.ltb_spec (Z.of_nat (length (items q))) n).
  - simpl. rewrite length_app. simpl. lia.
  - destruct (dropStrategy (config q)); simpl; try lia.
    specialize (Hold eq_refl).
    destruct (items q) as [|d rest] eqn:E; simpl in *.
    + lia.
    + destruct (isUndefined d); simpl; rewrite length_app; simpl; lia.
Qed.

Lemma size_step (q : t T) (o : op T) (n : Z) :
  isInteger (maxSize (config q)) n ->
  0 <= n ->
  size q <= n ->
  (dropStrategy (config q) = oldest -> 1 <= n) ->
  size (step q o) <= n.
Proof.
  intros Hn H0 Hle Hold. destruct o; simpl; try assumption.
  - apply size_enqueue; assumption.
  - unfold dequeue, size in *.
    destruct (items q) as [|x rest] eqn:E; simpl; rewrite ?E; simpl in *; lia.
Qed.

End BoundedQueueFacts.

(** C5, as amended.  For a queue whose capacity is an integer [n], not
    negative and, under 'oldest', at least one: [size() <= maxSize] after
    every sequence of operations on a fresh queue; and [enqueue] on a full
    queue follows the strategy: 'oldest' evicts the head, admits the item,
    returns true and counts (and reports) the evicted head, unless that
    head is the value [undefined], which is evicted without being counted;
    'newest' returns false, keeps the items and counts (and reports) the
    incoming item; 'reject' returns false and changes nothing. *)
Theorem bounded_queue_capacity_and_overflow
    (T : Type) (V : JsValue T) (cfg : BoundedQueueConfig) (n : Z)
    (Hint : isInteger (maxSize cfg) n)
    (Hcap : 0 <= n)
    (Hold : dropStrategy cfg = oldest -> 1 <= n) :
  (forall ops : list (BoundedQueue.op T),
      BoundedQueue.size (BoundedQueue.run (BoundedQueue.create cfg) ops) <= n) /\
  (forall (q : BoundedQueue.t T) (x : T),
      BoundedQueue.config q = cfg ->
      BoundedQueue.isFull q = true ->
      match dropStrategy cfg with
      | oldest =>
          exists head rest,
            BoundedQueue.items q = head :: rest /\
            BoundedQueue.enqueue q x =
              (true,
               if isUndefined head
               then BoundedQueue.mk cfg (rest ++ [x])
                      (BoundedQueue.droppedCount q) (BoundedQueue.onDropCalls q)
               else BoundedQueue.mk cfg (rest ++ [x])
                      (BoundedQueue.droppedCount q + 1)
                      (BoundedQueue.onDropCalls q ++ [head]))
      | newest =>
          BoundedQueue.enqueue q x =
            (false, BoundedQueue.mk cfg (BoundedQueue.items q)
                      (BoundedQueue.droppedCount q + 1)
                      (BoundedQueue.onDropCalls q ++ [x]))
      | reject => BoundedQueue.enqueue q x = (false, q)
      end).
Proof.
  split.
  - intros ops.
    assert (Hgen : forall q : BoundedQueue.t T,
               BoundedQueue.config q = cfg ->
               BoundedQueue.size q <= n ->
               BoundedQueue.size (BoundedQueue.run q ops) <= n).
    { induction ops as [|o ops IH]; intros q Hc Hs; [exact Hs|].
      unfold BoundedQueue.run in *. simpl. apply IH.
      - rewrite config_step. exact Hc.
      - apply size_step; rewrite ?Hc; assumption. }
    apply Hgen; [reflexivity|]. unfold BoundedQueue.size. simpl. exact Hcap.
  - intros q x Hc Hfull.
    unfold BoundedQueue.isFull in Hfull. rewrite Hc in Hfull.
    rewrite (ge_integer _ _ _ Hint) in Hfull. apply Z.leb_le in Hfull.
    unfold BoundedQueue.enqueue. rewrite Hc. rewrite (lt_integer _ _ _ Hint).
    destruct (Z.ltb_spec (BoundedQueue.size q) n) as [Hlt|_]; [lia|].
    destruct (dropStrategy cfg) eqn:Es.
    + specialize (Hold eq_refl).
      unfold BoundedQueue.size in Hfull.
      destruct (BoundedQueue.items q) as [|head rest] eqn:Ei; simpl in Hfull; [lia|].
      exists head, rest. split; [reflexivity|].
      destruct (isUndefined head); reflexivity.
    + reflexivity.
    + reflexivity.
Qed.

(** The amended C5 at a full two-slot 'oldest' queue holding [1; 2]. *)
Lemma bounded_queue_capacity_and_overflow_witness :
  BoundedQueue.size
    (BoundedQueue.run (BoundedQueue.create (mkConfig 2 oldest))
       [BoundedQueue.Enqueue 1%nat; BoundedQueue.Enqueue 2%nat; BoundedQueue.Enqueue 3%nat]) <= 2 /\
  BoundedQueue.enqueue (BoundedQueue.mk (mkConfig 2 oldest) [1%nat; 2%nat] 0 []) 3%nat =
    (true, BoundedQueue.mk (mkConfig 2 oldest) [2%nat; 3%nat] 1 [1%nat]).
Proof.
  assert (Hint : isInteger (maxSize (mkConfig 2 oldest)) 2) by reflexivity.
  assert (Hcap : 0 <= 2) by lia.
  assert (Hold : dropStrategy (mkConfig 2 oldest) = oldest -> 1 <= 2)
    by (intros _; lia).
  destruct (bounded_queue_capacity_and_overflow nat nat_value (mkConfig 2 oldest) 2
              Hint Hcap Hold) as [Hsize Hfull].
  split.
  - apply Hsize.
  - destruct (Hfull (BoundedQueue.mk (mkConfig 2 oldest) [1%nat; 2%nat] 0 []) 3%nat
                eq_refl eq_refl) as (head & rest & Hitems & Henq).
    simpl in Hitems. injection Hitems as <- <-. exact Henq.
Defined.

(** C5 as stated fails: with capacity zero and 'oldest', the first enqueue
    leaves one item in the queue, returns true and counts no drop. *)
Lemma bounded_queue_any_maxSize_counterexample :
  ~ (forall (cfg : BoundedQueueConfig) (ops : list (BoundedQueue.op nat)),
        JsNum.le
          (JsNum.ofZ (BoundedQueue.size (BoundedQueue.run (BoundedQueue.create cfg) ops)))
          (maxSize cfg) = true)
  /\ BoundedQueue.enqueue (BoundedQueue.create (mkConfig 0 oldest)) 7%nat
     = (true, BoundedQueue.mk (mkConfig 0 oldest) [7%nat] 0 []).
Proof.
  split; [|reflexivity].
  intros H.
  specialize (H (mkConfig 0 oldest) [BoundedQueue.Enqueue 7%nat]).
  vm_compute in H. discriminate.
Qed.

(** ** MessageBuffer *)

Section MessageBufferFacts.
Context {T : Type} {V : JsValue T}.
Variable estimateSize : T -> Z.
Import MessageBuffer.

Lemma dequeue_drop_surface (b : t T) :
  droppedCount (snd (dequeue estimateSize b)) = droppedCount b /\
  onDropCalls (snd (dequeue estimateSize b)) = onDropCalls b.
Proof.
  unfold dequeue, BoundedQueue.dequeue, droppedCount, onDropCalls.
  destruct (BoundedQueue.items (base b)) as [|x rest]; simpl; [split; reflexivity|].
  destruct (isUndefined x); split; reflexivity.
Qed.

Lemma evictOne_drop_surface (b : t T) :
  droppedCount (evictOne estimateSize b) = droppedCount b /\
  onDropCalls (evictOne estimateSize b) = onDropCalls b.
Proof.
  unfold evictOne, dequeue, BoundedQueue.dequeue, droppedCount, onDropCalls.
  destruct (BoundedQueue.items (base b)) as [|x rest]; simpl; [split; reflexivity|].
  destruct (isUndefined x) eqn:Eu; simpl; rewrite ?Eu; split; reflexivity.
Qed.

Lemma evictOne_items (b : t T) :
  items (evictOne estimateSize b) = tl (items b).
Proof.
  unfold evictOne, dequeue, BoundedQueue.dequeue, items.
  destruct (BoundedQueue.items (base b)) as [|x rest] eqn:E; simpl; rewrite ?E;
    [reflexivity|].
  destruct (isUndefined x) eqn:Eu; simpl; rewrite ?Eu; reflexivity.
Qed.

Lemma evictLoop_drop_surface (fuel : nat) (itemSize : Z) (b : t T) :
  droppedCount (evictLoop estimateSize fuel itemSize b) = droppedCount b /\
  onDropCalls (evictLoop estimateSize fuel itemSize b) = onDropCalls b.
Proof.
  revert b. induction fuel as [|fuel IH]; intros b; simpl; [split; reflexivity|].
  destruct (negb (isEmpty b) && overBudget b itemSize); [|split; reflexivity].
  destruct (IH (evictOne estimateSize b)) as [-> ->].
  apply evictOne_drop_surface.
Qed.

Lemma evictLoop_items (fuel : nat) (itemSize : Z) (b : t T) :
  exists evicted, items b = evicted ++ items (evictLoop estimateSize fuel itemSize b).
Proof.
  revert b. induction fuel as [|fuel IH]; intros b; simpl; [exists []; reflexivity|].
  destruct (negb (isEmpty b) && overBudget b itemSize); [|exists []; reflexivity].
  destruct (IH (evictOne estimateSize b)) as [ev Hev].
  rewrite evictOne_items in Hev.
  destruct (items b) as [|x rest] eqn:E; simpl in Hev.
  - exists ev. exact Hev.
  - exists (x :: ev). simpl. rewrite <- Hev. reflexivity.
Qed.

(** The loop is left only when its condition is false: the fuel
    [length (items b)] never runs out before that. *)
Lemma evictLoop_exit (fuel : nat) (itemSize : Z) (b : t T) :
  (length (items b) <= fuel)%nat ->
  let b' := evictLoop estimateSize fuel itemSize b in
  negb (isEmpty b') && overBudget b' itemSize = false.
Proof.
  revert b. induction fuel as [|fuel IH]; intros b Hlen; simpl.
  - unfold isEmpty, BoundedQueue.isEmpty, BoundedQueue.size.
    unfold items in Hlen.
    assert (length (BoundedQueue.items (base b)) = 0%nat) as -> by lia.
    reflexivity.
  - destruct (negb (isEmpty b) && overBudget b itemSize) eqn:E; [|exact E].
    apply IH. rewrite evictOne_items.
    destruct (items b); simpl in *; lia.
Qed.

(** Where the byte counter does stay in sync, for items other than
    [undefined]. *)
Lemma dequeue_inSync (b : t T) :
  Forall (fun x => isUndefined x = false) (items b) ->
  inSync estimateSize b -> inSync estimateSize (snd (dequeue estimateSize b)).
Proof.
  unfold inSync, dequeue, BoundedQueue.dequeue, heldBytes, items.
  destruct (BoundedQueue.items (base b)) as [|x rest] eqn:E; simpl; rewrite ?E; simpl;
    [lia|].
  intros Hdef. apply Forall_cons_iff in Hdef as [-> _]. simpl. lia.
Qed.

Lemma clear_inSync (b : t T) : inSync estimateSize (clear b).
Proof. reflexivity. Qed.

Lemma enqueue_inSync_no_eviction (b : t T) (x : T) :
  inSync estimateSize b ->
  overBudget b (estimateSize x) = false ->
  JsNum.lt (JsNum.ofZ (size b)) (maxSize (BoundedQueue.config (base b))) = true ->
  inSync estimateSize (snd (enqueue estimateSize b x)).
Proof.
  unfold inSync. intros Hs Hfit Hroom.
  unfold enqueue, makeRoom. rewrite Hfit.
  simpl. unfold BoundedQueue.enqueue. unfold size in Hroom. rewrite Hroom.
  unfold heldBytes, items in *. simpl. rewrite fold_right_app. simpl.
  rewrite Hs.
  clear. induction (BoundedQueue.items (base b)) as [|y l IH]; simpl; lia.
Qed.

End MessageBufferFacts.

(** C10.  The byte-budget phase of [MessageBuffer.enqueue] removes items
    from the head without touching [droppedCount] and without calling
    [onDrop]; what [enqueue] then does to both is exactly what the base
    queue's [enqueue] does on the buffer left by that phase. *)
Theorem byte_eviction_is_silent
    (T : Type) (V : JsValue T) (estimateSize : T -> Z) (b : MessageBuffer.t T) (x : T) :
  let b1 := MessageBuffer.makeRoom estimateSize b (estimateSize x) in
  let after := snd (MessageBuffer.enqueue estimateSize b x) in
  let base_after := snd (BoundedQueue.enqueue (MessageBuffer.base b1) x) in
  (exists evicted, MessageBuffer.items b = evicted ++ MessageBuffer.items b1) /\
  MessageBuffer.droppedCount b1 = MessageBuffer.droppedCount b /\
  MessageBuffer.onDropCalls b1 = MessageBuffer.onDropCalls b /\
  MessageBuffer.droppedCount after = BoundedQueue.droppedCount base_after /\
  MessageBuffer.onDropCalls after = BoundedQueue.onDropCalls base_after.
Proof.
  cbv zeta. repeat split.
  - unfold MessageBuffer.makeRoom.
    destruct (_ && _); [apply evictLoop_items|exists []; reflexivity].
  - unfold MessageBuffer.makeRoom.
    destruct (_ && _); [apply evictLoop_drop_surface|reflexivity].
  - unfold MessageBuffer.makeRoom.
    destruct (_ && _); [apply evictLoop_drop_surface|reflexivity].
  - unfold MessageBuffer.enqueue.
    destruct (BoundedQueue.enqueue _ x) as [[|] q]; reflexivity.
  - unfold MessageBuffer.enqueue.
    destruct (BoundedQueue.enqueue _ x) as [[|] q]; reflexivity.
Qed.

(** C1 fails on the code.  (a) Byte-budget eviction subtracts every evicted
    item twice (once in the overriding [dequeue], once in the loop): with
    [maxBytes = 20], after [enqueue("aaaa")], [enqueue("bbbb")] the buffer
    holds ["bbbb"] (12 bytes) and [totalBytes] is 0.  (b) Count-based
    'oldest' eviction in the base class subtracts nothing: with
    [maxSize = 1], after [enqueue("a")], [enqueue("b")] the buffer holds
    ["b"] (6 bytes) and [totalBytes] is 12. *)
Theorem message_buffer_totalBytes_out_of_sync :
  let byBytes :=
    MessageBuffer.run stringItemSize
      (MessageBuffer.create (mkConfig 10 oldest) (Some (JsNum.ofZ 20)))
      [MessageBuffer.Enqueue "aaaa"%string; MessageBuffer.Enqueue "bbbb"%string] in
  let byCount :=
    MessageBuffer.run stringItemSize
      (MessageBuffer.create (mkConfig 1 oldest) (Some (JsNum.ofZ 1000)))
      [MessageBuffer.Enqueue "a"%string; MessageBuffer.Enqueue "b"%string] in
  (MessageBuffer.items byBytes = ["bbbb"%string] /\
   MessageBuffer.heldBytes stringItemSize byBytes = 12 /\
   MessageBuffer.totalBytes byBytes = 0 /\
   MessageBuffer.droppedCount byBytes = 0 /\
   MessageBuffer.onDropCalls byBytes = []) /\
  (MessageBuffer.items byCount = ["b"%string] /\
   MessageBuffer.heldBytes stringItemSize byCount = 6 /\
   MessageBuffer.totalBytes byCount = 12).
Proof. vm_compute. repeat split; reflexivity. Qed.

(** ** Retry *)

Section BackoffFacts.
Import Retry.
Context {E : Engine}.

(** The jittered delay of a finite, non-negative double [q]: what is added
    to [q] lies between minus and plus [q * 0.25]. *)
Lemma jitter_band (Hieee : IEEE E) (random q : Q) :
  (0 <= random)%Q -> (random < 1)%Q -> (0 <= q)%Q -> isDouble (Finite q) ->
  let quarter := JsNum.mul (Finite q) (Finite (1 # 4)) in
  let jittered :=
    JsNum.add (Finite q)
      (JsNum.mul (JsNum.mul (JsNum.sub (Finite random) (Finite (1 # 2))) 2) quarter) in
  JsNum.le (JsNum.sub (Finite q) quarter) (JsNum.max 0 jittered) = true /\
  JsNum.le (JsNum.max 0 jittered) (JsNum.add (Finite q) quarter) = true.
Proof.
  intros Hr0 Hr1 Hq Hdouble quarter jittered.
  assert (Hzero : isDouble (Finite 0)) by exact (double_integer Hieee 0 ltac:(vm_compute; discriminate)).
  assert (Hone : isDouble (Finite 1)) by exact (double_integer Hieee 1 ltac:(vm_compute; discriminate)).
  assert (Hhalf := double_half Hieee).
  (* quarter *)
  destruct (double_bounds Hieee 0 q (q * (1 # 4)) Hzero Hdouble) as (jq & Hj & Hj0 & Hj1); [lra|].
  change (JsNum.mul (Finite q) (Finite (1 # 4))) with (JsNum.fl (q * (1 # 4))) in quarter.
  assert (Hjd : isDouble (Finite jq)) by (rewrite <- Hj; apply (fl_double Hieee)).
  subst jittered quarter. rewrite Hj.
  (* Math.random() - 0.5 *)
  destruct (double_bounds Hieee (- (1 # 2)) (1 # 2) (random + - (1 # 2))
              (double_opp Hieee _ Hhalf) Hhalf) as (sq & Hs & Hs0 & Hs1); [lra|].
  change (JsNum.sub (Finite random) (Finite (1 # 2)))
    with (JsNum.fl (random + - (1 # 2))).
  rewrite Hs.
  (* ... * 2 *)
  destruct (double_bounds Hieee (- (1)) 1 (sq * inject_Z 2)
              (double_opp Hieee _ Hone) Hone) as (tq & Ht & Ht0 & Ht1);
    [unfold inject_Z; lra|].
  change (JsNum.mul (Finite sq) 2) with (JsNum.fl (sq * inject_Z 2)).
  rewrite Ht.
  (* ... * jitterRange *)
  destruct (double_bounds Hieee (- jq) jq (tq * jq) (double_opp Hieee _ Hjd) Hjd)
    as (uq & Hu & Hu0 & Hu1).
  { split.
    - assert (H : ((- (1)) * jq <= tq * jq)%Q) by (apply Qmult_le_compat_r; assumption).
      lra.
    - assert (H : (tq * jq <= 1 * jq)%Q) by (apply Qmult_le_compat_r; assumption).
      lra. }
  change (JsNum.mul (Finite tq) (Finite jq)) with (JsNum.fl (tq * jq)).
  rewrite Hu.
  change (JsNum.add (Finite q) (Finite uq)) with (JsNum.fl (q + uq)).
  change (JsNum.sub (Finite q) (Finite jq)) with (JsNum.fl (q + - jq)).
  change (JsNum.add (Finite q) (Finite jq)) with (JsNum.fl (q + jq)).
  split.
  - apply max_lower. apply (fl_monotone Hieee). lra.
  - apply max_upper.
    + change (JsNum.ofZ 0) with (JsNum.fl 0). apply (fl_monotone Hieee). lra.
    + apply (fl_monotone Hieee). lra.
Qed.

(** The unjittered delay is a double when [maxDelay] is one. *)
Lemma cappedDelay_double (Hieee : IEEE E) (n : nat) (cfg : RetryConfig) :
  isDouble (JsNum.toNumber (maxDelay cfg)) -> isDouble (cappedDelay n cfg).
Proof.
  intros Hmax. unfold cappedDelay. apply min_double; [apply (mul_double Hieee)|exact Hmax].
Qed.

End BackoffFacts.

(** C3, as amended.  For every attempt index [n], every RetryConfig and
    every value [random] of [Math.random()] in [0, 1), with
    [unjittered = Math.min(initialDelay * Math.pow(backoffMultiplier, n), maxDelay)]
    as the engine computes it in doubles: the result is never negative (it
    is [NaN] or at least 0); with jitter disabled it is
    [Math.max(0, unjittered)], that is [unjittered] itself when this is not
    negative, 0 when it is negative and [NaN] when it is [NaN]; with jitter
    enabled, [maxDelay] a double and [unjittered] finite and not negative,
    it lies between [unjittered - unjittered * 0.25] and
    [unjittered + unjittered * 0.25], each computed in doubles, rounding to
    the nearest double being monotone, odd and exact on doubles. *)
Theorem calculateBackoffDelay_formula
    (E : Engine) (random : Q) (n : nat) (cfg : Retry.RetryConfig)
    (Hrandom : (0 <= random /\ random < 1)%Q) :
  let unjittered :=
    JsNum.min
      (JsNum.mul (JsNum.toNumber (Retry.initialDelay cfg))
         (JsNum.pow (JsNum.toNumber (Retry.backoffMultiplier cfg)) (JsNum.ofNat n)))
      (JsNum.toNumber (Retry.maxDelay cfg)) in
  let d := Retry.calculateBackoffDelay random n cfg in
  JsNum.lt d 0 = false /\
  (Retry.jitter cfg <> Some true ->
     d = JsNum.max 0 unjittered /\
     (JsNum.ge unjittered 0 = true -> JsNum.eq d unjittered = true) /\
     (JsNum.lt unjittered 0 = true -> d = JsNum.ofZ 0) /\
     (unjittered = NaN -> d = NaN)) /\
  (Retry.jitter cfg = Some true -> IEEE E ->
     isDouble (JsNum.toNumber (Retry.maxDelay cfg)) ->
     forall q : Q, unjittered = Finite q -> (0 <= q)%Q ->
     let quarter := JsNum.mul unjittered (Finite (1 # 4)) in
     JsNum.le (JsNum.sub unjittered quarter) d = true /\
     JsNum.le d (JsNum.add unjittered quarter) = true).
Proof.
  destruct Hrandom as [Hr0 Hr1].
  intros unjittered d.
  split; [apply max_not_negative|]. split.
  - intros Hoff.
    assert (Hd : d = JsNum.max 0 unjittered).
    { unfold d, Retry.calculateBackoffDelay.
      destruct (Retry.jitter cfg) as [[|]|]; [congruence|reflexivity..]. }
    split; [exact Hd|]. rewrite Hd. clear Hd. clearbody unjittered.
    split; [|split].
    + intros Hge.
      destruct unjittered as [|[|]|q]; try discriminate; try reflexivity.
      unfold JsNum.ge in Hge. apply le_finite in Hge. unfold JsNum.max.
      change (JsNum.compare 0 (Finite q)) with (Some (inject_Z 0 ?= q)%Q).
      destruct (Qcompare_spec (inject_Z 0) q) as [H|H|H].
      * apply eq_finite. exact H.
      * apply eq_same.
      * lra.
    + intros Hlt.
      destruct unjittered as [|[|]|q]; try discriminate; try reflexivity.
      apply lt_finite in Hlt. unfold JsNum.max.
      change (JsNum.compare 0 (Finite q)) with (Some (inject_Z 0 ?= q)%Q).
      destruct (Qcompare_spec (inject_Z 0) q) as [H|H|H]; try reflexivity;
        unfold inject_Z in *; lra.
    + intros ->. reflexivity.
  - intros Hon Hieee Hmax q Hq Hpos quarter.
    assert (Hdouble : isDouble (Finite q)).
    { rewrite <- Hq. exact (cappedDelay_double Hieee n cfg Hmax). }
    unfold d, Retry.calculateBackoffDelay. rewrite Hon. cbn [truthy].
    change (Retry.cappedDelay n cfg) with unjittered.
    subst quarter. rewrite Hq.
    exact (jitter_band Hieee random q Hr0 Hr1 Hpos Hdouble).
Qed.

(** The amended C3 with exact arithmetic at attempt 1 of the default
    configuration (jitter on, unjittered delay 2000 ms) and
    [Math.random() = 1/4]: the result 1750 lies between 1500 and 2500; with
    jitter off the result is 2000. *)
Lemma calculateBackoffDelay_formula_witness :
  let plain :=
    Retry.mkRetryConfig (Some (JsNum.ofZ 3)) (Some (JsNum.ofZ 1000))
      (Some (JsNum.ofZ 30000)) (Some (JsNum.ofZ 2)) (Some false) in
  let d := Retry.calculateBackoffDelay (E := exactEngine) (1 # 4) 1 Retry.DEFAULT_RETRY_CONFIG in
  d = Finite 1750 /\
  JsNum.le (Finite 1500) d = true /\ JsNum.le d (Finite 2500) = true /\
  JsNum.eq (Retry.calculateBackoffDelay (E := exactEngine) (1 # 4) 1 plain) (Finite 2000)
    = true.
Proof.
  intros plain d.
  assert (Hr : (0 <= 1 # 4 /\ 1 # 4 < 1)%Q) by (split; reflexivity || discriminate).
  destruct (calculateBackoffDelay_formula exactEngine (1 # 4) 1 Retry.DEFAULT_RETRY_CONFIG Hr)
    as (_ & _ & Hband).
  destruct (calculateBackoffDelay_formula exactEngine (1 # 4) 1 plain Hr)
    as (_ & Hplain & _).
  destruct (Hband eq_refl exactEngine_IEEE (eq_same 30000) 2000%Q eq_refl
              ltac:(discriminate)) as [Hlo Hhi].
  destruct (Hplain ltac:(discriminate)) as (_ & Hsame & _).
  split; [reflexivity|]. split; [exact Hlo|]. split; [exact Hhi|].
  exact (Hsame eq_refl).
Defined.

(** C3 as stated fails: with jitter disabled and a negative [initialDelay]
    the code returns 0, not the (negative) minimum. *)
Lemma calculateBackoffDelay_counterexample :
  let cfg :=
    Retry.mkRetryConfig (Some (JsNum.ofZ 3)) (Some (JsNum.ofZ (-1)))
      (Some (JsNum.ofZ 10)) (Some (JsNum.ofZ 2)) (Some false) in
  ~ (forall (E : Engine) (random : Q) (n : nat) (cfg : Retry.RetryConfig),
        Retry.jitter cfg = Some false ->
        JsNum.eq (Retry.calculateBackoffDelay random n cfg)
          (JsNum.min
             (JsNum.mul (JsNum.toNumber (Retry.initialDelay cfg))
                (JsNum.pow (JsNum.toNumber (Retry.backoffMultiplier cfg)) (JsNum.ofNat n)))
             (JsNum.toNumber (Retry.maxDelay cfg))) = true) /\
  (forall E : Engine,
      Retry.calculateBackoffDelay 0 0 cfg = JsNum.ofZ 0 /\
      JsNum.min
        (JsNum.mul (JsNum.toNumber (Retry.initialDelay cfg))
           (JsNum.pow (JsNum.toNumber (Retry.backoffMultiplier cfg)) (JsNum.ofNat 0)))
        (JsNum.toNumber (Retry.maxDelay cfg)) = JsNum.ofZ (-1)).
Proof.
  intros cfg. split.
  - intros H. specialize (H exactEngine 0%Q 0%nat cfg eq_refl).
    vm_compute in H. discriminate H.
  - intros E. split; vm_compute; reflexivity.
Qed.

Section WithRetryFacts.
Import Retry.
Context {E : Engine} {T : Type}.
Variable operation : nat -> Invocation T.
Variable random : nat -> Q.

Lemma neverCancelled_None : neverCancelled None.
Proof. intros now. reflexivity. Qed.

Lemma sleep_neverCancelled token ms now :
  neverCancelled token -> sleep ms token now = (inl tt, (now + timer ms)%Q).
Proof.
  intros Hlive. unfold sleep. rewrite Hlive.
  unfold firesDuring.
  destruct token as [[[c|]]|]; try reflexivity.
  specialize (Hlive c). simpl in Hlive.
  assert (Qle_bool c c = true) by (apply Qle_bool_iff; apply Qle_refl).
  congruence.
Qed.

Lemma attemptOnce_neverCancelled token st :
  neverCancelled token ->
  attemptOnce operation token st =
    (outcome (operation (calls st)),
     {| now := (now st + duration (operation (calls st)))%Q;
        calls := S (calls st); sleeps := sleeps st |}).
Proof. intros Hlive. unfold attemptOnce. rewrite Hlive. reflexivity. Qed.

(** The two tests of the loop when [maxAttempts] is the integer [n]. *)
Lemma attempt_allowed (config : RetryConfig) (n : Z) (attempt : nat) :
  isInteger (JsNum.toNumber (maxAttempts config)) n ->
  JsNum.lt (JsNum.ofNat attempt) (JsNum.toNumber (maxAttempts config))
    = (Z.of_nat attempt <? n).
Proof. intros Hn. apply lt_integer. exact Hn. Qed.

Lemma attempt_last (config : RetryConfig) (n : Z) (attempt : nat) :
  isInteger (JsNum.toNumber (maxAttempts config)) n -> Z.abs (n - 1) <= 2 ^ 53 ->
  JsNum.eq (JsNum.ofNat attempt) (JsNum.sub (JsNum.toNumber (maxAttempts config)) 1)
    = (Z.of_nat attempt =? n - 1).
Proof.
  intros Hn Hbound. rewrite (sub_integer _ n Hn Hbound). apply eq_ofZ.
Qed.

(** [k] ordinary failures, then a success. *)
Lemma retryLoop_fails_then_succeeds (config : RetryConfig) token (v : T) (n : Z) :
  isInteger (JsNum.toNumber (maxAttempts config)) n -> n <= 2 ^ 53 ->
  neverCancelled token ->
  forall (k fuel attempt : nat) (lastError : option JsError) (st : RunState),
    (k < fuel)%nat ->
    Z.of_nat (attempt + k) < n ->
    (forall i, (i < k)%nat -> failsRetryably (operation (calls st + i))) ->
    outcome (operation (calls st + k)) = Resolved v ->
    exists st',
      retryLoop operation random fuel config token attempt lastError st
        = Some (Resolved v, st')
      /\ calls st' = S (calls st + k)
      /\ sleeps st' = sleeps st ++ backoffSchedule random config attempt k.
Proof.
  intros Hn Hbound Hlive.
  induction k as [|k IH]; intros fuel attempt lastError st Hfuel Hmax Hfail Hok.
  - destruct fuel as [|fuel]; [lia|]. cbn [retryLoop].
    rewrite (attempt_allowed config n attempt Hn).
    destruct (Z.ltb_spec (Z.of_nat attempt) n); [|lia].
    rewrite attemptOnce_neverCancelled by assumption.
    rewrite Nat.add_0_r in Hok. rewrite Hok.
    eexists. split; [reflexivity|]. cbn [calls sleeps]. split; [lia|].
    unfold backoffSchedule. simpl. rewrite app_nil_r. reflexivity.
  - destruct fuel as [|fuel]; [lia|]. cbn [retryLoop].
    rewrite (attempt_allowed config n attempt Hn).
    destruct (Z.ltb_spec (Z.of_nat attempt) n); [|lia].
    rewrite attemptOnce_neverCancelled by assumption.
    destruct (Hfail 0%nat ltac:(lia)) as (error & Hrej & Hretry).
    rewrite Nat.add_0_r in Hrej. rewrite Hrej, Hretry.
    rewrite (attempt_last config n attempt Hn) by lia.
    destruct (Z.eqb_spec (Z.of_nat attempt) (n - 1)); [lia|].
    rewrite sleep_neverCancelled by assumption.
    edestruct (IH fuel (S attempt) (Some (toError error))) as (st' & Hrun & Hcalls & Hsleeps);
      [..|exists st'; split; [exact Hrun|split]].
    + lia.
    + lia.
    + cbn [calls Nat.add]. intros i Hi.
      replace (S (calls st + i))%nat with (calls st + S i)%nat by lia.
      apply Hfail. lia.
    + cbn [calls Nat.add].
      replace (S (calls st + k))%nat with (calls st + S k)%nat by lia. exact Hok.
    + rewrite Hcalls. cbn [calls]. lia.
    + rewrite Hsleeps. cbn [sleeps]. unfold backoffSchedule. cbn [seq map].
      rewrite <- app_assoc. reflexivity.
Qed.

(** Only ordinary failures: every allowed attempt is made, then the loop
    breaks with the last error. *)
Lemma retryLoop_always_fails (config : RetryConfig) token (n : Z) :
  isInteger (JsNum.toNumber (maxAttempts config)) n -> n <= 2 ^ 53 ->
  neverCancelled token ->
  (forall i, failsRetryably (operation i)) ->
  forall (left fuel attempt : nat) (lastError : option JsError) (st : RunState),
    (S left <= fuel)%nat ->
    Z.of_nat attempt + Z.of_nat (S left) = n ->
    exists st' last,
      retryLoop operation random fuel config token attempt lastError st
        = Some (exhausted config (Some (toError last)), st')
      /\ calls st' = (calls st + S left)%nat
      /\ outcome (operation (calls st + left)) = Rejected last
      /\ sleeps st' = sleeps st ++ backoffSchedule random config attempt left.
Proof.
  intros Hn Hbound Hlive Hfail.
  induction left as [|left IH]; intros fuel attempt lastError st Hfuel Hmax.
  - destruct fuel as [|fuel]; [lia|]. cbn [retryLoop].
    rewrite (attempt_allowed config n attempt Hn).
    destruct (Z.ltb_spec (Z.of_nat attempt) n); [|lia].
    rewrite attemptOnce_neverCancelled by assumption.
    destruct (Hfail (calls st)) as (error & Hrej & Hretry).
    rewrite Hrej, Hretry.
    rewrite (attempt_last config n attempt Hn) by lia.
    destruct (Z.eqb_spec (Z.of_nat attempt) (n - 1)); [|lia].
    exists {| now := (now st + duration (operation (calls st)))%Q;
              calls := S (calls st); sleeps := sleeps st |}, error.
    split; [reflexivity|]. cbn [calls sleeps]. split; [lia|]. split.
    + rewrite Nat.add_0_r. exact Hrej.
    + unfold backoffSchedule. simpl. rewrite app_nil_r. reflexivity.
  - destruct fuel as [|fuel]; [lia|]. cbn [retryLoop].
    rewrite (attempt_allowed config n attempt Hn).
    destruct (Z.ltb_spec (Z.of_nat attempt) n); [|lia].
    rewrite attemptOnce_neverCancelled by assumption.
    destruct (Hfail (calls st)) as (error & Hrej & Hretry).
    rewrite Hrej, Hretry.
    rewrite (attempt_last config n attempt Hn) by lia.
    destruct (Z.eqb_spec (Z.of_nat attempt) (n - 1)); [lia|].
    rewrite sleep_neverCancelled by assumption.
    edestruct (IH fuel (S attempt) (Some (toError error)))
      as (st' & last & Hrun & Hcalls & Hlast & Hsleeps);
      [..|exists st', last; split; [exact Hrun|split; [|split]]].
    + lia.
    + lia.
    + rewrite Hcalls. cbn [calls]. lia.
    + cbn [calls Nat.add] in Hlast.
      replace (calls st + S left)%nat with (S (calls st + left)) by lia.
      exact Hlast.
    + rewrite Hsleeps. cbn [sleeps]. unfold backoffSchedule. cbn [seq map].
      rewrite <- app_assoc. reflexivity.
Qed.

(** Once the token is cancelled when an attempt begins, the call settles
    at that test of the loop and the operation is not invoked again. *)
Lemma retryLoop_cancelled_no_call (config : RetryConfig) token fuel attempt lastError st :
  isCancelledAt token (now st) = true ->
  exists r st',
    retryLoop operation random (S fuel) config token attempt lastError st = Some (r, st')
    /\ calls st' = calls st.
Proof.
  intros Hc. cbn [retryLoop].
  destruct (JsNum.lt _ _); [|eexists _, _; split; reflexivity].
  unfold attemptOnce. rewrite Hc. cbn [isNonRetryable].
  destruct (JsNum.eq _ _); [eexists _, _; split; reflexivity|].
  unfold sleep. rewrite Hc. eexists _, _; split; reflexivity.
Qed.

(** ... and the rejection is the wrapper of the exhausted retries or the
    plain [Error] of [sleep]: never the [CancellationError] itself. *)
Lemma retryLoop_cancelled_rejection (config : RetryConfig) token fuel attempt lastError st :
  isCancelledAt token (now st) = true ->
  exists r st',
    retryLoop operation random (S fuel) config token attempt lastError st = Some (r, st')
    /\ ((exists cause, r = exhausted config cause) \/
        r = Rejected (ThrownError (Error "Operation was cancelled"))).
Proof.
  intros Hc. cbn [retryLoop].
  destruct (JsNum.lt _ _); [|eexists _, _; split; [reflexivity|left; eauto]].
  unfold attemptOnce. rewrite Hc. cbn [isNonRetryable].
  destruct (JsNum.eq _ _); [eexists _, _; split; [reflexivity|left; eauto]|].
  unfold sleep. rewrite Hc. eexists _, _; split; [reflexivity|right; reflexivity].
Qed.

(** A call that has settled within [fuel] tests of the loop condition is
    the same call under any larger bound. *)
Lemma retryLoop_fuel_enough (config : RetryConfig) token :
  forall (fuel more attempt : nat) (lastError : option JsError) (st : RunState) r,
    retryLoop operation random fuel config token attempt lastError st = Some r ->
    retryLoop operation random (fuel + more) config token attempt lastError st = Some r.
Proof.
  induction fuel as [|fuel IH]; intros more attempt lastError st r; [discriminate|].
  cbn [retryLoop Nat.add].
  destruct (JsNum.lt _ _); [|trivial].
  destruct (attemptOnce operation token st) as [[v|error] st1]; [trivial|].
  destruct (isNonRetryable error); [trivial|].
  destruct (JsNum.eq _ _); [trivial|].
  destruct (sleep _ token (now st1)) as [[[]|e] wake]; [|trivial].
  apply IH.
Qed.

(** What [maxAttempts] holds after the spread. *)
Lemma allowed_integer (config : PartialRetryConfig) (n : Z) :
  allowsAttempts config n ->
  exists m, maxAttempts (spread DEFAULT_RETRY_CONFIG config) = Some m /\ isInteger m n.
Proof.
  unfold allowsAttempts, spread. cbn [maxAttempts].
  destruct (maxAttempts' config) as [|[m|]]; cbn [spreadKey DEFAULT_RETRY_CONFIG maxAttempts].
  - intros ->. exists (JsNum.ofZ 3). split; [reflexivity|]. apply eq_same.
  - intros Hm. exists m. split; [reflexivity|exact Hm].
  - intros [].
Qed.

End WithRetryFacts.

(** C2.  For a caller that asks for [n] attempts, [n] an integer from 1 to
    2^53 given as [maxAttempts] or the default 3, and no cancellation: an
    operation that fails [k < n] times (with ordinary errors) and then
    succeeds is invoked exactly [k + 1] times and [withRetry] resolves with
    its value; an operation that always fails is invoked exactly [n] times
    and [withRetry] rejects with a RetryableError whose message is
    'Operation failed after n attempts', with [n] in decimal digits, and
    whose cause is the error of the last invocation (a thrown value that is
    no Error wrapped as [new Error(String(value))]); an operation that
    throws a NonRetryableError on the first attempt is invoked once and
    that error is rethrown as is.  Each call settles within [n] tests of
    the loop condition. *)
Theorem withRetry_attempts
    (E : Engine) (T : Type) (operation : nat -> Retry.Invocation T) (random : nat -> Q)
    (config : Retry.PartialRetryConfig) (token : option Retry.CancellationToken)
    (n : Z) (fuel : nat)
    (Hconfig : allowsAttempts config n)
    (Hmax : 1 <= n <= 2 ^ 53)
    (Hfuel : n <= Z.of_nat fuel)
    (Hlive : neverCancelled token) :
  let result := Retry.withRetry operation random fuel config token Retry.start in
  (forall (k : nat) (v : T),
      Z.of_nat k < n ->
      (forall i, (i < k)%nat -> failsRetryably (operation i)) ->
      Retry.outcome (operation k) = Retry.Resolved v ->
      exists st, result = Some (Retry.Resolved v, st) /\ Retry.calls st = S k) /\
  ((forall i, failsRetryably (operation i)) ->
      exists st last,
        result =
          Some (Retry.Rejected (ThrownError
                  (RetryableError
                     ("Operation failed after " ++ NilZero.string_of_int (Z.to_int n)
                        ++ " attempts")
                     (Some (match last with
                            | ThrownError error => error
                            | ThrownValue text => Error text
                            end)))), st) /\
        Z.of_nat (Retry.calls st) = n /\
        Retry.outcome (operation (Z.to_nat (n - 1))) = Retry.Rejected last) /\
  (forall (message : string) (cause : option JsError),
      Retry.outcome (operation 0%nat)
        = Retry.Rejected (ThrownError (NonRetryableError message cause)) ->
      exists st,
        result = Some (Retry.Rejected (ThrownError (NonRetryableError message cause)), st) /\
        Retry.calls st = 1%nat).
Proof.
  intros result. subst result. unfold Retry.withRetry.
  destruct (allowed_integer config n Hconfig) as (m & Hm & Hint).
  set (cfg := Retry.spread Retry.DEFAULT_RETRY_CONFIG config) in *.
  assert (Hn : isInteger (JsNum.toNumber (Retry.maxAttempts cfg)) n)
    by (rewrite Hm; exact Hint).
  split; [|split].
  - intros k v Hk Hfail Hok.
    destruct (retryLoop_fails_then_succeeds operation random cfg token v n Hn
                (proj2 Hmax) Hlive k fuel 0%nat None Retry.start)
      as (st' & Hrun & Hc & _).
    + lia.
    + simpl. lia.
    + exact Hfail.
    + exact Hok.
    + exists st'. split; [exact Hrun|]. rewrite Hc. reflexivity.
  - intros Hfail.
    destruct (retryLoop_always_fails operation random cfg token n Hn
                (proj2 Hmax) Hlive Hfail (Z.to_nat (n - 1)) fuel 0%nat None Retry.start)
      as (st' & last & Hrun & Hc & Hlast & _).
    + lia.
    + lia.
    + exists st', last. split; [|split].
      * rewrite Hrun. unfold Retry.exhausted. rewrite Hm. cbn [JsNum.template].
        rewrite (toString_integer m n Hint) by lia. reflexivity.
      * rewrite Hc. simpl. lia.
      * exact Hlast.
  - intros message cause Hfirst.
    destruct fuel as [|fuel]; [lia|].
    cbn [Retry.retryLoop].
    rewrite (attempt_allowed cfg n 0 Hn).
    destruct (Z.ltb_spec (Z.of_nat 0) n); [|lia].
    rewrite attemptOnce_neverCancelled by assumption.
    cbn [Retry.start Retry.calls]. rewrite Hfirst. cbn [isNonRetryable].
    eexists. split; reflexivity.
Qed.

(** C2 with [maxAttempts = 5]: the operation that fails twice and then
    succeeds is invoked three times; the one that always fails is invoked
    five times and the rejection reads 'Operation failed after 5 attempts',
    with the last 'persistent failure' as its cause; the one that throws a
    NonRetryableError is invoked once. *)
Lemma withRetry_attempts_witness :
  (exists st,
      Retry.withRetry (E := exactEngine) failTwiceThenSucceed (fun _ => 1 # 2) 5
        fiveAttempts None Retry.start = Some (Retry.Resolved "success"%string, st) /\
      Retry.calls st = 3%nat) /\
  (exists st,
      Retry.withRetry (E := exactEngine) alwaysFail (fun _ => 1 # 2) 5
        fiveAttempts None Retry.start
      = Some (Retry.Rejected (ThrownError
                (RetryableError "Operation failed after 5 attempts"
                   (Some (Error "persistent failure")))), st) /\
      Retry.calls st = 5%nat) /\
  (exists st,
      Retry.withRetry (E := exactEngine) doNotRetry (fun _ => 1 # 2) 5
        fiveAttempts None Retry.start
      = Some (Retry.Rejected (ThrownError (NonRetryableError "do not retry" None)), st) /\
      Retry.calls st = 1%nat).
Proof.
  assert (Hconfig : allowsAttempts fiveAttempts 5) by reflexivity.
  assert (Hmax : 1 <= 5 <= 2 ^ 53) by (split; vm_compute; discriminate).
  assert (Hfuel : 5 <= Z.of_nat 5) by (vm_compute; discriminate).
  assert (Hlive : neverCancelled None) by (intros now; reflexivity).
  split; [|split].
  - apply (proj1 (withRetry_attempts exactEngine string failTwiceThenSucceed (fun _ => 1 # 2)
                    fiveAttempts None 5 5 Hconfig Hmax Hfuel Hlive) 2%nat "success"%string).
    + reflexivity.
    + intros i Hi. exists (ThrownError (Error "fail")).
      destruct i as [|[|i]]; [split; reflexivity..|lia].
    + reflexivity.
  - destruct (proj1 (proj2 (withRetry_attempts exactEngine string alwaysFail (fun _ => 1 # 2)
                              fiveAttempts None 5 5 Hconfig Hmax Hfuel Hlive)))
      as (st & last & Hrun & Hcalls & Hlast).
    + intros i. exists (ThrownError (Error "persistent failure")). split; reflexivity.
    + injection Hlast as <-. exists st. split; [exact Hrun|].
      apply Nat2Z.inj. exact Hcalls.
  - apply (proj2 (proj2 (withRetry_attempts exactEngine string doNotRetry (fun _ => 1 # 2)
                           fiveAttempts None 5 5 Hconfig Hmax Hfuel Hlive))
             "do not retry"%string None).
    reflexivity.
Defined.

(** C4 fails on the code.  [throwIfCancelled()] sits inside the [try], so
    its CancellationError is caught like a failure of the operation.  With a
    token cancelled before the call: when one attempt is allowed, the loop
    breaks and [withRetry] rejects with the RetryableError of exhausted
    retries that wraps the CancellationError; when three are allowed, the
    [sleep] that follows rejects and [withRetry] rejects with its plain
    [Error].  The operation is never invoked in either run, and both settle
    at the first test of the loop condition, whatever the engine. *)
Theorem withRetry_cancellation_is_caught (E : Engine) (fuel : nat) :
  let oneAttempt :=
    Retry.mkPartial (Present (Some (JsNum.ofZ 1))) Absent Absent
      Absent Absent in
  let wrapped :=
    Retry.withRetry neverCalled (fun _ => 1 # 2) (S fuel) oneAttempt cancelledAtStart
      Retry.start in
  let replaced :=
    Retry.withRetry neverCalled (fun _ => 1 # 2) (S fuel) threeAttempts cancelledAtStart
      Retry.start in
  (option_map fst wrapped =
     Some (Retry.Rejected (ThrownError
       (RetryableError "Operation failed after 1 attempts"
          (Some (CancellationError "Operation was cancelled"))))) /\
   option_map (fun r => Retry.calls (snd r)) wrapped = Some 0%nat) /\
  (option_map fst replaced
     = Some (Retry.Rejected (ThrownError (Error "Operation was cancelled"))) /\
   isCancellationError (Error "Operation was cancelled") = false /\
   option_map (fun r => Retry.calls (snd r)) replaced = Some 0%nat).
Proof. intros. vm_compute. repeat split; reflexivity. Qed.

(** ** ValueSmoother *)

Section SmootherFacts.
Context {T : Type} {V : JsValue T} {E : Engine}.
Import Smoother.

(** When [shouldEmit] answers true. *)
Lemma shouldEmit_true_iff (now : Z) (value : T) (forceEmit : bool) (s : t T) :
  fst (shouldEmit now value forceEmit s) = true <->
  forceEmit = true \/ lastValueUndefined s = true \/
  JsNum.ge (JsNum.ofZ (now - lastUpdate s)) (minInterval s) = true.
Proof.
  unfold shouldEmit.
  destruct forceEmit; simpl; [tauto|].
  destruct (lastValueUndefined s); simpl; [tauto|].
  destruct (JsNum.ge (JsNum.ofZ (now - lastUpdate s)) (minInterval s)) eqn:Eg.
  - simpl. tauto.
  - destruct (pendingTimeout s); simpl; split; try discriminate.
    all: intros [?|[?|?]]; discriminate.
Qed.

Lemma shouldEmit_true_state (now : Z) (value : T) (forceEmit : bool) (s : t T) :
  fst (shouldEmit now value forceEmit s) = true ->
  snd (shouldEmit now value forceEmit s) = emit now value s.
Proof.
  unfold shouldEmit.
  destruct (forceEmit || lastValueUndefined s); [reflexivity|].
  destruct (JsNum.ge _ _); [reflexivity|].
  destruct (pendingTimeout s); discriminate.
Qed.

(** A throttled call while a timer is pending changes nothing at all: the
    closure of the pending timer keeps the value it captured. *)
Lemma shouldEmit_pending_unchanged (now : Z) (value : T) (forceEmit : bool)
    (s : t T) (p : PendingTimeout T) :
  pendingTimeout s = Some p ->
  fst (shouldEmit now value forceEmit s) = false ->
  snd (shouldEmit now value forceEmit s) = s.
Proof.
  unfold shouldEmit. intros Hp.
  destruct (forceEmit || lastValueUndefined s); [discriminate|].
  destruct (JsNum.ge _ _); [discriminate|].
  rewrite Hp. reflexivity.
Qed.

End SmootherFacts.

(** C8 fails on the code.  The closure passed to [setTimeout] captures the
    [value] of the call that scheduled it; a later throttled call neither
    schedules a second timer nor replaces that value.  At 5 Hz (one emission
    per 200 ms): "first" at 1000 ms is emitted, "second" at 1050 ms schedules
    the timer, "third" at 1100 ms returns false and leaves the timer as it
    is, and when the timer fires at 1200 ms the stored value is "second",
    not the most recent "third". *)
Theorem value_smoother_keeps_first_pending_value (E : Engine) :
  let s0 := Smoother.create (T := string) (Some (JsNum.ofZ 5)) in
  let r1 := Smoother.shouldEmit 1000 "first"%string false s0 in
  let r2 := Smoother.shouldEmit 1050 "second"%string false (snd r1) in
  let r3 := Smoother.shouldEmit 1100 "third"%string false (snd r2) in
  let fired := Smoother.fire 1200 (snd r3) in
  fst r1 = true /\ fst r2 = false /\ fst r3 = false /\
  option_map Smoother.captured (Smoother.pendingTimeout (snd r2)) = Some "second"%string /\
  snd r3 = snd r2 /\
  Smoother.getLastValue fired = Some "second"%string /\
  Smoother.getLastValue fired <> Some "third"%string /\
  Smoother.pendingTimeout fired = None.
Proof. intros. vm_compute. repeat split; try reflexivity. discriminate. Qed.

(** ** WSClient.send *)

Section WSFacts.
Context {Data : Type}.
Variable stringify : WS.WSEnvelope Data -> Thrown + string.
Variable estimateSize : WS.WSEnvelope Data -> Z.
Import WS.

Lemma send_seq type payload correlationId nowIso (c : WSClient Data) :
  let c' := snd (send stringify estimateSize type payload correlationId nowIso c) in
  lastSeq c' = lastSeq c + 1 /\
  constructed c' = constructed c ++ [envelopeOf type payload correlationId nowIso c].
Proof.
  unfold send, envelopeOf.
  destruct (isConnected (state c)), (ws c) as [socket|]; simpl.
  - destruct (stringify _) as [error|message]; simpl; [split; reflexivity|].
    destruct (JsNum.gt _ _); simpl; [split; reflexivity|].
    destruct (socketSend socket message); simpl; split; reflexivity.
  - destruct (MessageBuffer.enqueue _ _ _); simpl; split; reflexivity.
  - destruct (MessageBuffer.enqueue _ _ _); simpl; split; reflexivity.
  - destruct (MessageBuffer.enqueue _ _ _); simpl; split; reflexivity.
Qed.

Lemma flushLoop_seq fuel (c : WSClient Data) :
  lastSeq (flushLoop stringify estimateSize fuel c) = lastSeq c /\
  constructed (flushLoop stringify estimateSize fuel c) = constructed c.
Proof.
  revert c. induction fuel as [|fuel IH]; intros c; simpl; [split; reflexivity|].
  destruct (MessageBuffer.isEmpty _); [split; reflexivity|].
  destruct (MessageBuffer.dequeue _ _) as [message buffer].
  destruct message as [m|], (ws c) as [socket|];
    try (destruct (IH (mkClient (maxMessageSize c) None (state c) buffer (lastSeq c)
                         (onErrorCalls c) (constructed c))) as [-> ->];
         split; reflexivity).
  - destruct (readyState socket);
      try (destruct (IH (mkClient (maxMessageSize c) (Some socket) (state c) buffer
                           (lastSeq c) (onErrorCalls c) (constructed c))) as [-> ->];
           split; reflexivity).
    destruct (stringify m) as [error|text]; [split; reflexivity|].
    destruct (socketSend socket text) as [e|socket']; [split; reflexivity|].
    destruct (IH (mkClient (maxMessageSize c) (Some socket') (state c) buffer
                    (lastSeq c) (onErrorCalls c) (constructed c))) as [-> ->].
    split; reflexivity.
  - destruct (IH (mkClient (maxMessageSize c) (Some socket) (state c) buffer
                    (lastSeq c) (onErrorCalls c) (constructed c))) as [-> ->].
    split; reflexivity.
Qed.

Lemma StronglySorted_snoc (l : list Z) (x : Z) :
  StronglySorted Z.lt l -> Forall (fun y => y < x) l -> StronglySorted Z.lt (l ++ [x]).
Proof.
  induction 1 as [|y l Hs IH Hy]; intros Hall; simpl.
  - repeat constructor.
  - apply Forall_cons_iff in Hall as [Hyx Hall].
    constructor; [apply IH; exact Hall|].
    apply Forall_app. split; [exact Hy|]. repeat constructor. exact Hyx.
Qed.

Lemma seqInvariant_step (c : WSClient Data) (e : Event Data) :
  seqInvariant c -> seqInvariant (step stringify estimateSize c e).
Proof.
  intros [Hsorted Hbound]. destruct e as [type payload correlationId nowIso|st socket|]; simpl.
  - destruct (send_seq type payload correlationId nowIso c) as [Hl Hc].
    unfold seqInvariant. rewrite Hl, Hc. split.
    + rewrite map_app. simpl. apply StronglySorted_snoc; [exact Hsorted|].
      apply Forall_map. eapply Forall_impl; [exact Hbound|].
      simpl. intros; lia.
    + apply Forall_app. split.
      * eapply Forall_impl; [exact Hbound|]. simpl. intros; lia.
      * repeat constructor. simpl. lia.
  - split; assumption.
  - unfold flushBufferedMessages, seqInvariant.
    destruct (flushLoop_seq (length (MessageBuffer.items (messageBuffer c))) c) as [-> ->].
    split; assumption.
Qed.

Lemma seqInvariant_run (es : list (Event Data)) (c : WSClient Data) :
  seqInvariant c -> seqInvariant (run stringify estimateSize c es).
Proof.
  revert c. induction es as [|e es IH]; intros c Hc; [exact Hc|].
  unfold run in *. simpl. apply IH. apply seqInvariant_step. exact Hc.
Qed.

End WSFacts.

(** C7.  Over the whole life of a client (sends interleaved with state
    changes and flushes) the sequence numbers of the envelopes [send]
    constructs are strictly increasing, each one more than [lastSeq] before
    the call; and a [send] while the state is not 'connected' transmits
    nothing, enqueues that envelope into the message buffer and returns the
    boolean that [enqueue] returned. *)
Theorem send_sequences_and_buffers
    (Data : Type) (stringify : WS.WSEnvelope Data -> Thrown + string)
    (estimateSize : WS.WSEnvelope Data -> Z) :
  (forall (maxMessageSize maxBufferSize : option JsNumber) (es : list (WS.Event Data)),
      StronglySorted Z.lt
        (map WS.seq (WS.constructed
           (WS.run stringify estimateSize (WS.create maxMessageSize maxBufferSize) es)))) /\
  (forall (c : WS.WSClient Data) type payload correlationId nowIso,
      let envelope := envelopeOf type payload correlationId nowIso c in
      let result := WS.send stringify estimateSize type payload correlationId nowIso c in
      WS.seq envelope = WS.lastSeq c + 1 /\
      WS.lastSeq (snd result) = WS.lastSeq c + 1 /\
      WS.constructed (snd result) = WS.constructed c ++ [envelope] /\
      (WS.state c <> WS.connected ->
         WS.ws (snd result) = WS.ws c /\
         (fst result, WS.messageBuffer (snd result))
           = MessageBuffer.enqueue estimateSize (WS.messageBuffer c) envelope)).
Proof.
  split.
  - intros maxMessageSize maxBufferSize es.
    apply (seqInvariant_run stringify estimateSize es).
    split; simpl; constructor.
  - intros c type payload correlationId nowIso envelope result.
    destruct (send_seq stringify estimateSize type payload correlationId nowIso c) as [Hl Hc].
    repeat split; try assumption.
    + unfold result, WS.send.
      destruct (WS.state c); try contradiction; simpl;
        destruct (MessageBuffer.enqueue _ _ _); reflexivity.
    + unfold result, WS.send. fold envelope.
      destruct (WS.state c); try contradiction; simpl;
        destruct (MessageBuffer.enqueue _ _ _); reflexivity.
Qed.

(** C7 at a fresh client, which is 'disconnected': its first send is
    buffered with sequence number 1 and answers true. *)
Lemma send_sequences_and_buffers_witness :
  let c := WS.create (Data := string) None None in
  let result :=
    WS.send (fun _ => inr "{}"%string) (fun _ => 10) "session.hello" "hi"%string None
            "2025-01-01T00:00:00.000Z" c in
  WS.ws (snd result) = None /\
  fst result = true /\
  map WS.seq (MessageBuffer.items (WS.messageBuffer (snd result))) = [1].
Proof.
  intros c result.
  destruct (send_sequences_and_buffers string (fun _ => inr "{}"%string) (fun _ => 10))
    as [_ Hsend].
  destruct (Hsend c "session.hello"%string "hi"%string None
              "2025-01-01T00:00:00.000Z"%string) as (_ & _ & _ & Hbuf).
  destruct Hbuf as [Hws Henq]; [discriminate|].
  fold result in Hws, Henq.
  split; [exact Hws|]. split.
  - change (fst result) with (fst (fst result, WS.messageBuffer (snd result))).
    rewrite Henq. reflexivity.
  - change (WS.messageBuffer (snd result))
      with (snd (fst result, WS.messageBuffer (snd result))).
    rewrite Henq. reflexivity.
Defined.

(** ** WorkerChannel *)

Section WorkerFacts.
Context {Result : Type}.
Variable postMessageThrows : Worker.WorkerMessage -> option Thrown.
Import Worker.

Lemma rejectAll_keeps (reason : JsError) (c : WorkerChannel Result) :
  posted (rejectAll reason c) = posted c /\
  isShutdown (rejectAll reason c) = isShutdown c /\
  terminated (rejectAll reason c) = terminated c.
Proof.
  unfold rejectAll.
  generalize (map_to_list (pendingRequests c)). intros entries. revert c.
  induction entries as [|entry entries IH]; intros c; simpl; [repeat split|].
  destruct (IH (settle (entry.1) (Rejected (ThrownError reason))
                  (clearTimeout (timeout (entry.2)) c))) as (-> & -> & ->).
  unfold settle. destruct (settled _ !! _); repeat split.
Qed.

(** [shutdown] never reaches [postMessage]: by the time it calls
    [sendMessage] the flag it has just set makes that call throw. *)
Lemma shutdown_posts_nothing (c : WorkerChannel Result) :
  posted (shutdown postMessageThrows c) = posted c.
Proof.
  unfold shutdown. destruct (isShutdown c) eqn:E; [reflexivity|].
  unfold sendMessage. simpl.
  destruct (rejectAll_keeps (Error "Worker is shutting down")
              (mkChannel (nextId c) (pendingRequests c) true (posted c) (terminated c)
                         (settled c) (timers c) (cancelHooks c) (shutdownAwaits c)))
    as (Hp & Hs & _).
  rewrite Hs. simpl. exact Hp.
Qed.

Lemma shutdown_flags (c : WorkerChannel Result) :
  isShutdown c = false ->
  let c' := shutdown postMessageThrows c in
  isShutdown c' = true /\ terminated c' = true /\ pendingRequests c' = ∅.
Proof.
  intros E. unfold shutdown. rewrite E.
  unfold sendMessage. simpl.
  destruct (rejectAll_keeps (Error "Worker is shutting down")
              (mkChannel (nextId c) (pendingRequests c) true (posted c) (terminated c)
                         (settled c) (timers c) (cancelHooks c) (shutdownAwaits c)))
    as (_ & Hs & _).
  rewrite Hs. simpl. rewrite Hs. repeat split.
Qed.

(** Calls against a channel that is shut down throw at once and post nothing. *)
Lemma calls_after_shutdown (c : WorkerChannel Result) :
  isShutdown c = true ->
  initialize postMessageThrows c = (Threw (Error "Worker is shutdown"), c) /\
  (forall samples hz token,
      computeProgress postMessageThrows samples hz token c
        = (Threw (Error "Worker is shutdown"), c)) /\
  (forall samples token,
      computeETA postMessageThrows samples token c
        = (Threw (Error "Worker is shutdown"), c)).
Proof.
  intros E. unfold initialize, computeProgress, computeETA, sendMessage.
  rewrite E. repeat split.
Qed.

End WorkerFacts.

(** C9 fails on the code.  [shutdown] sets [isShutdown] before it calls
    [sendMessage('SHUTDOWN', {})], whose first statement throws 'Worker is
    shutdown'; the [catch] swallows it, so SHUTDOWN is never posted.  On a
    channel with one outstanding COMPUTE_PROGRESS request: the request is
    rejected with 'Worker is shutting down', the pending set is emptied and
    the worker is terminated, but the only message ever posted is the
    COMPUTE_PROGRESS one.  A later call throws 'Worker is shutdown' and
    posts nothing. *)
Theorem shutdown_never_sends_SHUTDOWN :
  let sample := [Worker.mkSample 1000 (Finite (1 # 2))] in
  let post := fun _ : Worker.WorkerMessage => @None Thrown in
  let busy := snd (Worker.computeProgress (Result := string) post sample 5 None Worker.create) in
  let down := Worker.shutdown post busy in
  Worker.posted busy = [Worker.mkMessage Worker.COMPUTE_PROGRESS 1
                          (Worker.ProgressRequest sample 5)] /\
  Worker.posted down = Worker.posted busy /\
  Forall (fun m => Worker.type m <> Worker.SHUTDOWN) (Worker.posted down) /\
  Worker.settled down !! 1%nat
    = Some (Worker.Rejected (ThrownError (Error "Worker is shutting down"))) /\
  map_to_list (Worker.pendingRequests down) = [] /\
  Worker.terminated down = true /\
  fst (Worker.computeETA post sample None down) = Worker.Threw (Error "Worker is shutdown") /\
  Worker.posted (snd (Worker.computeETA post sample None down)) = Worker.posted down.
Proof.
  vm_compute. repeat split; try reflexivity.
  repeat constructor. discriminate.
Qed.

(** ** ConcurrencyLimiter *)

Section LimiterFacts.
Context {V : Type}.
Import Limiter.

Ltac fields :=
  unfold gone, queuedIds, setRunning, setQueue, setTokens, setPromises, setNextOp,
    invoke, landed, tokenState, tokenCancelled in *; simpl in *.

Lemma settle_fields op s (w : World V) :
  config (settle op s w) = config w /\ running (settle op s w) = running w /\
  queue (settle op s w) = queue w /\ tokens (settle op s w) = tokens w /\
  invoked (settle op s w) = invoked w /\ inflight (settle op s w) = inflight w /\
  nextOp (settle op s w) = nextOp w.
Proof. unfold settle. destruct (promises w !! op); repeat split. Qed.

Lemma settle_lookup op s (w : World V) i :
  promises (settle op s w) !! i =
    if decide (i = op)
    then match promises w !! op with Some x => Some x | None => Some s end
    else promises w !! i.
Proof.
  unfold settle. destruct (promises w !! op) eqn:E; simpl.
  - destruct (decide (i = op)) as [->|]; [exact E|reflexivity].
  - destruct (decide (i = op)) as [->|].
    + apply lookup_insert_eq.
    + apply lookup_insert_ne. congruence.
Qed.

Lemma isQueued_In op (q : list QueuedOperation) :
  isQueued op q = true <-> In op (map opId q).
Proof.
  unfold isQueued. rewrite existsb_exists, in_map_iff.
  split; intros (r & H1 & H2); exists r.
  - apply Nat.eqb_eq in H2. auto.
  - split; [exact H2|]. apply Nat.eqb_eq. exact H1.
Qed.

Lemma removeQueued_sub op (q : list QueuedOperation) r :
  In r (removeQueued op q) -> In r q.
Proof.
  induction q as [|x q IH]; simpl; [tauto|].
  destruct (Nat.eqb (opId x) op); simpl; tauto.
Qed.

Lemma removeQueued_ids_sub op (q : list QueuedOperation) i :
  In i (map opId (removeQueued op q)) -> In i (map opId q).
Proof.
  rewrite !in_map_iff. intros (r & H1 & H2). exists r. split; [exact H1|].
  eapply removeQueued_sub. exact H2.
Qed.

Lemma removeQueued_gone op (q : list QueuedOperation) :
  List.NoDup (map opId q) -> ~ In op (map opId (removeQueued op q)).
Proof.
  induction q as [|x q IH]; simpl; [tauto|].
  intros Hnd. apply List.NoDup_cons_iff in Hnd as [Hx Hnd].
  destruct (Nat.eqb_spec (opId x) op) as [<-|Hne]; [exact Hx|].
  simpl. intros [H|H]; [contradiction|]. apply IH; assumption.
Qed.

Lemma removeQueued_other op (q : list QueuedOperation) i :
  i <> op -> In i (map opId q) -> In i (map opId (removeQueued op q)).
Proof.
  intros Hne. induction q as [|x q IH]; simpl; [tauto|].
  destruct (Nat.eqb_spec (opId x) op) as [E|E]; simpl.
  - intros [H|H]; [congruence|exact H].
  - intros [H|H]; [left; exact H|right; apply IH; exact H].
Qed.

Lemma removeQueued_NoDup op (q : list QueuedOperation) :
  List.NoDup (map opId q) -> List.NoDup (map opId (removeQueued op q)).
Proof.
  induction q as [|x q IH]; simpl; [tauto|].
  intros Hnd. apply List.NoDup_cons_iff in Hnd as [Hx Hnd].
  destruct (Nat.eqb (opId x) op); [exact Hnd|].
  simpl. apply List.NoDup_cons_iff. split; [|apply IH; exact Hnd].
  intros H. apply Hx. eapply removeQueued_ids_sub. exact H.
Qed.

(** *** Operations that are gone stay gone *)

Lemma gone_settle op i s (w : World V) : gone op w -> gone op (settle i s w).
Proof.
  unfold gone, queuedIds.
  destruct (settle_fields i s w) as (_ & _ & -> & _ & -> & _ & ->). tauto.
Qed.

Lemma gone_runCallback op cb (w : World V) : gone op w -> gone op (runCallback cb w).
Proof.
  destruct cb as [i]. unfold runCallback.
  destruct (isQueued i (queue w)); [|tauto].
  intros (H1 & H2 & H3). apply gone_settle. fields.
  repeat split; try assumption.
  intros H. apply H2. eapply removeQueued_ids_sub. exact H.
Qed.

Lemma gone_callbacks op cbs (w : World V) :
  gone op w -> gone op (fold_left (fun acc cb => runCallback cb acc) cbs w).
Proof.
  revert w. induction cbs as [|cb cbs IH]; intros w H; simpl; [exact H|].
  apply IH. apply gone_runCallback. exact H.
Qed.

Lemma gone_cancel op t (w : World V) : gone op w -> gone op (cancel t w).
Proof.
  unfold cancel. destruct (isCancelled (tokenState w t)); [tauto|].
  intros H.
  assert (H1 : gone op (setTokens
                 (<[t := {| isCancelled := true; callbacks := callbacks (tokenState w t) |}]>
                    (tokens w)) w)) by exact H.
  apply (gone_callbacks op (callbacks (tokenState w t))) in H1.
  exact H1.
Qed.

Lemma gone_executeImmediateWith op k r (w : World V) :
  (forall w', gone op w' -> gone op (k w')) ->
  opId r <> op -> gone op w -> gone op (executeImmediateWith k r w).
Proof.
  intros Hk Hne H. unfold executeImmediateWith.
  destruct (tokenCancelled _ _).
  - apply Hk.
    assert (Hs := gone_settle op (opId r) (Rejected newCancellationError)
                    (setRunning (running w + 1) w) H).
    exact Hs.
  - destruct H as (H1 & H2 & H3). fields. repeat split; try assumption.
    rewrite in_app_iff. simpl. intros [?|[?|[]]]; [contradiction|congruence].
Qed.

Lemma gone_processQueueLoop op fuel (w : World V) :
  gone op w -> gone op (processQueueLoop fuel w).
Proof.
  revert w. induction fuel as [|fuel IH]; intros w H; simpl; [exact H|].
  destruct (_ || _); [exact H|].
  destruct (queue w) as [|r rest] eqn:E; [exact H|].
  destruct H as (H1 & H2 & H3). unfold queuedIds in H2. rewrite E in H2. simpl in H2.
  apply gone_executeImmediateWith; [exact IH|tauto|].
  fields. tauto.
Qed.

Lemma gone_execute op token (w : World V) : gone op w -> gone op (execute token w).
Proof.
  intros (H1 & H2 & H3). unfold execute.
  assert (H0 : gone op (setNextOp (S (nextOp w)) w)) by (fields; repeat split; auto; lia).
  destruct (tokenCancelled _ token); [apply gone_settle; exact H0|].
  destruct (JsNum.lt _ _).
  - apply gone_executeImmediateWith; [| simpl; lia | exact H0].
    intros w'. apply gone_processQueueLoop.
  - destruct (JsNum.ge _ _); [apply gone_settle; exact H0|].
    assert (Hq : gone op (setQueue
                   (queue (setNextOp (S (nextOp w)) w) ++
                      [{| opId := nextOp w; cancellationToken := token |}])
                   (setNextOp (S (nextOp w)) w))).
    { fields. repeat split; auto. rewrite map_app, in_app_iff. simpl.
      intros [?|[?|[]]]; [contradiction|lia]. }
    destruct token as [t|]; [|exact Hq].
    unfold onCancelled. destruct (isCancelled _); [apply gone_runCallback|]; exact Hq.
Qed.

Lemma gone_complete op i result (w : World V) : gone op w -> gone op (complete i result w).
Proof.
  intros H. unfold complete. destruct (decide _); [|exact H].
  apply gone_processQueueLoop.
  destruct result as [v|error].
  - exact (gone_settle op i (Resolved v) (landed i w) H).
  - exact (gone_settle op i (Rejected (toError error)) (landed i w) H).
Qed.

Lemma gone_run op es (w : World V) : gone op w -> gone op (run w es).
Proof.
  revert w. induction es as [|e es IH]; intros w H; [exact H|].
  unfold run in *. simpl. apply IH.
  destruct e; simpl; [apply gone_execute|apply gone_complete|apply gone_cancel]; exact H.
Qed.

End LimiterFacts.

Section LimiterInvariant.
Context {V : Type}.
Import Limiter.

Ltac fields :=
  unfold gone, queuedIds, setRunning, setQueue, setTokens, setPromises, setNextOp,
    invoke, landed, tokenState, tokenCancelled in *; simpl in *.

Lemma QueueInv_init cfg : QueueInv (init (V := V) cfg).
Proof.
  split; simpl; try tauto.
  - intros i s H. rewrite lookup_empty in H. discriminate.
  - constructor.
  - intros i H. set_solver.
Qed.

Lemma QueueInv_settle i s (w : World V) :
  QueueInv w -> (i < nextOp w)%nat -> ~ In i (queuedIds w) -> QueueInv (settle i s w).
Proof.
  intros [] Hlt Hnq. unfold queuedIds in *.
  destruct (settle_fields i s w) as (_ & _ & Hq & _ & Hi & Hf & Hn).
  split; unfold queuedIds; rewrite ?Hq, ?Hi, ?Hf, ?Hn; auto.
  - intros j x. rewrite settle_lookup. case_decide; subst; intros; eauto.
  - intros j Hj. rewrite settle_lookup. case_decide; subst; [contradiction|auto].
Qed.

Lemma QueueInv_setRunning r (w : World V) : QueueInv w -> QueueInv (setRunning r w).
Proof. intros []. split; assumption. Qed.

Lemma QueueInv_setTokens ts (w : World V) : QueueInv w -> QueueInv (setTokens ts w).
Proof. intros []. split; assumption. Qed.

Lemma QueueInv_runCallback cb (w : World V) : QueueInv w -> QueueInv (runCallback cb w).
Proof.
  destruct cb as [i]. unfold runCallback.
  destruct (isQueued i (queue w)) eqn:E; [|tauto].
  apply isQueued_In in E. intros Hinv.
  apply QueueInv_settle.
  - destruct Hinv. split; fields; auto.
    + intros j Hj. apply inv_queue_lt0. eapply removeQueued_ids_sub. exact Hj.
    + apply removeQueued_NoDup. assumption.
    + intros j Hj. apply inv_unsettled0. eapply removeQueued_ids_sub. exact Hj.
    + intros j Hj. apply inv_not_invoked0. eapply removeQueued_ids_sub. exact Hj.
  - simpl. apply (inv_queue_lt w Hinv). exact E.
  - fields. apply removeQueued_gone. apply (inv_nodup w Hinv).
Qed.

Lemma QueueInv_callbacks cbs (w : World V) :
  QueueInv w -> QueueInv (fold_left (fun acc cb => runCallback cb acc) cbs w).
Proof.
  revert w. induction cbs as [|cb cbs IH]; intros w H; simpl; [exact H|].
  apply IH. apply QueueInv_runCallback. exact H.
Qed.

Lemma QueueInv_cancel t (w : World V) : QueueInv w -> QueueInv (cancel t w).
Proof.
  unfold cancel. destruct (isCancelled (tokenState w t)); [tauto|].
  intros H. apply QueueInv_setTokens. apply QueueInv_callbacks.
  apply QueueInv_setTokens. exact H.
Qed.

Lemma QueueInv_executeImmediateWith k r (w : World V) :
  (forall w', QueueInv w' -> QueueInv (k w')) ->
  (opId r < nextOp w)%nat -> ~ In (opId r) (queuedIds w) ->
  QueueInv w -> QueueInv (executeImmediateWith k r w).
Proof.
  intros Hk Hlt Hnq H. unfold executeImmediateWith.
  destruct (tokenCancelled _ _).
  - apply Hk. apply QueueInv_setRunning. apply QueueInv_settle; try assumption.
    apply QueueInv_setRunning. exact H.
  - destruct H. split; fields; auto.
    + intros i. rewrite in_app_iff. simpl. intros [?|[<-|[]]]; auto.
    + intros i Hi. rewrite in_app_iff. simpl.
      intros [?|[<-|[]]]; [eapply inv_not_invoked0; eauto|contradiction].
    + intros i Hi. rewrite in_app_iff. simpl.
      apply elem_of_union in Hi as [Hi|Hi]; [right; left; set_solver|left; auto].
Qed.

Lemma QueueInv_processQueueLoop fuel (w : World V) :
  QueueInv w -> QueueInv (processQueueLoop fuel w).
Proof.
  revert w. induction fuel as [|fuel IH]; intros w H; simpl; [exact H|].
  destruct (_ || _); [exact H|].
  destruct (queue w) as [|r rest] eqn:E; [exact H|].
  assert (Hnd := inv_nodup w H). unfold queuedIds in Hnd. rewrite E in Hnd. simpl in Hnd.
  apply List.NoDup_cons_iff in Hnd as [Hr Hnd].
  apply QueueInv_executeImmediateWith; [exact IH|..].
  - simpl. apply (inv_queue_lt w H). unfold queuedIds. rewrite E. left. reflexivity.
  - exact Hr.
  - destruct H. unfold queuedIds in *. rewrite E in *. simpl in *.
    split; fields; auto.
Qed.

Lemma QueueInv_setNextOp (w : World V) : QueueInv w -> QueueInv (setNextOp (S (nextOp w)) w).
Proof.
  intros []. split; fields; auto.
  - intros i Hi. specialize (inv_queue_lt0 i Hi). lia.
  - intros i Hi. specialize (inv_invoked_lt0 i Hi). lia.
  - intros i s Hs. specialize (inv_promises_lt0 i s Hs). lia.
Qed.

Lemma QueueInv_push token (w : World V) :
  QueueInv w ->
  QueueInv (setQueue (queue w ++ [{| opId := nextOp w; cancellationToken := token |}])
              (setNextOp (S (nextOp w)) w)).
Proof.
  intros []. split; fields.
  - intros i. rewrite map_app, in_app_iff. simpl.
    intros [Hi|[<-|[]]]; [specialize (inv_queue_lt0 i Hi)|]; lia.
  - intros i Hi. specialize (inv_invoked_lt0 i Hi). lia.
  - intros i s Hs. specialize (inv_promises_lt0 i s Hs). lia.
  - rewrite map_app. simpl. apply List.NoDup_app; [assumption| |].
    + repeat constructor. simpl. tauto.
    + intros i Hi [<-|[]]. specialize (inv_queue_lt0 _ Hi). lia.
  - intros i. rewrite map_app, in_app_iff. simpl. intros [?|[<-|[]]]; auto.
    destruct (promises w !! nextOp w) eqn:Ep; [|reflexivity].
    specialize (inv_promises_lt0 _ _ Ep). lia.
  - intros i. rewrite map_app, in_app_iff. simpl. intros [?|[<-|[]]]; auto.
    intros Hi. specialize (inv_invoked_lt0 _ Hi). lia.
  - auto.
Qed.

Lemma QueueInv_execute token (w : World V) : QueueInv w -> QueueInv (execute token w).
Proof.
  intros H. unfold execute.
  assert (Hfresh : ~ In (nextOp w) (queuedIds w)).
  { intros Hi. apply (inv_queue_lt w H) in Hi. lia. }
  assert (H0 := QueueInv_setNextOp w H).
  destruct (tokenCancelled _ token).
  { apply QueueInv_settle; [exact H0|simpl; lia|exact Hfresh]. }
  destruct (JsNum.lt _ _).
  { apply QueueInv_executeImmediateWith; [|simpl; lia|exact Hfresh|exact H0].
    intros w'. apply QueueInv_processQueueLoop. }
  destruct (JsNum.ge _ _).
  { apply QueueInv_settle; [exact H0|simpl; lia|exact Hfresh]. }
  assert (Hq := QueueInv_push token w H).
  destruct token as [t|]; [|exact Hq].
  unfold onCancelled. destruct (isCancelled _).
  - apply QueueInv_runCallback. exact Hq.
  - apply QueueInv_setTokens. exact Hq.
Qed.

Lemma QueueInv_complete i result (w : World V) : QueueInv w -> QueueInv (complete i result w).
Proof.
  intros H. unfold complete. destruct (decide _) as [Hin|]; [|exact H].
  apply QueueInv_processQueueLoop.
  assert (Hinvoked : In i (invoked w)) by (apply (inv_inflight w H); exact Hin).
  assert (Hl : QueueInv (landed i w)).
  { destruct H. split; fields; auto. intros j Hj. apply inv_inflight0.
    apply elem_of_difference in Hj as [Hj _]. exact Hj. }
  assert (Hlt : (i < nextOp (landed i w))%nat) by (apply (inv_invoked_lt w H); exact Hinvoked).
  assert (Hnq : ~ In i (queuedIds (landed i w))).
  { intros Hq. apply (inv_not_invoked w H i Hq). exact Hinvoked. }
  destruct result as [v|error].
  - apply (QueueInv_setRunning _ (settle i (Resolved v) (landed i w))).
    apply QueueInv_settle; assumption.
  - apply (QueueInv_setRunning _ (settle i (Rejected (toError error)) (landed i w))).
    apply QueueInv_settle; assumption.
Qed.

Lemma QueueInv_step e (w : World V) : QueueInv w -> QueueInv (step w e).
Proof.
  destruct e; simpl;
    [apply QueueInv_execute|apply QueueInv_complete|apply QueueInv_cancel].
Qed.

End LimiterInvariant.

Section LimiterHooks.
Context {V : Type}.
Import Limiter.

Ltac fields :=
  unfold gone, queuedIds, setRunning, setQueue, setTokens, setPromises, setNextOp,
    invoke, landed, tokenState, tokenCancelled in *; simpl in *.

Lemma shrinks_refl (w : World V) : shrinks w w.
Proof. split; auto. Qed.

Lemma shrinks_trans (w1 w2 w3 : World V) : shrinks w1 w2 -> shrinks w2 w3 -> shrinks w1 w3.
Proof. intros [H1 H2] [H3 H4]. split; [congruence|auto]. Qed.

Lemma shrinks_settle i s (w : World V) : shrinks w (settle i s w).
Proof.
  destruct (settle_fields i s w) as (_ & _ & Hq & Ht & _).
  split; [exact Ht|]. rewrite Hq. auto.
Qed.

Lemma shrinks_runCallback cb (w : World V) : shrinks w (runCallback cb w).
Proof.
  destruct cb as [i]. unfold runCallback.
  destruct (isQueued i (queue w)); [|apply shrinks_refl].
  eapply shrinks_trans; [|apply shrinks_settle].
  split; [reflexivity|]. simpl. intros r. apply removeQueued_sub.
Qed.

Lemma shrinks_callbacks cbs (w : World V) :
  shrinks w (fold_left (fun acc cb => runCallback cb acc) cbs w).
Proof.
  revert w. induction cbs as [|cb cbs IH]; intros w; simpl; [apply shrinks_refl|].
  eapply shrinks_trans; [apply shrinks_runCallback|apply IH].
Qed.

Lemma shrinks_executeImmediateWith k r (w : World V) :
  (forall w', shrinks w' (k w')) -> shrinks w (executeImmediateWith k r w).
Proof.
  intros Hk. unfold executeImmediateWith.
  destruct (tokenCancelled _ _).
  - eapply shrinks_trans; [|apply Hk].
    destruct (shrinks_settle (opId r) (Rejected newCancellationError)
                (setRunning (running w + 1) w)) as [Ht Hq].
    split; [exact Ht|exact Hq].
  - split; [reflexivity|auto].
Qed.

Lemma shrinks_processQueueLoop fuel (w : World V) : shrinks w (processQueueLoop fuel w).
Proof.
  revert w. induction fuel as [|fuel IH]; intros w; simpl; [apply shrinks_refl|].
  destruct (_ || _); [apply shrinks_refl|].
  destruct (queue w) as [|r rest] eqn:E; [apply shrinks_refl|].
  eapply shrinks_trans; [|apply shrinks_executeImmediateWith; exact IH].
  split; [reflexivity|]. simpl. rewrite E. intros; right; assumption.
Qed.

Lemma HookInv_shrinks (w w' : World V) : shrinks w w' -> HookInv w -> HookInv w'.
Proof.
  intros [Ht Hq] H r t Hr Htok. unfold tokenState. rewrite Ht.
  apply (H r t); auto.
Qed.

Lemma callbacks_ids_sub cbs (w : World V) i :
  In i (queuedIds (fold_left (fun acc cb => runCallback cb acc) cbs w)) ->
  In i (queuedIds w).
Proof.
  unfold queuedIds. rewrite !in_map_iff. intros (r & H1 & H2).
  exists r. split; [exact H1|]. apply (shrinks_callbacks cbs w). exact H2.
Qed.

Lemma runCallback_removes op (w : World V) :
  List.NoDup (queuedIds w) -> ~ In op (queuedIds (runCallback (RemoveQueued op) w)).
Proof.
  intros Hnd. unfold runCallback.
  destruct (isQueued op (queue w)) eqn:E.
  - unfold queuedIds.
    destruct (settle_fields op (Rejected newCancellationError)
                (setQueue (removeQueued op (queue w)) w)) as (_ & _ & -> & _).
    simpl. apply removeQueued_gone. exact Hnd.
  - intros H. apply isQueued_In in H. congruence.
Qed.

(** After the callbacks of a token have run, no record whose callback was
    among them is queued. *)
Lemma callbacks_remove op cbs (w : World V) :
  QueueInv w -> In (RemoveQueued op) cbs ->
  ~ In op (queuedIds (fold_left (fun acc cb => runCallback cb acc) cbs w)).
Proof.
  revert w. induction cbs as [|cb cbs IH]; intros w Hinv Hin; simpl; [destruct Hin|].
  destruct Hin as [->|Hin].
  - intros H. apply callbacks_ids_sub in H.
    apply (runCallback_removes op w); [apply (inv_nodup w Hinv)|exact H].
  - apply IH; [apply QueueInv_runCallback; exact Hinv|exact Hin].
Qed.

Lemma runCallback_keeps cb (w : World V) i s :
  promises w !! i = Some s -> promises (runCallback cb w) !! i = Some s.
Proof.
  intros H. destruct cb as [op]. unfold runCallback.
  destruct (isQueued op (queue w)); [|exact H].
  rewrite settle_lookup. simpl. case_decide; subst; [rewrite H; reflexivity|exact H].
Qed.

Lemma callbacks_keep cbs (w : World V) i s :
  promises w !! i = Some s ->
  promises (fold_left (fun acc cb => runCallback cb acc) cbs w) !! i = Some s.
Proof.
  revert w. induction cbs as [|cb cbs IH]; intros w H; simpl; [exact H|].
  apply IH. apply runCallback_keeps. exact H.
Qed.

(** ... and the promise of such a record, queued and unsettled before, is
    rejected with a CancellationError. *)
Lemma callbacks_reject op cbs (w : World V) :
  In (RemoveQueued op) cbs ->
  In op (queuedIds w) -> promises w !! op = None ->
  promises (fold_left (fun acc cb => runCallback cb acc) cbs w) !! op
    = Some (Rejected newCancellationError).
Proof.
  revert w. induction cbs as [|cb cbs IH]; intros w Hin Hq Hp; simpl; [destruct Hin|].
  destruct cb as [op'].
  destruct (Nat.eq_dec op' op) as [->|Hne].
  - apply callbacks_keep. unfold runCallback.
    apply isQueued_In in Hq. rewrite Hq.
    rewrite settle_lookup. simpl. case_decide; [|congruence].
    rewrite Hp. reflexivity.
  - destruct Hin as [Heq|Hin]; [congruence|].
    apply IH; [exact Hin|..]; unfold runCallback;
      destruct (isQueued op' (queue w)); try assumption.
    + unfold queuedIds.
      destruct (settle_fields op' (Rejected newCancellationError)
                  (setQueue (removeQueued op' (queue w)) w)) as (_ & _ & -> & _).
      simpl. apply removeQueued_other; [congruence|exact Hq].
    + rewrite settle_lookup. simpl. case_decide; [congruence|exact Hp].
Qed.

Lemma runCallback_fixed cb (w : World V) :
  nextOp (runCallback cb w) = nextOp w /\ invoked (runCallback cb w) = invoked w.
Proof.
  destruct cb as [op]. unfold runCallback.
  destruct (isQueued op (queue w)); [|split; reflexivity].
  destruct (settle_fields op (Rejected newCancellationError)
              (setQueue (removeQueued op (queue w)) w)) as (_ & _ & _ & _ & -> & _ & ->).
  split; reflexivity.
Qed.

Lemma callbacks_fixed cbs (w : World V) :
  nextOp (fold_left (fun acc cb => runCallback cb acc) cbs w) = nextOp w /\
  invoked (fold_left (fun acc cb => runCallback cb acc) cbs w) = invoked w.
Proof.
  revert w. induction cbs as [|cb cbs IH]; intros w; simpl; [split; reflexivity|].
  destruct (IH (runCallback cb w)) as [-> ->]. apply runCallback_fixed.
Qed.

Lemma cancel_fixed t (w : World V) :
  nextOp (cancel t w) = nextOp w /\ invoked (cancel t w) = invoked w.
Proof.
  unfold cancel. destruct (isCancelled (tokenState w t)); [split; reflexivity|].
  simpl.
  exact (callbacks_fixed (callbacks (tokenState w t))
           (setTokens (<[t := {| isCancelled := true;
                                 callbacks := callbacks (tokenState w t) |}]> (tokens w)) w)).
Qed.

Lemma HookInv_cancel t (w : World V) : QueueInv w -> HookInv w -> HookInv (cancel t w).
Proof.
  intros Hinv Hhook. unfold cancel.
  destruct (isCancelled (tokenState w t)) eqn:Ec; [exact Hhook|].
  set (cbs := callbacks (tokenState w t)).
  set (w1 := setTokens (<[t := {| isCancelled := true; callbacks := cbs |}]> (tokens w)) w).
  set (w2 := fold_left (fun acc cb => runCallback cb acc) cbs w1).
  assert (Hinv1 : QueueInv w1) by (apply QueueInv_setTokens; exact Hinv).
  destruct (shrinks_callbacks cbs w1) as [Ht2 Hq2]. fold w2 in Ht2, Hq2.
  intros r t' Hr Htok. simpl in Hr.
  assert (Hrw : In r (queue w)) by (apply Hq2; exact Hr).
  destruct (Hhook r t' Hrw Htok) as [Hlive Hcb].
  destruct (Nat.eq_dec t' t) as [->|Hne].
  - exfalso. apply (callbacks_remove (opId r) cbs w1 Hinv1 Hcb).
    fold w2. unfold queuedIds. apply in_map. exact Hr.
  - unfold tokenState in *. simpl. rewrite Ht2. simpl.
    rewrite !lookup_insert_ne by congruence. split; assumption.
Qed.

Lemma HookInv_execute token (w : World V) : QueueInv w -> HookInv w -> HookInv (execute token w).
Proof.
  intros Hinv Hhook. unfold execute.
  set (w0 := setNextOp (S (nextOp w)) w).
  assert (H0 : HookInv w0) by exact Hhook.
  destruct (tokenCancelled w0 token) eqn:Ec.
  { eapply HookInv_shrinks; [apply shrinks_settle|exact H0]. }
  destruct (JsNum.lt _ _).
  { eapply HookInv_shrinks; [|exact H0].
    apply shrinks_executeImmediateWith. intros w'. apply shrinks_processQueueLoop. }
  destruct (JsNum.ge _ _).
  { eapply HookInv_shrinks; [apply shrinks_settle|exact H0]. }
  destruct token as [t|].
  - unfold onCancelled.
    assert (El : isCancelled (tokenState w t) = false) by exact Ec.
    change (isCancelled (tokenState (setQueue (queue w0 ++ [mkQueued (nextOp w) (Some t)]) w0) t))
      with (isCancelled (tokenState w t)).
    rewrite El.
    intros r t' Hr Htok. simpl in Hr. apply in_app_iff in Hr.
    unfold tokenState. simpl.
    destruct (Nat.eq_dec t' t) as [->|Hne].
    + rewrite lookup_insert_eq. simpl. split; [reflexivity|].
      apply in_app_iff. destruct Hr as [Hr|[<-|[]]].
      * left. apply (Hhook r t Hr Htok).
      * right. left. reflexivity.
    + rewrite lookup_insert_ne by congruence.
      destruct Hr as [Hr|[<-|[]]]; [exact (Hhook r t' Hr Htok)|].
      simpl in Htok. congruence.
  - intros r t' Hr Htok. simpl in Hr. apply in_app_iff in Hr.
    destruct Hr as [Hr|[<-|[]]]; [exact (Hhook r t' Hr Htok)|discriminate].
Qed.

Lemma HookInv_complete i result (w : World V) : HookInv w -> HookInv (complete i result w).
Proof.
  intros H. unfold complete. destruct (decide _); [|exact H].
  eapply HookInv_shrinks; [apply shrinks_processQueueLoop|].
  destruct result as [v|error].
  - eapply (HookInv_shrinks (landed i w)); [|exact H].
    destruct (shrinks_settle i (Resolved v) (landed i w)) as [Ht Hq]. split; assumption.
  - eapply (HookInv_shrinks (landed i w)); [|exact H].
    destruct (shrinks_settle i (Rejected (toError error)) (landed i w)) as [Ht Hq].
    split; assumption.
Qed.

Lemma Inv_step e (w : World V) : Inv w -> Inv (step w e).
Proof.
  intros [Hq Hh]. split; [apply QueueInv_step; exact Hq|].
  destruct e; simpl.
  - apply HookInv_execute; assumption.
  - apply HookInv_complete; assumption.
  - apply HookInv_cancel; assumption.
Qed.

Lemma Inv_run es (w : World V) : Inv w -> Inv (run w es).
Proof.
  revert w. induction es as [|e es IH]; intros w H; [exact H|].
  unfold run in *. simpl. apply IH. apply Inv_step. exact H.
Qed.

Lemma Inv_init cfg : Inv (init (V := V) cfg).
Proof. split; [apply QueueInv_init|]. intros r t []. Qed.

End LimiterHooks.

(** C6.  In every state a limiter reaches: (1) an [execute] call that finds
    [maxConcurrent] operations running and [queueLimit] records queued
    (the test [running < maxConcurrent] fails and the test
    [queue.length >= queueLimit] holds) leaves the queue as it is and never
    gets its operation invoked, whatever happens later; made without a
    token, or with one that is not cancelled yet, its promise rejects with
    'Concurrency queue is full';
    (2) cancelling the token of a record that is still queued removes the
    record from the queue and rejects its promise with a CancellationError,
    and its operation is never invoked, whatever happens later. *)
Theorem limiter_queue_full_and_queued_cancellation
    (V : Type) (cfg : Limiter.ConcurrencyLimiterConfig) (history : list (Limiter.Event V)) :
  let w := Limiter.run (Limiter.init cfg) history in
  (forall token : option Limiter.TokenId,
      JsNum.lt (JsNum.ofZ (Limiter.running w))
        (Limiter.maxConcurrent (Limiter.config w)) = false ->
      JsNum.ge (JsNum.ofZ (Z.of_nat (length (Limiter.queue w))))
        (Limiter.queueLimit (Limiter.config w)) = true ->
      let w' := Limiter.execute token w in
      Limiter.queue w' = Limiter.queue w /\
      (forall later, ~ In (Limiter.nextOp w) (Limiter.invoked (Limiter.run w' later))) /\
      (Limiter.tokenCancelled w token = false ->
       Limiter.promises w' !! Limiter.nextOp w
         = Some (Limiter.Rejected (Error "Concurrency queue is full")))) /\
  (forall (r : Limiter.QueuedOperation) (t : Limiter.TokenId),
      In r (Limiter.queue w) ->
      Limiter.cancellationToken r = Some t ->
      let w' := Limiter.cancel t w in
      ~ In r (Limiter.queue w') /\
      Limiter.promises w' !! Limiter.opId r = Some (Limiter.Rejected newCancellationError) /\
      (forall later, ~ In (Limiter.opId r) (Limiter.invoked (Limiter.run w' later)))).
Proof.
  intros w.
  assert (Hinv : Inv w) by (apply Inv_run, Inv_init).
  destruct Hinv as [Hq Hh].
  split.
  - intros token Hrun Hfull w'.
    assert (Hfresh : ~ In (Limiter.nextOp w) (queuedIds w)).
    { intros Hi. apply (inv_queue_lt w Hq) in Hi. lia. }
    assert (Hnew : ~ In (Limiter.nextOp w) (Limiter.invoked w)).
    { intros Hi. apply (inv_invoked_lt w Hq) in Hi. lia. }
    assert (Hunset : Limiter.promises w !! Limiter.nextOp w = None).
    { destruct (Limiter.promises w !! Limiter.nextOp w) eqn:E; [|reflexivity].
      apply (inv_promises_lt w Hq) in E. lia. }
    assert (Hw' : w' = Limiter.settle (Limiter.nextOp w)
                         (Limiter.Rejected
                            (if Limiter.tokenCancelled w token
                             then newCancellationError
                             else Error "Concurrency queue is full"))
                         (Limiter.setNextOp (S (Limiter.nextOp w)) w)).
    { unfold w', Limiter.execute.
      change (Limiter.tokenCancelled (Limiter.setNextOp (S (Limiter.nextOp w)) w) token)
        with (Limiter.tokenCancelled w token).
      destruct (Limiter.tokenCancelled w token); [reflexivity|].
      cbn [Limiter.running Limiter.config Limiter.queue Limiter.setNextOp].
      rewrite Hrun, Hfull. reflexivity. }
    rewrite Hw'. split; [|split].
    + destruct (settle_fields (Limiter.nextOp w)
                  (Limiter.Rejected
                     (if Limiter.tokenCancelled w token
                      then newCancellationError
                      else Error "Concurrency queue is full"))
                  (Limiter.setNextOp (S (Limiter.nextOp w)) w)) as (_ & _ & Hsame & _).
      exact Hsame.
    + intros later.
      apply (gone_run (Limiter.nextOp w) later). apply gone_settle.
      repeat split; simpl; auto.
    + intros ->. rewrite settle_lookup. simpl. case_decide; [|congruence].
      rewrite Hunset. reflexivity.
  - intros r t Hr Htok w'.
    destruct (Hh r t Hr Htok) as [Hlive Hcb].
    assert (Hid : In (Limiter.opId r) (queuedIds w)) by (apply in_map; exact Hr).
    assert (Hout : ~ In (Limiter.opId r) (queuedIds w')).
    { unfold w', Limiter.cancel. rewrite Hlive.
      apply (callbacks_remove (Limiter.opId r)); [|exact Hcb].
      apply QueueInv_setTokens. exact Hq. }
    destruct (cancel_fixed t w) as [Hnext Hinvoked]. fold w' in Hnext, Hinvoked.
    split; [|split].
    + intros Hin. apply Hout. apply in_map. exact Hin.
    + unfold w', Limiter.cancel. rewrite Hlive. simpl.
      apply callbacks_reject; [exact Hcb|exact Hid|].
      apply (inv_unsettled w Hq). exact Hid.
    + intros later. apply (gone_run (Limiter.opId r) later).
      repeat split.
      * rewrite Hnext. apply (inv_queue_lt w Hq). exact Hid.
      * exact Hout.
      * rewrite Hinvoked. apply (inv_not_invoked w Hq). exact Hid.
Qed.

(** C6 on the limiter of the tests ([maxConcurrent = 1], [queueLimit = 1])
    after one running and one queued call, the latter with token 7: a
    third call is turned away, and cancelling token 7 rejects the queued
    call, which is not invoked when the running one completes. *)
Lemma limiter_queue_full_and_queued_cancellation_witness :
  let w := Limiter.run (V := string) (Limiter.init (Limiter.mkLimiterConfig 1 1))
             [Limiter.Execute None; Limiter.Execute (Some 7%nat)] in
  Limiter.promises (Limiter.execute None w) !! 2%nat
    = Some (Limiter.Rejected (Error "Concurrency queue is full")) /\
  Limiter.promises (Limiter.cancel 7%nat w) !! 1%nat
    = Some (Limiter.Rejected newCancellationError) /\
  ~ In 1%nat (Limiter.invoked
                (Limiter.run (Limiter.cancel 7%nat w)
                   [Limiter.Complete 0%nat (inl "done"%string)])).
Proof.
  intros w.
  destruct (limiter_queue_full_and_queued_cancellation string
              (Limiter.mkLimiterConfig 1 1)
              [Limiter.Execute None; Limiter.Execute (Some 7%nat)]) as [Hfull Hcancel].
  fold w in Hfull, Hcancel.
  split; [|split].
  - assert (Hrun : JsNum.lt (JsNum.ofZ (Limiter.running w))
                     (Limiter.maxConcurrent (Limiter.config w)) = false)
      by (vm_compute; reflexivity).
    assert (Hq : JsNum.ge (JsNum.ofZ (Z.of_nat (length (Limiter.queue w))))
                   (Limiter.queueLimit (Limiter.config w)) = true)
      by (vm_compute; reflexivity).
    destruct (Hfull None Hrun Hq) as (_ & _ & Hreject).
    exact (Hreject eq_refl).
  - assert (Hin : In (Limiter.mkQueued 1%nat (Some 7%nat)) (Limiter.queue w))
      by (left; reflexivity).
    destruct (Hcancel (Limiter.mkQueued 1%nat (Some 7%nat)) 7%nat Hin eq_refl) as (_ & Hreject & _).
    exact Hreject.
  - assert (Hin : In (Limiter.mkQueued 1%nat (Some 7%nat)) (Limiter.queue w))
      by (left; reflexivity).
    destruct (Hcancel (Limiter.mkQueued 1%nat (Some 7%nat)) 7%nat Hin eq_refl) as (_ & _ & Hnever).
    exact (Hnever [Limiter.Complete 0%nat (inl "done"%string)]).
Defined.

(** ** Loop bounds *)

(** [processQueue] gives its loop enough fuel: more changes nothing. *)
Lemma processQueueLoop_fuel_enough (V : Type) :
  forall (fuel more : nat) (w : Limiter.World V),
    (length (Limiter.queue w) < fuel)%nat ->
    Limiter.processQueueLoop (fuel + more) w = Limiter.processQueueLoop fuel w.
Proof.
  induction fuel as [|fuel IH]; intros more w Hlen; [lia|].
  simpl.
  destruct (_ || _); [reflexivity|].
  destruct (Limiter.queue w) as [|r rest] eqn:E; [reflexivity|].
  unfold Limiter.executeImmediateWith.
  destruct (Limiter.tokenCancelled _ _); [|reflexivity].
  apply IH.
  change (length (Limiter.queue
            (Limiter.settle (Limiter.opId r) (Limiter.Rejected newCancellationError)
               (Limiter.setRunning (Limiter.running (Limiter.setQueue rest w) + 1)
                  (Limiter.setQueue rest w)))) < fuel)%nat.
  destruct (settle_fields (Limiter.opId r) (Limiter.Rejected newCancellationError)
              (Limiter.setRunning (Limiter.running (Limiter.setQueue rest w) + 1)
                 (Limiter.setQueue rest w))) as (_ & _ & -> & _).
  simpl in *. lia.
Qed.

(** [flushBufferedMessages] gives its loop enough fuel: more changes nothing. *)
Lemma flushLoop_fuel_enough
    (Data : Type) (stringify : WS.WSEnvelope Data -> Thrown + string)
    (estimateSize : WS.WSEnvelope Data -> Z) :
  forall (fuel more : nat) (c : WS.WSClient Data),
    (length (MessageBuffer.items (WS.messageBuffer c)) <= fuel)%nat ->
    WS.flushLoop stringify estimateSize (fuel + more) c
      = WS.flushLoop stringify estimateSize fuel c.
Proof.
  induction fuel as [|fuel IH]; intros more c Hlen.
  - destruct more as [|more]; [reflexivity|]. simpl.
    unfold MessageBuffer.isEmpty, BoundedQueue.isEmpty, BoundedQueue.size.
    unfold MessageBuffer.items in Hlen.
    assert (length (BoundedQueue.items (MessageBuffer.base (WS.messageBuffer c))) = 0%nat)
      as -> by lia.
    reflexivity.
  - simpl.
    destruct (MessageBuffer.isEmpty _); [reflexivity|].
    assert (Htail : (length (MessageBuffer.items
                       (snd (MessageBuffer.dequeue estimateSize (WS.messageBuffer c))))
                     <= fuel)%nat).
    { unfold MessageBuffer.dequeue, BoundedQueue.dequeue, MessageBuffer.items in *.
      destruct (BoundedQueue.items (MessageBuffer.base (WS.messageBuffer c))) eqn:E;
        simpl in *; rewrite ?E; simpl; lia. }
    destruct (MessageBuffer.dequeue estimateSize (WS.messageBuffer c)) as [message buffer].
    simpl in Htail.
    destruct message as [m|], (WS.ws c) as [socket|]; try (apply IH; exact Htail).
    destruct (WS.readyState socket); try (apply IH; exact Htail).
    destruct (stringify m) as [error|text]; [reflexivity|].
    destruct (WS.socketSend socket text) as [e|socket']; [reflexivity|].
    apply IH. exact Htail.
Qed.

(** * Further properties *)

(** ** BoundedQueue: what a run of enqueues keeps, drops and reports *)

Section QueueContents.
Context {T : Type} {V : JsValue T}.
Import BoundedQueue.

Lemma run_app (q : t T) (a b : list (op T)) : run q (a ++ b) = run (run q a) b.
Proof. unfold run. apply fold_left_app. Qed.

Lemma run_enqueue_snoc (q : t T) (xs : list T) (x : T) :
  run q (map Enqueue (xs ++ [x])) = snd (enqueue (run q (map Enqueue xs)) x).
Proof. rewrite map_app, run_app. reflexivity. Qed.

End QueueContents.

(** X1.  Under 'oldest' with the integer capacity [n >= 1], enqueueing
    [xs] into a fresh queue keeps the last [n] items in insertion order;
    of the items before them, those that are not the value [undefined] are
    reported to [onDrop] in insertion order, and [droppedCount] is their
    number: an evicted [undefined] is neither reported nor counted. *)
Theorem oldest_keeps_the_latest
    (T : Type) (V : JsValue T) (n : nat) (xs : list T) (Hn : (1 <= n)%nat) :
  let q := BoundedQueue.run (BoundedQueue.create (mkConfig (Z.of_nat n) oldest))
             (map BoundedQueue.Enqueue xs) in
  let evicted := firstn (length xs - n) xs in
  BoundedQueue.toArray q = skipn (length xs - n) xs /\
  BoundedQueue.onDropCalls q = List.filter (fun x => negb (isUndefined x)) evicted /\
  BoundedQueue.droppedCount q
    = Z.of_nat (length (List.filter (fun x => negb (isUndefined x)) evicted)).
Proof.
  cbv zeta.
  assert (Hc : BoundedQueue.config
                 (BoundedQueue.run (BoundedQueue.create (mkConfig (Z.of_nat n) oldest))
                    (map BoundedQueue.Enqueue xs)) = mkConfig (Z.of_nat n) oldest)
    by apply config_run.
  revert Hc. induction xs as [|x xs IH] using rev_ind; intros Hc.
  - repeat split.
  - rewrite run_enqueue_snoc in *.
    assert (Hc' : BoundedQueue.config
                    (BoundedQueue.run (BoundedQueue.create (mkConfig (Z.of_nat n) oldest))
                       (map BoundedQueue.Enqueue xs)) = mkConfig (Z.of_nat n) oldest)
      by apply config_run.
    destruct (IH Hc') as (Hi & Hd & Hk). clear IH.
    unfold BoundedQueue.toArray in *.
    set (q := BoundedQueue.run _ (map BoundedQueue.Enqueue xs)) in *.
    unfold BoundedQueue.enqueue, BoundedQueue.size. rewrite Hc'.
    cbn [maxSize dropStrategy]. rewrite lt_ofZ. rewrite Hi, Hd, Hk.
    rewrite length_drop, length_app. cbn [length].
    destruct (Z.ltb_spec (Z.of_nat (length xs - (length xs - n))) (Z.of_nat n)) as [Hlt|Hge].
    + cbn [snd BoundedQueue.items BoundedQueue.onDropCalls BoundedQueue.droppedCount].
      assert (Hle : (length xs < n)%nat) by lia.
      replace (length xs - n)%nat with 0%nat by lia.
      replace (length xs + 1 - n)%nat with 0%nat by lia.
      repeat split.
    + assert (Hle : (n <= length xs)%nat) by lia.
      destruct (lookup_lt_is_Some_2 xs (length xs - n)%nat ltac:(lia)) as [d Hdl].
      rewrite (drop_S _ _ _ Hdl).
      replace (length xs + 1 - n)%nat with (S (length xs - n)) by lia.
      rewrite drop_app_le by lia. rewrite take_app_le by lia.
      rewrite (take_S_r _ _ _ Hdl). rewrite List.filter_app. cbn [List.filter].
      destruct (isUndefined d);
        cbn [negb snd BoundedQueue.items BoundedQueue.onDropCalls BoundedQueue.droppedCount].
      * rewrite app_nil_r. repeat split.
      * rewrite length_app. cbn [length]. repeat split. lia.
Qed.

(** X1 at capacity 2 and the items 1, 2, 3: 2 and 3 are kept, 1 is
    reported and counted. *)
Lemma oldest_keeps_the_latest_witness :
  let q := BoundedQueue.run (BoundedQueue.create (mkConfig 2 oldest))
             (map BoundedQueue.Enqueue [1%nat; 2%nat; 3%nat]) in
  BoundedQueue.toArray q = [2%nat; 3%nat] /\
  BoundedQueue.onDropCalls q = [1%nat] /\
  BoundedQueue.droppedCount q = 1.
Proof.
  assert (Hn : (1 <= 2)%nat) by lia.
  exact (oldest_keeps_the_latest nat nat_value 2 [1%nat; 2%nat; 3%nat] Hn).
Defined.

(** With an evicted [undefined]: of [undefined] and 5 through a one-slot
    queue, 5 is kept and nothing is reported or counted. *)
Lemma oldest_evicts_undefined_silently :
  let q := BoundedQueue.run (BoundedQueue.create (mkConfig 1 oldest))
             (map BoundedQueue.Enqueue [None; Some 5%nat]) in
  BoundedQueue.toArray q = [Some 5%nat] /\
  BoundedQueue.onDropCalls q = [] /\
  BoundedQueue.droppedCount q = 0.
Proof. vm_compute. repeat split; reflexivity. Qed.

(** X2.  Under 'newest' or 'reject' with capacity [n], enqueueing [xs] into
    a fresh queue keeps the first [n] items; 'newest' reports every later
    item to [onDrop] and counts it, 'reject' reports and counts nothing. *)
Theorem newest_and_reject_keep_the_earliest
    (T : Type) (V : JsValue T) (n : nat) (xs : list T) :
  let byNewest := BoundedQueue.run (BoundedQueue.create (mkConfig (Z.of_nat n) newest))
                    (map BoundedQueue.Enqueue xs) in
  let byReject := BoundedQueue.run (BoundedQueue.create (mkConfig (Z.of_nat n) reject))
                    (map BoundedQueue.Enqueue xs) in
  (BoundedQueue.toArray byNewest = firstn n xs /\
   BoundedQueue.onDropCalls byNewest = skipn n xs /\
   BoundedQueue.droppedCount byNewest = Z.of_nat (length xs - n)) /\
  (BoundedQueue.toArray byReject = firstn n xs /\
   BoundedQueue.onDropCalls byReject = [] /\
   BoundedQueue.droppedCount byReject = 0).
Proof.
  cbv zeta. split.
  - assert (Hc : forall ys, BoundedQueue.config
                   (BoundedQueue.run (BoundedQueue.create (mkConfig (Z.of_nat n) newest))
                      (map (BoundedQueue.Enqueue (T := T)) ys)) = mkConfig (Z.of_nat n) newest)
      by (intros; apply config_run).
    induction xs as [|x xs IH] using rev_ind; [destruct n; repeat split|].
    rewrite run_enqueue_snoc. destruct IH as (Hi & Hd & Hk).
    unfold BoundedQueue.toArray in *.
    unfold BoundedQueue.enqueue, BoundedQueue.size. rewrite Hc.
    cbn [maxSize dropStrategy]. rewrite lt_ofZ. rewrite Hi, Hd, Hk.
    rewrite length_take, length_app. simpl.
    destruct (Z.ltb_spec (Z.of_nat (n `min` length xs)) (Z.of_nat n)) as [Hlt|Hge]; simpl.
    + assert (Hle : (length xs < n)%nat) by lia.
      rewrite (take_ge xs n) by lia. rewrite (take_ge (xs ++ [x])) by (rewrite length_app; simpl; lia).
      rewrite (drop_ge xs n) by lia. rewrite (drop_ge (xs ++ [x])) by (rewrite length_app; simpl; lia).
      repeat split. lia.
    + assert (Hle : (n <= length xs)%nat) by lia.
      rewrite take_app_le by lia. rewrite drop_app_le by lia.
      repeat split. lia.
  - assert (Hc : forall ys, BoundedQueue.config
                   (BoundedQueue.run (BoundedQueue.create (mkConfig (Z.of_nat n) reject))
                      (map (BoundedQueue.Enqueue (T := T)) ys)) = mkConfig (Z.of_nat n) reject)
      by (intros; apply config_run).
    induction xs as [|x xs IH] using rev_ind; [destruct n; repeat split|].
    rewrite run_enqueue_snoc. destruct IH as (Hi & Hd & Hk).
    unfold BoundedQueue.toArray in *.
    unfold BoundedQueue.enqueue, BoundedQueue.size. rewrite Hc.
    cbn [maxSize dropStrategy]. rewrite lt_ofZ. rewrite Hi.
    rewrite length_take.
    destruct (Z.ltb_spec (Z.of_nat (n `min` length xs)) (Z.of_nat n)) as [Hlt|Hge]; simpl.
    + assert (Hle : (length xs < n)%nat) by lia.
      rewrite (take_ge xs n) by lia. rewrite (take_ge (xs ++ [x])) by (rewrite length_app; simpl; lia).
      repeat split; assumption.
    + assert (Hle : (n <= length xs)%nat) by lia.
      rewrite take_app_le by lia.
      repeat split; assumption.
Qed.

(** X3.  Over any sequence of queue operations that does not call
    [resetDroppedCount], [droppedCount] grows by exactly the number of
    [onDrop] calls made: every counted drop is reported once, earlier
    reports are kept, and the count never decreases. *)
Theorem droppedCount_counts_onDrop_calls
    (T : Type) (V : JsValue T) (q : BoundedQueue.t T) (ops : list (BoundedQueue.op T))
    (Hops : Forall keepsCount ops) :
  exists reported : list T,
    BoundedQueue.onDropCalls (BoundedQueue.run q ops)
      = BoundedQueue.onDropCalls q ++ reported /\
    BoundedQueue.droppedCount (BoundedQueue.run q ops)
      = BoundedQueue.droppedCount q + Z.of_nat (length reported).
Proof.
  revert q. induction Hops as [|o ops Ho Hops IH]; intros q.
  - exists []. simpl. rewrite app_nil_r. split; [reflexivity|lia].
  - change (BoundedQueue.run q (o :: ops))
      with (BoundedQueue.run (BoundedQueue.step q o) ops).
    destruct (IH (BoundedQueue.step q o)) as (later & Hl & Hc).
    assert (Hstep : exists now_,
               BoundedQueue.onDropCalls (BoundedQueue.step q o)
                 = BoundedQueue.onDropCalls q ++ now_ /\
               BoundedQueue.droppedCount (BoundedQueue.step q o)
                 = BoundedQueue.droppedCount q + Z.of_nat (length now_)).
    { destruct o as [x| | | | |]; simpl in *; try contradiction;
        try (exists []; rewrite app_nil_r; split; [reflexivity|simpl; lia]).
      - unfold BoundedQueue.enqueue.
        destruct (JsNum.lt _ _); [exists []; simpl; rewrite app_nil_r; split; [reflexivity|lia]|].
        destruct (dropStrategy _).
        + destruct (BoundedQueue.items q) as [|d rest].
          * exists []. simpl. rewrite app_nil_r. split; [reflexivity|lia].
          * destruct (isUndefined d).
            -- exists []. simpl. rewrite app_nil_r. split; [reflexivity|lia].
            -- exists [d]. simpl. split; [reflexivity|lia].
        + exists [x]. simpl. split; [reflexivity|lia].
        + exists []. simpl. rewrite app_nil_r. split; [reflexivity|lia].
      - unfold BoundedQueue.dequeue. destruct (BoundedQueue.items q);
          exists []; simpl; rewrite app_nil_r; split; (reflexivity || lia). }
    destruct Hstep as (now_ & Hn & Hcn).
    exists (now_ ++ later). rewrite Hl, Hn, Hc, Hcn, length_app, <- app_assoc.
    split; [reflexivity|lia].
Qed.

(** X3 on a one-slot 'oldest' queue: two enqueues report one drop. *)
Lemma droppedCount_counts_onDrop_calls_witness :
  exists reported : list nat,
    BoundedQueue.onDropCalls
      (BoundedQueue.run (BoundedQueue.create (mkConfig 1 oldest))
         [BoundedQueue.Enqueue 1%nat; BoundedQueue.Enqueue 2%nat]) = [] ++ reported /\
    BoundedQueue.droppedCount
      (BoundedQueue.run (BoundedQueue.create (mkConfig 1 oldest))
         [BoundedQueue.Enqueue 1%nat; BoundedQueue.Enqueue 2%nat])
      = 0 + Z.of_nat (length reported).
Proof.
  apply (droppedCount_counts_onDrop_calls nat nat_value (BoundedQueue.create (mkConfig 1 oldest))
           [BoundedQueue.Enqueue 1%nat; BoundedQueue.Enqueue 2%nat]).
  repeat constructor.
Defined.

(** X4.  [k] successive [dequeue()] calls return the first [k] items in
    insertion order, then [undefined] once the queue is empty; they leave
    the remaining items in order and touch neither [droppedCount] nor
    [onDrop].  [drain()] returns the same items as dequeueing them all. *)
Theorem dequeue_is_fifo (T : Type) (V : JsValue T) (k : nat) (q : BoundedQueue.t T) :
  let n := length (BoundedQueue.items q) in
  fst (dequeueMany k q)
    = map Some (firstn k (BoundedQueue.items q)) ++ repeat None (k - n) /\
  BoundedQueue.toArray (snd (dequeueMany k q)) = skipn k (BoundedQueue.items q) /\
  BoundedQueue.droppedCount (snd (dequeueMany k q)) = BoundedQueue.droppedCount q /\
  BoundedQueue.onDropCalls (snd (dequeueMany k q)) = BoundedQueue.onDropCalls q /\
  map Some (fst (BoundedQueue.drain q)) = fst (dequeueMany n q) /\
  BoundedQueue.toArray (snd (BoundedQueue.drain q)) = [].
Proof.
  cbv zeta.
  assert (Hgen : forall k (q : BoundedQueue.t T),
             fst (dequeueMany k q)
               = map Some (firstn k (BoundedQueue.items q))
                 ++ repeat None (k - length (BoundedQueue.items q)) /\
             BoundedQueue.toArray (snd (dequeueMany k q)) = skipn k (BoundedQueue.items q) /\
             BoundedQueue.droppedCount (snd (dequeueMany k q)) = BoundedQueue.droppedCount q /\
             BoundedQueue.onDropCalls (snd (dequeueMany k q)) = BoundedQueue.onDropCalls q).
  { clear. induction k as [|k IH]; intros q; [repeat split|].
    simpl. unfold BoundedQueue.dequeue.
    destruct (BoundedQueue.items q) as [|x rest] eqn:E.
    - specialize (IH q). destruct (dequeueMany k q) as [xs q2]. simpl in *.
      destruct IH as (H1 & H2 & H3 & H4). rewrite E in *.
      rewrite H1. simpl. rewrite firstn_nil, skipn_nil in *. simpl.
      rewrite Nat.sub_0_r. repeat split; assumption.
    - specialize (IH (BoundedQueue.mk (BoundedQueue.config q) rest
                        (BoundedQueue.droppedCount q) (BoundedQueue.onDropCalls q))).
      destruct (dequeueMany k _) as [xs q2]. simpl in *.
      destruct IH as (H1 & H2 & H3 & H4). rewrite H1. repeat split; assumption. }
  destruct (Hgen k q) as (H1 & H2 & H3 & H4).
  repeat split; try assumption.
  destruct (Hgen (length (BoundedQueue.items q)) q) as (H5 & _).
  rewrite H5, Nat.sub_diag, firstn_all. simpl. rewrite app_nil_r. reflexivity.
Qed.

(** ** MessageBuffer: what an enqueue leaves behind *)

(** X5.  Whenever [MessageBuffer.enqueue] admits an item, the byte counter
    afterwards does not exceed [maxBytes] (the test [totalBytes > maxBytes]
    is false), or the admitted item is the only one held. *)
Theorem admitted_within_budget_or_alone
    (T : Type) (V : JsValue T) (estimateSize : T -> Z) (b : MessageBuffer.t T) (x : T)
    (Hok : fst (MessageBuffer.enqueue estimateSize b x) = true) :
  let b' := snd (MessageBuffer.enqueue estimateSize b x) in
  JsNum.gt (JsNum.ofZ (MessageBuffer.totalBytes b')) (MessageBuffer.maxBytes b') = false \/
  MessageBuffer.items b' = [x].
Proof.
  cbv zeta. revert Hok. unfold MessageBuffer.enqueue.
  set (b1 := MessageBuffer.makeRoom estimateSize b (estimateSize x)).
  assert (Hexit : negb (MessageBuffer.isEmpty b1)
                  && MessageBuffer.overBudget b1 (estimateSize x) = false).
  { unfold b1, MessageBuffer.makeRoom.
    destruct (MessageBuffer.overBudget b (estimateSize x)) eqn:Eo; simpl.
    - destruct (MessageBuffer.isEmpty b) eqn:Ee; simpl.
      + rewrite Ee. reflexivity.
      + apply evictLoop_exit. lia.
    - rewrite Eo. apply andb_false_r. }
  destruct (BoundedQueue.enqueue (MessageBuffer.base b1) x) as [ok q] eqn:Eq.
  destruct ok; simpl; [intros _|discriminate].
  apply andb_false_iff in Hexit as [Hempty|Hfit].
  - right. apply negb_false_iff in Hempty.
    unfold MessageBuffer.isEmpty, BoundedQueue.isEmpty, BoundedQueue.size in Hempty.
    apply Z.eqb_eq in Hempty.
    assert (Hnil : BoundedQueue.items (MessageBuffer.base b1) = []).
    { destruct (BoundedQueue.items (MessageBuffer.base b1)); [reflexivity|simpl in Hempty; lia]. }
    unfold MessageBuffer.items. simpl.
    unfold BoundedQueue.enqueue in Eq. rewrite Hnil in Eq.
    destruct (JsNum.lt _ _); [injection Eq as <-; reflexivity|].
    destruct (dropStrategy _); [injection Eq as <-; reflexivity|discriminate..].
  - left. exact Hfit.
Qed.

(** X5 at an empty buffer of 20 bytes and a 12-byte item: the counter
    reads 12. *)
Lemma admitted_within_budget_or_alone_witness :
  let b' := snd (MessageBuffer.enqueue stringItemSize
                   (MessageBuffer.create (mkConfig 10 oldest) (Some (JsNum.ofZ 20)))
                   "aaaa"%string) in
  MessageBuffer.totalBytes b' = 12 /\
  (JsNum.gt (JsNum.ofZ (MessageBuffer.totalBytes b')) (MessageBuffer.maxBytes b') = false \/
   MessageBuffer.items b' = ["aaaa"%string]).
Proof.
  split; [reflexivity|].
  apply (admitted_within_budget_or_alone string string_value stringItemSize
           (MessageBuffer.create (mkConfig 10 oldest) (Some (JsNum.ofZ 20))) "aaaa"%string).
  reflexivity.
Defined.

Lemma makeRoom_keeps_a_tail
    {T : Type} {V : JsValue T} (estimateSize : T -> Z) (b : MessageBuffer.t T) (x : T) :
  exists evicted,
    MessageBuffer.items b
      = evicted ++ MessageBuffer.items (MessageBuffer.makeRoom estimateSize b (estimateSize x)).
Proof.
  unfold MessageBuffer.makeRoom.
  destruct (_ && _); [apply evictLoop_items|exists []; reflexivity].
Qed.

(** X6.  [MessageBuffer.enqueue] never reorders: what it retains of the
    previous items is a contiguous tail of them, in the same order, followed
    by the new item exactly when the call returns true. *)
Theorem enqueue_retains_a_tail
    (T : Type) (V : JsValue T) (estimateSize : T -> Z) (b : MessageBuffer.t T) (x : T) :
  exists evicted kept : list T,
    MessageBuffer.items b = evicted ++ kept /\
    MessageBuffer.items (snd (MessageBuffer.enqueue estimateSize b x))
      = if fst (MessageBuffer.enqueue estimateSize b x) then kept ++ [x] else kept.
Proof.
  destruct (makeRoom_keeps_a_tail estimateSize b x) as [evicted Hev].
  unfold MessageBuffer.enqueue.
  set (b1 := MessageBuffer.makeRoom estimateSize b (estimateSize x)) in *.
  unfold BoundedQueue.enqueue.
  destruct (JsNum.lt _ _).
  { exists evicted, (MessageBuffer.items b1). split; [exact Hev|reflexivity]. }
  destruct (dropStrategy _).
  - destruct (BoundedQueue.items (MessageBuffer.base b1)) as [|d rest] eqn:E.
    + exists evicted, []. unfold MessageBuffer.items in *. rewrite E in Hev.
      split; [exact Hev|reflexivity].
    + exists (evicted ++ [d]), rest. unfold MessageBuffer.items in *. rewrite E in Hev.
      rewrite <- app_assoc. split; [exact Hev|destruct (isUndefined d); reflexivity].
  - exists evicted, (MessageBuffer.items b1). split; [exact Hev|reflexivity].
  - exists evicted, (MessageBuffer.items b1). split; [exact Hev|reflexivity].
Qed.

Section BackoffCap.
Import Retry.
Context {E : Engine}.

Lemma min_le_r (x c : JsNumber) :
  JsNum.min x c = NaN \/ JsNum.le (JsNum.min x c) c = true.
Proof.
  destruct x as [|[|]|a], c as [|[|]|b]; try (left; reflexivity); try (right; reflexivity);
    try (right; unfold JsNum.min; cbn [JsNum.compare]; apply le_finite; lra).
  right. unfold JsNum.min, JsNum.compare.
  destruct (Qcompare_spec a b) as [H|H|H]; apply le_finite; lra.
Qed.

Lemma le_not_gt (a b : JsNumber) : JsNum.le a b = true -> JsNum.gt a b = false.
Proof.
  destruct a as [|[|]|x], b as [|[|]|y];
    try (simpl; intros; first [discriminate|reflexivity]).
  rewrite le_finite. intros H. unfold JsNum.gt. apply Bool.not_true_is_false.
  rewrite lt_finite. lra.
Qed.

Lemma gt_infinity (d : JsNumber) : JsNum.gt d (Infinity false) = false.
Proof. destruct d as [|[|]|x]; reflexivity. Qed.

Lemma gt_nan (b : JsNumber) : JsNum.gt NaN b = false.
Proof. destruct b as [|[|]|x]; reflexivity. Qed.

(** Without jitter the cap holds whatever the arithmetic does. *)
Lemma capped_plain (x cap : JsNumber) :
  JsNum.ge cap 0 = true -> JsNum.gt (JsNum.max 0 (JsNum.min x cap)) cap = false.
Proof.
  intros Hpos. destruct (min_le_r x cap) as [-> | Hle];
    [destruct cap as [|[|]|c]; reflexivity|].
  apply le_not_gt. apply max_upper; assumption.
Qed.

(** The jittered delay of a negative double is clamped to 0. *)
Lemma jitter_negative (Hieee : IEEE E) (random q : Q) :
  (0 <= random)%Q -> (random < 1)%Q -> (q <= 0)%Q -> isDouble (Finite q) ->
  let quarter := JsNum.mul (Finite q) (Finite (1 # 4)) in
  let jittered :=
    JsNum.add (Finite q)
      (JsNum.mul (JsNum.mul (JsNum.sub (Finite random) (Finite (1 # 2))) 2) quarter) in
  JsNum.max 0 jittered = JsNum.ofZ 0.
Proof.
  intros Hr0 Hr1 Hq Hdouble quarter jittered.
  assert (Hzero : isDouble (Finite 0)) by exact (double_integer Hieee 0 ltac:(vm_compute; discriminate)).
  assert (Hone : isDouble (Finite 1)) by exact (double_integer Hieee 1 ltac:(vm_compute; discriminate)).
  assert (Hhalf := double_half Hieee).
  destruct (double_bounds Hieee q 0 (q * (1 # 4)) Hdouble Hzero) as (jq & Hj & Hj0 & Hj1); [lra|].
  change (JsNum.mul (Finite q) (Finite (1 # 4))) with (JsNum.fl (q * (1 # 4))) in quarter.
  assert (Hjd : isDouble (Finite jq)) by (rewrite <- Hj; apply (fl_double Hieee)).
  subst jittered quarter. rewrite Hj.
  destruct (double_bounds Hieee (- (1 # 2)) (1 # 2) (random + - (1 # 2))
              (double_opp Hieee _ Hhalf) Hhalf) as (sq & Hs & Hs0 & Hs1); [lra|].
  change (JsNum.sub (Finite random) (Finite (1 # 2)))
    with (JsNum.fl (random + - (1 # 2))).
  rewrite Hs.
  destruct (double_bounds Hieee (- (1)) 1 (sq * inject_Z 2)
              (double_opp Hieee _ Hone) Hone) as (tq & Ht & Ht0 & Ht1);
    [unfold inject_Z; lra|].
  change (JsNum.mul (Finite sq) 2) with (JsNum.fl (sq * inject_Z 2)).
  rewrite Ht.
  destruct (double_bounds Hieee jq (- jq) (tq * jq) Hjd (double_opp Hieee _ Hjd))
    as (uq & Hu & Hu0 & Hu1).
  { assert (Hneg : (0 <= - jq)%Q) by lra. split.
    - assert (H : (tq * (- jq) <= 1 * (- jq))%Q) by (apply Qmult_le_compat_r; assumption).
      lra.
    - assert (H : ((- (1)) * (- jq) <= tq * (- jq))%Q) by (apply Qmult_le_compat_r; assumption).
      lra. }
  change (JsNum.mul (Finite tq) (Finite jq)) with (JsNum.fl (tq * jq)).
  rewrite Hu.
  change (JsNum.add (Finite q) (Finite uq)) with (JsNum.fl (q + uq)).
  assert (Hle : JsNum.le (JsNum.fl (q + uq)) (JsNum.ofZ 0) = true).
  { change (JsNum.ofZ 0) with (JsNum.fl 0). apply (fl_monotone Hieee). lra. }
  unfold JsNum.max.
  destruct (JsNum.fl (q + uq)) as [|[|]|r]; try discriminate; try reflexivity.
  apply le_finite in Hle. unfold JsNum.compare, JsNum.ofZ.
  destruct (Qcompare_spec (inject_Z 0) r) as [H|H|H]; try reflexivity.
  unfold inject_Z in *. lra.
Qed.

(** [x + x * 0.25] of a double that is not negative: it is not negative,
    and it grows with [x]. *)
Lemma margin_monotone (Hieee : IEEE E) (q p : Q) :
  (0 <= q)%Q -> (q <= p)%Q -> isDouble (Finite q) -> isDouble (Finite p) ->
  JsNum.le 0 (JsNum.add (Finite p) (JsNum.mul (Finite p) (Finite (1 # 4)))) = true /\
  JsNum.le (JsNum.add (Finite q) (JsNum.mul (Finite q) (Finite (1 # 4))))
    (JsNum.add (Finite p) (JsNum.mul (Finite p) (Finite (1 # 4)))) = true.
Proof.
  intros Hq Hqp Hdq Hdp.
  assert (Hzero : isDouble (Finite 0)) by exact (double_integer Hieee 0 ltac:(vm_compute; discriminate)).
  destruct (double_bounds Hieee 0 q (q * (1 # 4)) Hzero Hdq) as (jq & Hjq & Hjq0 & Hjq1); [lra|].
  destruct (double_bounds Hieee 0 p (p * (1 # 4)) Hzero Hdp) as (jp & Hjp & Hjp0 & Hjp1); [lra|].
  assert (Hj : (jq <= jp)%Q).
  { apply le_finite. rewrite <- Hjq, <- Hjp. apply (fl_monotone Hieee).
    apply Qmult_le_compat_r; [exact Hqp|lra]. }
  change (JsNum.mul (Finite q) (Finite (1 # 4))) with (JsNum.fl (q * (1 # 4))).
  change (JsNum.mul (Finite p) (Finite (1 # 4))) with (JsNum.fl (p * (1 # 4))).
  rewrite Hjq, Hjp.
  change (JsNum.add (Finite q) (Finite jq)) with (JsNum.fl (q + jq)).
  change (JsNum.add (Finite p) (Finite jp)) with (JsNum.fl (p + jp)).
  split.
  - change (JsNum.ofZ 0) with (JsNum.fl 0). apply (fl_monotone Hieee). lra.
  - apply (fl_monotone Hieee). lra.
Qed.

End BackoffCap.

(** ** Retry: the cap of the delay *)

(** X7.  For a configuration whose [maxDelay] is a number that is not
    negative, and [Math.random()] in [0, 1): without jitter the delay never
    exceeds [maxDelay] (the test [delay > maxDelay] fails, the delay being
    [NaN] when the product is); with jitter, [maxDelay] being a double and
    rounding to the nearest double being monotone, odd and exact on doubles,
    it never exceeds [maxDelay + maxDelay * 0.25] as computed in
    doubles. *)
Theorem backoff_delay_is_capped
    (E : Engine) (random : Q) (n : nat) (cfg : Retry.RetryConfig) (cap : JsNumber)
    (Hrandom : (0 <= random /\ random < 1)%Q)
    (Hcap : Retry.maxDelay cfg = Some cap)
    (Hpos : JsNum.ge cap 0 = true) :
  let d := Retry.calculateBackoffDelay random n cfg in
  (Retry.jitter cfg <> Some true -> JsNum.gt d cap = false) /\
  (Retry.jitter cfg = Some true -> IEEE E -> isDouble cap ->
   JsNum.gt d (JsNum.add cap (JsNum.mul cap (Finite (1 # 4)))) = false).
Proof.
  destruct Hrandom as [Hr0 Hr1]. intros d. split.
  - intros Hoff. unfold d, Retry.calculateBackoffDelay, Retry.cappedDelay.
    rewrite Hcap. cbn [JsNum.toNumber].
    destruct (Retry.jitter cfg) as [[|]|]; [congruence|apply capped_plain; exact Hpos..].
  - intros Hon Hieee Hdouble.
    assert (Hm : isDouble (Retry.cappedDelay n cfg)).
    { apply (cappedDelay_double Hieee). rewrite Hcap. exact Hdouble. }
    unfold d, Retry.calculateBackoffDelay. rewrite Hon. cbn [truthy].
    assert (Hmin : Retry.cappedDelay n cfg = NaN \/
                   JsNum.le (Retry.cappedDelay n cfg) cap = true).
    { unfold Retry.cappedDelay. rewrite Hcap. cbn [JsNum.toNumber]. apply min_le_r. }
    destruct (Retry.cappedDelay n cfg) as [|[|]|q] eqn:Em.
    + cbn [JsNum.add JsNum.max JsNum.compare JsNum.ofZ]. apply gt_nan.
    + destruct cap as [|[|]|p]; try discriminate; [apply gt_infinity|].
      unfold JsNum.ge in Hpos. apply le_finite in Hpos.
      assert (Hp : (0 <= p)%Q) by (unfold inject_Z in Hpos; lra).
      destruct (margin_monotone Hieee p p Hp ltac:(lra) Hdouble Hdouble) as [Hbound _].
      assert (Hzero : isDouble (Finite 0))
        by exact (double_integer Hieee 0 ltac:(vm_compute; discriminate)).
      assert (Hone : isDouble (Finite 1))
        by exact (double_integer Hieee 1 ltac:(vm_compute; discriminate)).
      assert (Hhalf := double_half Hieee).
      destruct (double_bounds Hieee (- (1 # 2)) (1 # 2) (random + - (1 # 2))
                  (double_opp Hieee _ Hhalf) Hhalf) as (sq & Hs & Hs0 & Hs1); [lra|].
      change (JsNum.sub (Finite random) (Finite (1 # 2)))
        with (JsNum.fl (random + - (1 # 2))).
      rewrite Hs.
      destruct (double_bounds Hieee (- (1)) 1 (sq * inject_Z 2)
                  (double_opp Hieee _ Hone) Hone) as (tq & Ht & Ht0 & Ht1);
        [unfold inject_Z; lra|].
      change (JsNum.mul (Finite sq) 2) with (JsNum.fl (sq * inject_Z 2)).
      rewrite Ht.
      change (JsNum.mul (Infinity true) (Finite (1 # 4))) with (Infinity true).
      change (JsNum.mul (Finite tq) (Infinity true)) with (JsNum.scaleInfinity true tq).
      unfold JsNum.scaleInfinity.
      destruct (tq ?= 0)%Q;
        cbn [JsNum.add negb Bool.eqb JsNum.max JsNum.compare JsNum.ofZ];
        first [apply gt_nan|apply le_not_gt; exact Hbound].
    + destruct Hmin as [Hmin|Hmin]; [discriminate|].
      destruct cap as [|[|]|p]; try discriminate. apply gt_infinity.
    + destruct Hmin as [Hmin|Hmin]; [discriminate|].
      destruct cap as [|[|]|p]; try discriminate; [apply gt_infinity|].
      apply le_finite in Hmin.
      unfold JsNum.ge in Hpos. apply le_finite in Hpos.
      assert (Hp : (0 <= p)%Q) by (unfold inject_Z in Hpos; lra).
      destruct (Qlt_le_dec q 0) as [Hneg|Hq].
      * rewrite (jitter_negative Hieee random q Hr0 Hr1 ltac:(lra) Hm).
        apply le_not_gt.
        exact (proj1 (margin_monotone Hieee p p Hp ltac:(lra) Hdouble Hdouble)).
      * apply le_not_gt.
        apply (le_trans _ (JsNum.add (Finite q) (JsNum.mul (Finite q) (Finite (1 # 4))))).
        -- exact (proj2 (jitter_band Hieee random q Hr0 Hr1 Hq Hm)).
        -- exact (proj2 (margin_monotone Hieee q p Hq Hmin Hm Hdouble)).
Qed.

(** X7 with exact arithmetic at attempt 10 of the default configuration:
    without jitter the delay is the cap, 30000 ms; with jitter and
    [Math.random() = 3/4] it is 33750 ms, below 37500 ms. *)
Lemma backoff_delay_is_capped_witness :
  let plain :=
    Retry.mkRetryConfig (Some (JsNum.ofZ 3)) (Some (JsNum.ofZ 1000))
      (Some (JsNum.ofZ 30000)) (Some (JsNum.ofZ 2)) (Some false) in
  (Retry.calculateBackoffDelay (E := exactEngine) (3 # 4) 10 plain = Finite 30000 /\
   JsNum.gt (Retry.calculateBackoffDelay (E := exactEngine) (3 # 4) 10 plain)
     (JsNum.ofZ 30000) = false) /\
  (Retry.calculateBackoffDelay (E := exactEngine) (3 # 4) 10 Retry.DEFAULT_RETRY_CONFIG
     = Finite 33750 /\
   JsNum.gt (Retry.calculateBackoffDelay (E := exactEngine) (3 # 4) 10
               Retry.DEFAULT_RETRY_CONFIG) (Finite 37500) = false).
Proof.
  intros plain.
  assert (Hr : (0 <= 3 # 4 /\ 3 # 4 < 1)%Q) by (split; reflexivity || discriminate).
  split; (split; [vm_compute; reflexivity|]).
  - exact (proj1 (backoff_delay_is_capped exactEngine (3 # 4) 10 plain (JsNum.ofZ 30000)
                    Hr eq_refl eq_refl) ltac:(discriminate)).
  - exact (proj2 (backoff_delay_is_capped exactEngine (3 # 4) 10 Retry.DEFAULT_RETRY_CONFIG
                    (JsNum.ofZ 30000) Hr eq_refl eq_refl)
             eq_refl exactEngine_IEEE (eq_same 30000)).
Defined.

(** ** Retry: a call that allows no attempt, and what a run sleeps *)

(** X9.  A caller who gives [maxAttempts] a value for which
    [0 < maxAttempts] fails (a number that is not positive, [NaN], or
    [undefined]) gets no attempt: [withRetry] does not invoke the operation,
    does not sleep, and rejects at the first test of the loop condition with
    the RetryableError of exhausted retries, whose cause is [undefined] and
    whose message prints [maxAttempts] as a template literal does:
    'undefined', 'NaN', '-Infinity', or the decimal digits of an integer
    down to -2^53. *)
Theorem withRetry_without_attempts
    (E : Engine) (T : Type) (operation : nat -> Retry.Invocation T) (random : nat -> Q)
    (config : Retry.PartialRetryConfig) (token : option Retry.CancellationToken)
    (st : Retry.RunState) (fuel : nat)
    (Hmax : allowsNoAttempt config) :
  exists text : string,
    Retry.withRetry operation random (S fuel) config token st =
      Some (Retry.Rejected (ThrownError
              (RetryableError ("Operation failed after " ++ text ++ " attempts") None)),
            st) /\
    (Retry.maxAttempts' config = Present None -> text = "undefined"%string) /\
    (Retry.maxAttempts' config = Present (Some NaN) -> text = "NaN"%string) /\
    (Retry.maxAttempts' config = Present (Some (Infinity true)) ->
     text = "-Infinity"%string) /\
    (forall (m : JsNumber) (n : Z),
        Retry.maxAttempts' config = Present (Some m) -> isInteger m n ->
        - 2 ^ 53 <= n -> text = NilZero.string_of_int (Z.to_int n)).
Proof.
  unfold allowsNoAttempt in Hmax. unfold Retry.withRetry, Retry.spread.
  cbn [Retry.retryLoop Retry.maxAttempts].
  destruct (Retry.maxAttempts' config) as [|[m|]] eqn:Ek; [destruct Hmax| |];
    cbn [spreadKey JsNum.toNumber].
  - change (JsNum.lt (JsNum.ofNat 0) m) with (JsNum.gt m 0). rewrite Hmax.
    exists (JsNum.toString m). unfold Retry.exhausted. cbn [Retry.maxAttempts JsNum.template].
    split; [reflexivity|]. split; [discriminate|].
    split; [intros [= ->]; reflexivity|]. split; [intros [= ->]; reflexivity|].
    intros m' n [= <-] Hint Hlow. apply toString_integer; [exact Hint|].
    assert (Hle : n <= 0).
    { destruct (Z.ltb_spec 0 n) as [Hpos|]; [|assumption].
      unfold JsNum.gt in Hmax. rewrite (lt_integer 0 m n Hint) in Hmax.
      apply Z.ltb_ge in Hmax. exact Hmax. }
    assert (0 <= 2 ^ 53) by (vm_compute; discriminate). lia.
  - exists "undefined"%string. unfold Retry.exhausted.
    cbn [Retry.maxAttempts JsNum.template JsNum.lt JsNum.compare JsNum.ofNat JsNum.ofZ].
    split; [reflexivity|]. split; [reflexivity|].
    split; [discriminate|]. split; [discriminate|]. intros m n Hm. discriminate Hm.
Qed.

(** X9 at [maxAttempts = -5]: no call, and the message reads
    'Operation failed after -5 attempts'. *)
Lemma withRetry_without_attempts_witness :
  Retry.withRetry (E := exactEngine) alwaysFail (fun _ => 1 # 2) 1
    (Retry.mkPartial (Present (Some (JsNum.ofZ (-5)))) Absent Absent
       Absent Absent) None Retry.start
  = Some (Retry.Rejected (ThrownError
            (RetryableError "Operation failed after -5 attempts" None)), Retry.start).
Proof.
  destruct (withRetry_without_attempts exactEngine string alwaysFail (fun _ => 1 # 2)
              (Retry.mkPartial (Present (Some (JsNum.ofZ (-5)))) Absent
                 Absent Absent Absent) None Retry.start 0 eq_refl)
    as (text & Hrun & _ & _ & _ & Htext).
  rewrite (Htext (JsNum.ofZ (-5)) (-5) eq_refl eq_refl ltac:(vm_compute; discriminate)) in Hrun.
  exact Hrun.
Defined.

(** With [maxAttempts = 2.5] the test [attempt === maxAttempts - 1] never
    holds: three attempts are made, each followed by a sleep, and the loop
    ends by its condition (here with exact arithmetic). *)
Lemma withRetry_fractional_maxAttempts :
  exists r st,
    Retry.withRetry (E := exactEngine) alwaysFail (fun _ => 1 # 2) 4
      (Retry.mkPartial (Present (Some (Finite (5 # 2))))
         (Present (Some (JsNum.ofZ 100))) Absent Absent
         (Present (Some false))) None Retry.start = Some (r, st) /\
    Retry.calls st = 3%nat /\
    Retry.sleeps st = [Finite 100; Finite 200; Finite 400].
Proof. eexists _, _. vm_compute. repeat split. Qed.

(** X10.  For a caller that asks for [n] attempts, [n] an integer from 1
    to 2^53 given as [maxAttempts] or the default 3, and no cancellation,
    [withRetry] hands [sleep] exactly the backoff delays of the attempts
    that failed before another one was due, in order: after [k < n]
    failures followed by a success, the delays of attempts 0 .. k-1; when
    every attempt fails, the delays of attempts 0 .. n-2, and none after
    the last attempt. *)
Theorem withRetry_sleeps_the_schedule
    (E : Engine) (T : Type) (operation : nat -> Retry.Invocation T) (random : nat -> Q)
    (config : Retry.PartialRetryConfig) (token : option Retry.CancellationToken)
    (n : Z) (fuel : nat)
    (Hconfig : allowsAttempts config n)
    (Hmax : 1 <= n <= 2 ^ 53)
    (Hfuel : n <= Z.of_nat fuel)
    (Hlive : neverCancelled token) :
  let cfg := Retry.spread Retry.DEFAULT_RETRY_CONFIG config in
  let result := Retry.withRetry operation random fuel config token Retry.start in
  (forall (k : nat) (v : T),
      Z.of_nat k < n ->
      (forall i, (i < k)%nat -> failsRetryably (operation i)) ->
      Retry.outcome (operation k) = Retry.Resolved v ->
      exists st,
        result = Some (Retry.Resolved v, st) /\
        Retry.sleeps st = backoffSchedule random cfg 0 k) /\
  ((forall i, failsRetryably (operation i)) ->
      exists r st,
        result = Some (r, st) /\
        Retry.sleeps st = backoffSchedule random cfg 0 (Z.to_nat (n - 1))).
Proof.
  intros cfg result. subst result. unfold Retry.withRetry.
  destruct (allowed_integer config n Hconfig) as (m & Hm & Hint).
  fold cfg in Hm |- *.
  assert (Hn : isInteger (JsNum.toNumber (Retry.maxAttempts cfg)) n)
    by (rewrite Hm; exact Hint).
  split.
  - intros k v Hk Hfail Hok.
    destruct (retryLoop_fails_then_succeeds operation random cfg token v n Hn
                (proj2 Hmax) Hlive k fuel 0%nat None Retry.start)
      as (st' & Hrun & _ & Hs); [lia|simpl; lia|exact Hfail|exact Hok|].
    exists st'. split; [exact Hrun|exact Hs].
  - intros Hfail.
    destruct (retryLoop_always_fails operation random cfg token n Hn
                (proj2 Hmax) Hlive Hfail (Z.to_nat (n - 1)) fuel 0%nat None Retry.start)
      as (st' & last & Hrun & _ & _ & Hs); [lia|lia|].
    eexists _, st'. split; [exact Hrun|exact Hs].
Qed.

(** X10 on the operation that fails twice and then succeeds, with five
    attempts allowed and exact arithmetic: two sleeps, of 100 ms and
    200 ms. *)
Lemma withRetry_sleeps_the_schedule_witness :
  exists st,
    Retry.withRetry (E := exactEngine) failTwiceThenSucceed (fun _ => 1 # 2) 5
      fiveAttempts None Retry.start = Some (Retry.Resolved "success"%string, st) /\
    Retry.sleeps st = [Finite 100; Finite 200].
Proof.
  assert (Hconfig : allowsAttempts fiveAttempts 5) by reflexivity.
  assert (Hmax : 1 <= 5 <= 2 ^ 53) by (split; vm_compute; discriminate).
  assert (Hfuel : 5 <= Z.of_nat 5) by (vm_compute; discriminate).
  assert (Hlive : neverCancelled None) by (intros now; reflexivity).
  apply (proj1 (withRetry_sleeps_the_schedule exactEngine string failTwiceThenSucceed
                  (fun _ => 1 # 2) fiveAttempts None 5 5 Hconfig Hmax Hfuel Hlive)
           2%nat "success"%string).
  - reflexivity.
  - intros i Hi. exists (ThrownError (Error "fail")).
    destruct i as [|[|i]]; [split; reflexivity..|lia].
  - reflexivity.
Defined.

(** X11.  A cancellation that arrives during a backoff sleep ends the call
    at that instant: when an attempt that the loop allows and that is not
    the last one ([attempt < maxAttempts] holds and
    [attempt === maxAttempts - 1] does not) fails with an ordinary error
    and the token is cancelled strictly between the end of that attempt and
    the instant the timer of the sleep that follows would run, [withRetry]
    rejects with the plain Error 'Operation was cancelled' at the instant
    of the cancellation, and the operation is not invoked again. *)
Theorem cancellation_interrupts_backoff
    (E : Engine) (T : Type) (operation : nat -> Retry.Invocation T) (random : nat -> Q)
    (config : Retry.RetryConfig) (fuel attempt : nat) (lastError : option JsError)
    (st : Retry.RunState) (c : Q) (error : Thrown)
    (Hattempt : JsNum.lt (JsNum.ofNat attempt)
                  (JsNum.toNumber (Retry.maxAttempts config)) = true)
    (Hnotlast : JsNum.eq (JsNum.ofNat attempt)
                  (JsNum.sub (JsNum.toNumber (Retry.maxAttempts config)) 1) = false)
    (Hfails : Retry.outcome (operation (Retry.calls st)) = Retry.Rejected error)
    (Hretryable : isNonRetryable error = false)
    (Hstart : (Retry.now st < c)%Q)
    (Hafter : (Retry.now st + Retry.duration (operation (Retry.calls st)) < c)%Q)
    (Hbefore : (c < Retry.now st + Retry.duration (operation (Retry.calls st))
                    + timer (Retry.calculateBackoffDelay (random attempt) attempt config))%Q) :
  Retry.retryLoop operation random (S fuel) config (Some (Retry.mkToken (Some c)))
    attempt lastError st
  = Some (Retry.Rejected (ThrownError (Error "Operation was cancelled")),
          Retry.mkRun c (S (Retry.calls st))
            (Retry.sleeps st
               ++ [Retry.calculateBackoffDelay (random attempt) attempt config])).
Proof.
  cbn [Retry.retryLoop]. rewrite Hattempt.
  unfold Retry.attemptOnce. cbn [Retry.isCancelledAt Retry.cancelTime].
  assert (Hfalse : forall x y : Q, (y < x)%Q -> Qle_bool x y = false).
  { intros x y Hlt. destruct (Qle_bool x y) eqn:Eb; [|reflexivity].
    apply Qle_bool_iff in Eb. lra. }
  rewrite (Hfalse _ _ Hstart), Hfails, Hretryable, Hnotlast.
  unfold Retry.sleep, Retry.firesDuring.
  cbn [Retry.isCancelledAt Retry.cancelTime Retry.now Retry.calls Retry.sleeps].
  rewrite (Hfalse _ _ Hafter), (Hfalse _ _ Hbefore). reflexivity.
Qed.

(** X11 with exact arithmetic and a timer that runs on time: the first
    attempt fails after 5 ms, the sleep that follows lasts 100 ms, the
    token is cancelled at 50 ms. *)
Lemma cancellation_interrupts_backoff_witness :
  Retry.retryLoop (E := exactEngine) alwaysFail (fun _ => 1 # 2) 3
    (Retry.spread Retry.DEFAULT_RETRY_CONFIG threeAttempts)
    (Some (Retry.mkToken (Some 50%Q))) 0 None Retry.start
  = Some (Retry.Rejected (ThrownError (Error "Operation was cancelled")),
          Retry.mkRun 50 1 [Finite 100]).
Proof.
  exact (cancellation_interrupts_backoff exactEngine string alwaysFail (fun _ => 1 # 2)
           (Retry.spread Retry.DEFAULT_RETRY_CONFIG threeAttempts) 2 0 None Retry.start
           50%Q (ThrownError (Error "persistent failure"))
           eq_refl eq_refl eq_refl eq_refl eq_refl eq_refl eq_refl).
Defined.

(** ** ConcurrencyLimiter: counters, hand-over and results *)

Section LimiterCounters.
Context {V : Type}.
Import Limiter.

(** With the hooks in place no queued record has a cancelled token, so
    [processQueue] either stops or starts the head of the queue. *)
Lemma processQueueLoop_hooked fuel (w : World V) :
  HookInv w ->
  processQueueLoop (S fuel) w =
    if JsNum.ge (JsNum.ofZ (running w)) (maxConcurrent (config w))
       || (Nat.eqb (length (queue w)) 0)
    then w
    else match queue w with
         | [] => w
         | r :: rest => invoke (opId r) (setRunning (running w + 1) (setQueue rest w))
         end.
Proof.
  intros Hh. simpl. destruct (_ || _); [reflexivity|].
  destruct (queue w) as [|r rest] eqn:E; [reflexivity|].
  unfold executeImmediateWith.
  assert (Hlive : tokenCancelled (setRunning (running (setQueue rest w) + 1) (setQueue rest w))
                    (cancellationToken r) = false).
  { unfold tokenCancelled. destruct (cancellationToken r) as [t|] eqn:Et; [|reflexivity].
    destruct (Hh r t) as [Hl _]; [rewrite E; left; reflexivity|exact Et|exact Hl]. }
  rewrite Hlive. reflexivity.
Qed.

Lemma size_inflight_add (op : OpId) (s : gset OpId) :
  op ∉ s -> size ({[op]} ∪ s) = S (size s).
Proof.
  intros H. rewrite size_union.
  - rewrite size_singleton. reflexivity.
  - intros x Hx Hs. apply elem_of_singleton in Hx. subst. contradiction.
Qed.

Lemma size_inflight_remove (op : OpId) (s : gset OpId) :
  op ∈ s -> S (size (s ∖ {[op]})) = size s.
Proof.
  intros H.
  rewrite (union_difference_singleton_L op s H) at 2.
  rewrite size_inflight_add; [reflexivity|].
  intros Hin. apply elem_of_difference in Hin as [_ Hne]. apply Hne.
  apply elem_of_singleton. reflexivity.
Qed.

Lemma FlightInv_settle i s (w : World V) :
  FlightInv w -> i ∉ inflight w -> FlightInv (settle i s w).
Proof.
  intros (H1 & H2 & H3 & H4) Hi. unfold FlightInv.
  destruct (settle_fields i s w) as (-> & -> & -> & _ & _ & -> & _).
  repeat split; try assumption.
  intros j Hj. rewrite settle_lookup. case_decide; subst; [contradiction|auto].
Qed.

Lemma FlightInv_start (r : QueuedOperation) (w : World V) :
  FlightInv w ->
  JsNum.ge (JsNum.ofZ (running w)) (maxConcurrent (config w)) = false ->
  opId r ∉ inflight w -> promises w !! opId r = None ->
  FlightInv (invoke (opId r) (setRunning (running w + 1) w)).
Proof.
  intros (H1 & H2 & H3 & H4) Hlt Hnew Hunset. unfold FlightInv.
  cbn [invoke setRunning running inflight queue config promises].
  rewrite size_inflight_add by exact Hnew.
  split; [lia|]. split; [|split; [exact H3|]].
  - intros _. replace (running w + 1 - 1) with (running w) by lia. exact Hlt.
  - intros j Hj. apply elem_of_union in Hj as [Hj|Hj]; [|auto].
    apply elem_of_singleton in Hj. subst. exact Hunset.
Qed.

Lemma FlightInv_processQueue (w : World V) :
  QueueInv w -> HookInv w -> FlightInv w -> FlightInv (processQueue w).
Proof.
  intros Hq Hh Hf. unfold processQueue. rewrite processQueueLoop_hooked by exact Hh.
  destruct (JsNum.ge (JsNum.ofZ (running w)) (maxConcurrent (config w))) eqn:Hlt;
    [exact Hf|].
  cbn [orb]. destruct (queue w) as [|r rest] eqn:E; [exact Hf|]. cbn [length Nat.eqb].
  assert (Hid : In (opId r) (queuedIds w)) by (unfold queuedIds; rewrite E; left; reflexivity).
  assert (Hnew : opId r ∉ inflight w).
  { intros Hin. apply (inv_not_invoked w Hq _ Hid). apply (inv_inflight w Hq). exact Hin. }
  assert (Hunset := inv_unsettled w Hq _ Hid).
  destruct Hf as (H1 & H2 & H3 & H4).
  assert (Hf' : FlightInv (setQueue rest w)).
  { unfold FlightInv. cbn [setQueue running inflight queue config promises].
    rewrite E in H3. cbn [length] in H3.
    split; [exact H1|]. split; [exact H2|]. split; [|exact H4].
    intros Hpos. apply (ge_down (Z.of_nat (S (length rest)) - 1)); [lia|].
    apply H3. lia. }
  exact (FlightInv_start r (setQueue rest w) Hf' Hlt Hnew Hunset).
Qed.

Lemma FlightInv_runCallback cb (w : World V) :
  QueueInv w -> FlightInv w -> FlightInv (runCallback cb w).
Proof.
  intros Hq Hf. destruct cb as [i]. unfold runCallback.
  destruct (isQueued i (queue w)) eqn:E; [|exact Hf].
  apply isQueued_In in E.
  apply FlightInv_settle.
  - destruct Hf as (H1 & H2 & H3 & H4). unfold FlightInv.
    cbn [setQueue running inflight queue config promises].
    split; [exact H1|]. split; [exact H2|]. split; [|exact H4].
    assert (Hlen : (length (removeQueued i (queue w)) <= length (queue w))%nat).
    { clear. induction (queue w) as [|x q IH]; simpl; [lia|].
      destruct (Nat.eqb (opId x) i); simpl; lia. }
    intros Hpos. apply (ge_down (Z.of_nat (length (queue w)) - 1)); [lia|].
    apply H3. lia.
  - simpl. intros Hin. apply (inv_not_invoked w Hq i E). apply (inv_inflight w Hq). exact Hin.
Qed.

Lemma FlightInv_callbacks cbs (w : World V) :
  QueueInv w -> FlightInv w ->
  FlightInv (fold_left (fun acc cb => runCallback cb acc) cbs w).
Proof.
  revert w. induction cbs as [|cb cbs IH]; intros w Hq Hf; simpl; [exact Hf|].
  apply IH; [apply QueueInv_runCallback; exact Hq|apply FlightInv_runCallback; assumption].
Qed.

Lemma FlightInv_step e (w : World V) : Inv w -> FlightInv w -> FlightInv (step w e).
Proof.
  intros [Hq Hh] Hf. destruct e as [token|op result|t]; simpl.
  - unfold execute.
    set (w0 := setNextOp (S (nextOp w)) w).
    assert (Hf0 : FlightInv w0) by exact Hf.
    assert (Hnew : nextOp w ∉ inflight w0).
    { simpl. intros Hin. apply (inv_inflight w Hq) in Hin.
      apply (inv_invoked_lt w Hq) in Hin. lia. }
    assert (Hunset : promises w0 !! nextOp w = None).
    { simpl. destruct (promises w !! nextOp w) eqn:E; [|reflexivity].
      apply (inv_promises_lt w Hq) in E. lia. }
    destruct (tokenCancelled w0 token) eqn:Ec.
    { apply FlightInv_settle; assumption. }
    destruct (JsNum.lt (JsNum.ofZ (running w0)) (maxConcurrent (config w0))) eqn:Hlt.
    { unfold executeImmediate, executeImmediateWith.
      change (tokenCancelled (setRunning (running w0 + 1) w0)
                (cancellationToken (mkQueued (nextOp w) token)))
        with (tokenCancelled w0 token).
      rewrite Ec.
      exact (FlightInv_start (mkQueued (nextOp w) token) w0 Hf0
               (lt_ge_false _ _ Hlt) Hnew Hunset). }
    destruct (JsNum.ge (JsNum.ofZ (Z.of_nat (length (queue w0)))) (queueLimit (config w0)))
      eqn:Hroom.
    { apply FlightInv_settle; assumption. }
    assert (Hpush : FlightInv (setQueue (queue w0 ++ [mkQueued (nextOp w) token]) w0)).
    { destruct Hf0 as (H1 & H2 & H3 & H4). unfold FlightInv.
      cbn [setQueue running inflight queue config promises].
      split; [exact H1|]. split; [exact H2|]. split; [|exact H4].
      intros _. rewrite length_app. cbn [length].
      replace (Z.of_nat (length (queue w0) + 1) - 1) with (Z.of_nat (length (queue w0)))
        by lia.
      exact Hroom. }
    destruct token as [t|]; [|exact Hpush].
    unfold onCancelled.
    change (isCancelled (tokenState (setQueue (queue w0 ++ [mkQueued (nextOp w) (Some t)]) w0) t))
      with (tokenCancelled w0 (Some t)).
    rewrite Ec. exact Hpush.
  - unfold complete. destruct (decide (op ∈ inflight w)) as [Hin|]; [|exact Hf].
    assert (Hinvoked : In op (invoked w)) by (apply (inv_inflight w Hq); exact Hin).
    assert (Hnq : ~ In op (queuedIds w)).
    { intros Hqd. apply (inv_not_invoked w Hq op Hqd). exact Hinvoked. }
    set (s := match result with
              | inl v => Resolved v
              | inr error => Rejected (toError error)
              end).
    assert (Hw : match result with
                 | inl v => settle op (Resolved v) (landed op w)
                 | inr error => settle op (Rejected (toError error)) (landed op w)
                 end = settle op s (landed op w)) by (destruct result; reflexivity).
    rewrite Hw. clear Hw.
    assert (Hql : QueueInv (landed op w)).
    { destruct Hq. split; simpl; auto.
      intros j Hj. apply inv_inflight0. apply elem_of_difference in Hj as [Hj _]. exact Hj. }
    apply FlightInv_processQueue.
    + apply QueueInv_setRunning. apply QueueInv_settle; [exact Hql| |exact Hnq].
      simpl. apply (inv_invoked_lt w Hq). exact Hinvoked.
    + eapply (HookInv_shrinks w); [|exact Hh].
      destruct (shrinks_settle op s (landed op w)) as [Ht Hs]. split; assumption.
    + destruct Hf as (H1 & H2 & H3 & H4).
      destruct (settle_fields op s (landed op w)) as (Ec & Er & Eq & _ & _ & Ei & _).
      unfold FlightInv. cbn [setRunning running inflight queue config promises].
      rewrite Ec, Er, Eq, Ei. cbn [landed running inflight queue config promises].
      assert (Hsz := size_inflight_remove op (inflight w) Hin).
      split; [lia|]. split; [|split; [exact H3|]].
      { intros Hpos. apply (ge_down (running w - 1)); [lia|]. apply H2. lia. }
      intros j Hj. rewrite settle_lookup.
      apply elem_of_difference in Hj as [Hj Hne].
      case_decide; subst; [exfalso; apply Hne; set_solver|].
      simpl. apply H4. exact Hj.
  - unfold cancel. destruct (isCancelled (tokenState w t)); [exact Hf|].
    apply (FlightInv_callbacks (callbacks (tokenState w t))
             (setTokens (<[t := mkTokenState true (callbacks (tokenState w t))]> (tokens w)) w)).
    + apply QueueInv_setTokens. exact Hq.
    + exact Hf.
Qed.

Lemma FlightInv_run es (w : World V) : Inv w -> FlightInv w -> FlightInv (run w es).
Proof.
  revert w. induction es as [|e es IH]; intros w Hi Hf; [exact Hf|].
  unfold run in *. simpl. apply IH; [apply Inv_step; exact Hi|apply FlightInv_step; assumption].
Qed.

Lemma FlightInv_init cfg : FlightInv (init (V := V) cfg).
Proof.
  unfold FlightInv. cbn [init running inflight queue config promises length].
  split; [reflexivity|]. split; [lia|]. split; [lia|].
  intros i Hi. apply elem_of_empty in Hi. destruct Hi.
Qed.

End LimiterCounters.

(** X12.  In every state a limiter reaches, [running] is the number of
    operations in flight and is not negative; while an operation runs, the
    test [running - 1 >= maxConcurrent] fails, and while a record is
    queued, the test [queue.length - 1 >= queueLimit] fails.  So [running]
    never exceeds a finite [maxConcurrent] rounded up to an integer, nor
    the queue a finite [queueLimit] rounded up (nor 0, when the limit is
    negative): against integer limits that is [maxConcurrent] operations
    and [queueLimit] records, against 1.5 it is 2. *)
Theorem limiter_respects_its_limits
    (V : Type) (cfg : Limiter.ConcurrencyLimiterConfig) (history : list (Limiter.Event V)) :
  let w := Limiter.run (Limiter.init cfg) history in
  let queued := Z.of_nat (length (Limiter.queue w)) in
  Limiter.running w = Z.of_nat (size (Limiter.inflight w)) /\
  0 <= Limiter.running w /\
  (0 < Limiter.running w ->
   JsNum.ge (JsNum.ofZ (Limiter.running w - 1))
     (Limiter.maxConcurrent (Limiter.config w)) = false) /\
  (0 < queued ->
   JsNum.ge (JsNum.ofZ (queued - 1)) (Limiter.queueLimit (Limiter.config w)) = false) /\
  (forall q : Q, Limiter.maxConcurrent (Limiter.config w) = Finite q ->
                 Limiter.running w <= Z.max 0 (Qceiling q)) /\
  (forall q : Q, Limiter.queueLimit (Limiter.config w) = Finite q ->
                 queued <= Z.max 0 (Qceiling q)) /\
  (forall n : Z, isInteger (Limiter.maxConcurrent (Limiter.config w)) n ->
                 Limiter.running w <= Z.max 0 n) /\
  (forall n : Z, isInteger (Limiter.queueLimit (Limiter.config w)) n ->
                 queued <= Z.max 0 n).
Proof.
  intros w queued.
  destruct (FlightInv_run history (Limiter.init cfg) (Inv_init cfg) (FlightInv_init cfg))
    as (H1 & H2 & H3 & _).
  fold w in H1, H2, H3. fold queued in H3.
  split; [exact H1|]. split; [lia|]. split; [exact H2|]. split; [exact H3|].
  split; [|split; [|split]].
  - intros q Hq. destruct (Z.ltb_spec 0 (Limiter.running w)) as [Hpos|]; [|lia].
    rewrite Hq in H2. pose proof (below_ceiling _ _ (H2 Hpos)). lia.
  - intros q Hq. destruct (Z.ltb_spec 0 queued) as [Hpos|]; [|lia].
    rewrite Hq in H3. pose proof (below_ceiling _ _ (H3 Hpos)). lia.
  - intros n Hn. destruct (Z.ltb_spec 0 (Limiter.running w)) as [Hpos|]; [|lia].
    pose proof (below_integer _ _ _ Hn (H2 Hpos)). lia.
  - intros n Hn. destruct (Z.ltb_spec 0 queued) as [Hpos|]; [|lia].
    pose proof (below_integer _ _ _ Hn (H3 Hpos)). lia.
Qed.

(** With [maxConcurrent = 1.5] two calls run together and a third
    waits. *)
Lemma limiter_fractional_limit :
  let w := Limiter.run (V := string)
             (Limiter.init (Limiter.mkLimiterConfig (Finite (3 # 2)) 1))
             [Limiter.Execute None; Limiter.Execute None; Limiter.Execute None] in
  Limiter.running w = 2 /\ length (Limiter.queue w) = 1%nat.
Proof. vm_compute. split; reflexivity. Qed.

(** X13.  When an operation in flight settles, its own promise settles
    with that result (a thrown value normalised to an Error) and no other
    promise changes; if records are queued, the oldest one is started at
    once, so [running] stays as it was; otherwise [running] drops by one. *)
Theorem completion_hands_over_in_fifo_order
    (V : Type) (cfg : Limiter.ConcurrencyLimiterConfig) (history : list (Limiter.Event V))
    (op : Limiter.OpId) (result : V + Thrown) :
  let w := Limiter.run (Limiter.init cfg) history in
  op ∈ Limiter.inflight w ->
  let w' := Limiter.complete op result w in
  Limiter.promises w' = <[op := settlementOf result]> (Limiter.promises w) /\
  match Limiter.queue w with
  | [] =>
      Limiter.invoked w' = Limiter.invoked w /\
      Limiter.queue w' = [] /\
      Limiter.running w' = Limiter.running w - 1
  | oldest_ :: rest =>
      Limiter.invoked w' = Limiter.invoked w ++ [Limiter.opId oldest_] /\
      Limiter.queue w' = rest /\
      Limiter.running w' = Limiter.running w
  end.
Proof.
  intros w Hin w'.
  assert (Hinv : Inv w) by (apply Inv_run, Inv_init).
  assert (Hf : FlightInv w) by (apply FlightInv_run; [apply Inv_init|apply FlightInv_init]).
  destruct Hinv as [Hq Hh]. destruct Hf as (H1 & H2 & H3 & H4).
  assert (Hsz := size_inflight_remove op (Limiter.inflight w) Hin).
  clearbody w.
  unfold w', Limiter.complete. destruct (decide (op ∈ Limiter.inflight w)); [|contradiction].
  assert (Hw : match result with
               | inl v => Limiter.settle op (Limiter.Resolved v) (Limiter.landed op w)
               | inr error =>
                   Limiter.settle op (Limiter.Rejected (toError error)) (Limiter.landed op w)
               end = Limiter.setPromises (<[op := settlementOf result]> (Limiter.promises w))
                       (Limiter.landed op w)).
  { unfold Limiter.settle. simpl. rewrite (H4 op Hin). destruct result; reflexivity. }
  rewrite Hw. clear Hw.
  unfold Limiter.processQueue. rewrite processQueueLoop_hooked by exact Hh.
  simpl.
  cbn [Limiter.setPromises Limiter.setRunning Limiter.landed Limiter.running
       Limiter.config Limiter.queue Limiter.invoked Limiter.promises Limiter.invoke
       Limiter.setQueue].
  rewrite (ge_down (Limiter.running w - 1) (Limiter.running w - 1)) by (lia || (apply H2; lia)).
  cbn [orb]. destruct (Limiter.queue w) as [|r rest] eqn:E; cbn [length Nat.eqb].
  - repeat split. exact E.
  - cbn [Limiter.setPromises Limiter.setRunning Limiter.landed Limiter.running
         Limiter.config Limiter.queue Limiter.invoked Limiter.promises Limiter.invoke
         Limiter.setQueue].
    repeat split. lia.
Qed.

(** X13 on the limiter of the tests after one running and one queued call:
    when the first completes, the second is started. *)
Lemma completion_hands_over_in_fifo_order_witness :
  let w := Limiter.run (V := string) (Limiter.init (Limiter.mkLimiterConfig 1 1))
             [Limiter.Execute None; Limiter.Execute None] in
  Limiter.invoked (Limiter.complete 0%nat (inl "done"%string) w) = [0%nat; 1%nat].
Proof.
  intros w.
  assert (Hin : 0%nat ∈ Limiter.inflight w) by (vm_compute; set_solver).
  destruct (completion_hands_over_in_fifo_order string (Limiter.mkLimiterConfig 1 1)
              [Limiter.Execute None; Limiter.Execute None] 0%nat (inl "done"%string) Hin)
    as (_ & Hrest).
  exact (proj1 Hrest).
Defined.

(** ** WSClient: buffering while away, flushing on return *)

Section WSBuffer.
Context {Data : Type}.
Variable stringify : WS.WSEnvelope Data -> Thrown + string.
Variable estimateSize : WS.WSEnvelope Data -> Z.
Import WS.

Lemma enqueue_keeps_config {T : Type} {V : JsValue T} (size : T -> Z) (b : MessageBuffer.t T) (x : T) :
  BoundedQueue.config (MessageBuffer.base (snd (MessageBuffer.enqueue size b x)))
    = BoundedQueue.config (MessageBuffer.base b).
Proof.
  unfold MessageBuffer.enqueue.
  set (b1 := MessageBuffer.makeRoom size b (size x)).
  assert (H1 : BoundedQueue.config (MessageBuffer.base b1)
               = BoundedQueue.config (MessageBuffer.base b)).
  { unfold b1, MessageBuffer.makeRoom. destruct (_ && _); [|reflexivity].
    generalize (length (MessageBuffer.items b)). intros fuel. clear b1. revert b.
    induction fuel as [|fuel IH]; intros b; simpl; [reflexivity|].
    destruct (_ && _); [|reflexivity]. rewrite IH.
    unfold MessageBuffer.evictOne, MessageBuffer.dequeue, BoundedQueue.dequeue.
    destruct (BoundedQueue.items (MessageBuffer.base b)) as [|d rest]; [reflexivity|].
    simpl. destruct (isUndefined d) eqn:Eu; simpl; rewrite ?Eu; reflexivity. }
  pose proof (config_step (MessageBuffer.base b1) (BoundedQueue.Enqueue x)) as H2.
  simpl in H2.
  destruct (BoundedQueue.enqueue (MessageBuffer.base b1) x) as [[|] q]; simpl in *; congruence.
Qed.

Lemma dequeue_keeps_config {T : Type} {V : JsValue T} (size : T -> Z) (b : MessageBuffer.t T) :
  BoundedQueue.config (MessageBuffer.base (snd (MessageBuffer.dequeue size b)))
    = BoundedQueue.config (MessageBuffer.base b).
Proof.
  unfold MessageBuffer.dequeue, BoundedQueue.dequeue.
  destruct (BoundedQueue.items (MessageBuffer.base b)) as [|d rest]; [reflexivity|].
  simpl. destruct (isUndefined d); reflexivity.
Qed.

Lemma send_keeps_bufferConfig type payload correlationId nowIso (c : WSClient Data) :
  bufferConfig (snd (send stringify estimateSize type payload correlationId nowIso c))
    = bufferConfig c.
Proof.
  unfold send, bufferConfig.
  destruct (isConnected (state c)), (ws c) as [socket|]; simpl;
    try (pose proof (enqueue_keeps_config estimateSize (messageBuffer c)
                       {| v := 1; t := type; seq := lastSeq c + 1; corr := correlationId;
                          t_wall := nowIso; data := payload |}) as H;
         destruct (MessageBuffer.enqueue _ _ _); exact H).
  destruct (stringify _) as [error|message]; [reflexivity|].
  destruct (JsNum.gt _ _); [reflexivity|].
  destruct (socketSend socket message); reflexivity.
Qed.

Lemma flushLoop_keeps_bufferConfig fuel (c : WSClient Data) :
  bufferConfig (flushLoop stringify estimateSize fuel c) = bufferConfig c.
Proof.
  revert c. induction fuel as [|fuel IH]; intros c; simpl; [reflexivity|].
  destruct (MessageBuffer.isEmpty _); [reflexivity|].
  pose proof (dequeue_keeps_config estimateSize (messageBuffer c)) as Hd.
  destruct (MessageBuffer.dequeue _ _) as [message buffer]. simpl in Hd.
  destruct message as [m|], (ws c) as [socket|]; try (rewrite IH; exact Hd).
  destruct (readyState socket); try (rewrite IH; exact Hd).
  destruct (stringify m) as [error|text]; [exact Hd|].
  destruct (socketSend socket text) as [e|socket']; [exact Hd|].
  rewrite IH. exact Hd.
Qed.

Lemma run_keeps_bufferConfig (es : list (Event Data)) (c : WSClient Data) :
  bufferConfig (run stringify estimateSize c es) = bufferConfig c.
Proof.
  revert c. induction es as [|e es IH]; intros c; [reflexivity|].
  unfold run in *. simpl. rewrite IH.
  destruct e; simpl.
  - apply send_keeps_bufferConfig.
  - reflexivity.
  - apply flushLoop_keeps_bufferConfig.
Qed.

(** Under 'oldest' the buffer admits every item, as its last one. *)
Lemma enqueue_oldest_admits {T : Type} {V : JsValue T} (size : T -> Z) (b : MessageBuffer.t T) (x : T) :
  dropStrategy (BoundedQueue.config (MessageBuffer.base b)) = oldest ->
  fst (MessageBuffer.enqueue size b x) = true /\
  exists kept, MessageBuffer.items (snd (MessageBuffer.enqueue size b x)) = kept ++ [x].
Proof.
  intros Hold. unfold MessageBuffer.enqueue.
  set (b1 := MessageBuffer.makeRoom size b (size x)).
  assert (H1 : BoundedQueue.config (MessageBuffer.base b1)
               = BoundedQueue.config (MessageBuffer.base b)).
  { unfold b1, MessageBuffer.makeRoom. destruct (_ && _); [|reflexivity].
    generalize (length (MessageBuffer.items b)). intros fuel. clear b1. revert b Hold.
    induction fuel as [|fuel IH]; intros b Hold; simpl; [reflexivity|].
    destruct (_ && _); [|reflexivity]. rewrite IH.
    - unfold MessageBuffer.evictOne, MessageBuffer.dequeue, BoundedQueue.dequeue.
      destruct (BoundedQueue.items (MessageBuffer.base b)) as [|d rest]; [reflexivity|].
      simpl. destruct (isUndefined d) eqn:Eu; simpl; rewrite ?Eu; reflexivity.
    - unfold MessageBuffer.evictOne, MessageBuffer.dequeue, BoundedQueue.dequeue.
      destruct (BoundedQueue.items (MessageBuffer.base b)) as [|d rest]; [exact Hold|].
      simpl. destruct (isUndefined d) eqn:Eu; simpl; rewrite ?Eu; exact Hold. }
  unfold BoundedQueue.enqueue. rewrite H1, Hold.
  destruct (JsNum.lt _ _); simpl.
  - split; [reflexivity|]. exists (BoundedQueue.items (MessageBuffer.base b1)). reflexivity.
  - destruct (BoundedQueue.items (MessageBuffer.base b1)) as [|d rest]; simpl.
    + split; [reflexivity|]. exists []. reflexivity.
    + destruct (isUndefined d); simpl; (split; [reflexivity|]); exists rest; reflexivity.
Qed.

Lemma isEmpty_items {T : Type} {V : JsValue T} (b : MessageBuffer.t T) :
  MessageBuffer.isEmpty b = true <-> MessageBuffer.items b = [].
Proof.
  unfold MessageBuffer.isEmpty, MessageBuffer.items, BoundedQueue.isEmpty, BoundedQueue.size.
  rewrite Z.eqb_eq. destruct (BoundedQueue.items (MessageBuffer.base b)); simpl; split;
    intros H; (reflexivity || discriminate || lia).
Qed.

(** Flushing through an open socket. *)
Lemma flushLoop_open (messages : list (WSEnvelope Data)) :
  forall (fuel : nat) (c : WSClient Data) (sent : list string),
    MessageBuffer.items (messageBuffer c) = messages ->
    (length messages <= fuel)%nat ->
    ws c = Some (mkSocket OPEN sent) ->
    (forall m, In m messages -> exists text, stringify m = inr text) ->
    exists texts,
      serialised stringify messages texts /\
      ws (flushLoop stringify estimateSize fuel c) = Some (mkSocket OPEN (sent ++ texts)) /\
      MessageBuffer.items (messageBuffer (flushLoop stringify estimateSize fuel c)) = [].
Proof.
  induction messages as [|m rest IH]; intros fuel c sent Hitems Hfuel Hws Hser.
  - exists []. split; [constructor|].
    destruct fuel as [|fuel]; simpl.
    + rewrite app_nil_r. split; assumption.
    + apply isEmpty_items in Hitems as He. rewrite He. rewrite app_nil_r. split; assumption.
  - destruct fuel as [|fuel]; [simpl in Hfuel; lia|]. simpl.
    destruct (MessageBuffer.isEmpty (messageBuffer c)) eqn:He.
    { apply isEmpty_items in He. congruence. }
    unfold MessageBuffer.dequeue, BoundedQueue.dequeue.
    unfold MessageBuffer.items in Hitems. rewrite Hitems. rewrite Hws. simpl.
    destruct (Hser m (or_introl eq_refl)) as [text Htext]. rewrite Htext.
    match goal with
    | |- context [flushLoop _ _ fuel ?c'] =>
        destruct (IH fuel c' (sent ++ [text])) as (texts & Hs & Hw & Hi)
    end.
    + reflexivity.
    + simpl in Hfuel. lia.
    + reflexivity.
    + intros m' Hm'. apply Hser. right. exact Hm'.
    + exists (text :: texts). split; [constructor; assumption|].
      rewrite Hw, Hi, <- app_assoc. split; reflexivity.
Qed.

(** Flushing with no open socket. *)
Lemma flushLoop_closed :
  forall (fuel : nat) (c : WSClient Data),
    (length (MessageBuffer.items (messageBuffer c)) <= fuel)%nat ->
    noOpenSocket c ->
    ws (flushLoop stringify estimateSize fuel c) = ws c /\
    MessageBuffer.items (messageBuffer (flushLoop stringify estimateSize fuel c)) = [].
Proof.
  induction fuel as [|fuel IH]; intros c Hfuel Hclosed; simpl.
  - split; [reflexivity|].
    destruct (MessageBuffer.items (messageBuffer c)); [reflexivity|simpl in Hfuel; lia].
  - destruct (MessageBuffer.isEmpty (messageBuffer c)) eqn:He.
    { apply isEmpty_items in He. split; [reflexivity|exact He]. }
    assert (Htail : (length (MessageBuffer.items
                       (snd (MessageBuffer.dequeue estimateSize (messageBuffer c))))
                     <= fuel)%nat).
    { unfold MessageBuffer.dequeue, BoundedQueue.dequeue, MessageBuffer.items in *.
      destruct (BoundedQueue.items (MessageBuffer.base (messageBuffer c))) eqn:E;
        simpl in *; rewrite ?E; simpl; lia. }
    destruct (MessageBuffer.dequeue estimateSize (messageBuffer c)) as [message buffer].
    simpl in Htail. unfold noOpenSocket in Hclosed.
    destruct message as [m|], (ws c) as [socket|] eqn:Ews;
      try (apply (IH (mkClient (maxMessageSize c) _ (state c) buffer (lastSeq c)
                        (onErrorCalls c) (constructed c))); [exact Htail|];
           unfold noOpenSocket; simpl; rewrite ?Ews; exact Hclosed).
    destruct (readyState socket) eqn:Er; try contradiction;
      apply (IH (mkClient (maxMessageSize c) (Some socket) (state c) buffer (lastSeq c)
                   (onErrorCalls c) (constructed c))); try exact Htail;
      unfold noOpenSocket; simpl; rewrite Er; discriminate.
Qed.

End WSBuffer.

(** X14.  At any point of a client's life, a [send] while the client is
    not connected (or has no socket) returns true and leaves the envelope
    as the last item of the message buffer: the buffer, created with
    'oldest', makes room rather than refuse. *)
Theorem send_while_away_is_always_buffered
    (Data : Type) (stringify : WS.WSEnvelope Data -> Thrown + string)
    (estimateSize : WS.WSEnvelope Data -> Z)
    (maxMessageSize maxBufferSize : option JsNumber) (es : list (WS.Event Data))
    (type : string) (payload : Data) (correlationId : option string) (nowIso : string) :
  let c := WS.run stringify estimateSize (WS.create maxMessageSize maxBufferSize) es in
  WS.state c <> WS.connected \/ WS.ws c = None ->
  let result := WS.send stringify estimateSize type payload correlationId nowIso c in
  fst result = true /\
  exists kept,
    MessageBuffer.items (WS.messageBuffer (snd result))
      = kept ++ [envelopeOf type payload correlationId nowIso c].
Proof.
  intros c Haway result.
  assert (Hcfg : bufferConfig c = mkConfig 1000 oldest)
    by (unfold c; rewrite run_keeps_bufferConfig; reflexivity).
  clearbody c.
  destruct (enqueue_oldest_admits estimateSize (WS.messageBuffer c)
              (envelopeOf type payload correlationId nowIso c)) as [Hok [kept Hkept]].
  { unfold bufferConfig in Hcfg. rewrite Hcfg. reflexivity. }
  assert (Hbranch : result =
            (fst (MessageBuffer.enqueue estimateSize (WS.messageBuffer c)
                    (envelopeOf type payload correlationId nowIso c)),
             WS.mkClient (WS.maxMessageSize c) (WS.ws c) (WS.state c)
               (snd (MessageBuffer.enqueue estimateSize (WS.messageBuffer c)
                       (envelopeOf type payload correlationId nowIso c)))
               (WS.lastSeq c + 1) (WS.onErrorCalls c)
               (WS.constructed c ++ [envelopeOf type payload correlationId nowIso c]))).
  { unfold result, WS.send. fold (envelopeOf type payload correlationId nowIso c).
    destruct Haway as [Hstate|Hnone].
    - destruct (WS.state c); try contradiction; simpl;
        destruct (MessageBuffer.enqueue _ _ _); reflexivity.
    - rewrite Hnone. destruct (WS.isConnected (WS.state c)); simpl;
        destruct (MessageBuffer.enqueue _ _ _); reflexivity. }
  rewrite Hbranch. simpl. split; [exact Hok|]. exists kept. exact Hkept.
Qed.

(** X14 on a fresh client. *)
Lemma send_while_away_is_always_buffered_witness :
  fst (WS.send (fun _ => inr "{}"%string) (fun _ => 10) "asr.partial" "hi"%string None
         "2025-01-01T00:00:00.000Z" (WS.create (Data := string) None None)) = true.
Proof.
  refine (proj1 (send_while_away_is_always_buffered string (fun _ => inr "{}"%string)
                   (fun _ => 10) None None [] "asr.partial"%string "hi"%string None
                   "2025-01-01T00:00:00.000Z"%string _)).
  left. discriminate.
Defined.

(** X15.  [flushBufferedMessages] on an open socket, when every buffered
    message serialises, transmits all of them in the order they were
    buffered, after what was transmitted before, and leaves the buffer
    empty. *)
Theorem flush_transmits_in_fifo_order
    (Data : Type) (stringify : WS.WSEnvelope Data -> Thrown + string)
    (estimateSize : WS.WSEnvelope Data -> Z)
    (c : WS.WSClient Data) (sent : list string)
    (Hopen : WS.ws c = Some (WS.mkSocket WS.OPEN sent))
    (Hser : forall m, In m (MessageBuffer.items (WS.messageBuffer c)) ->
                      exists text, stringify m = inr text) :
  let c' := WS.flushBufferedMessages stringify estimateSize c in
  exists texts,
    serialised stringify (MessageBuffer.items (WS.messageBuffer c)) texts /\
    WS.ws c' = Some (WS.mkSocket WS.OPEN (sent ++ texts)) /\
    MessageBuffer.items (WS.messageBuffer c') = [].
Proof.
  intros c'. unfold c', WS.flushBufferedMessages.
  apply (flushLoop_open stringify estimateSize (MessageBuffer.items (WS.messageBuffer c)));
    [reflexivity|lia|exact Hopen|exact Hser].
Qed.

(** X15 on two buffered messages. *)
Lemma flush_transmits_in_fifo_order_witness :
  exists texts,
    serialised (fun m => inr (WS.t m)) (MessageBuffer.items (WS.messageBuffer backOnline)) texts /\
    WS.ws (WS.flushBufferedMessages (fun m => inr (WS.t m)) (fun _ => 10) backOnline)
      = Some (WS.mkSocket WS.OPEN ([] ++ texts)) /\
    MessageBuffer.items
      (WS.messageBuffer
         (WS.flushBufferedMessages (fun m => inr (WS.t m)) (fun _ => 10) backOnline)) = [].
Proof.
  apply (flush_transmits_in_fifo_order string (fun m => inr (WS.t m)) (fun _ => 10)
           backOnline []).
  - reflexivity.
  - intros m _. exists (WS.t m). reflexivity.
Defined.

(** X16.  [flushBufferedMessages] when the client has no socket, or one
    that is not open, still dequeues every buffered message: the buffer
    ends empty and nothing is handed to a socket. *)
Theorem flush_without_open_socket_discards
    (Data : Type) (stringify : WS.WSEnvelope Data -> Thrown + string)
    (estimateSize : WS.WSEnvelope Data -> Z)
    (c : WS.WSClient Data) (Hclosed : noOpenSocket c) :
  let c' := WS.flushBufferedMessages stringify estimateSize c in
  WS.ws c' = WS.ws c /\
  MessageBuffer.items (WS.messageBuffer c') = [].
Proof.
  intros c'. unfold c', WS.flushBufferedMessages.
  apply flushLoop_closed; [lia|exact Hclosed].
Qed.

(** X16 on two buffered messages and a closed socket. *)
Lemma flush_without_open_socket_discards_witness :
  MessageBuffer.items (WS.messageBuffer stillAway) <> [] /\
  WS.ws (WS.flushBufferedMessages (fun m => inr (WS.t m)) (fun _ => 10) stillAway)
    = WS.ws stillAway /\
  MessageBuffer.items
    (WS.messageBuffer
       (WS.flushBufferedMessages (fun m => inr (WS.t m)) (fun _ => 10) stillAway)) = [].
Proof.
  split; [vm_compute; discriminate|].
  apply (flush_without_open_socket_discards string (fun m => inr (WS.t m)) (fun _ => 10)
           stillAway).
  vm_compute. discriminate.
Defined.

(** ** WorkerChannel: bookkeeping of requests *)

Section WorkerBookkeeping.
Context {Result : Type}.
Variable postMessageThrows : Worker.WorkerMessage -> option Thrown.
Import Worker.

(** The common end of a request: forget it, disarm its timer, settle it. *)
Lemma WorkerInv_finish (i : nat) (s : Settlement Result) (c : WorkerChannel Result) :
  WorkerInv c -> is_Some (pendingRequests c !! i) ->
  WorkerInv (settle i s (clearTimeout i (setPending (delete i (pendingRequests c)) c))).
Proof.
  intros [Ht Hto Hu Hi Hn Hs Ha Hid] Hpending.
  assert (Hrange : (1 <= i < nextId c)%nat).
  { destruct (decide (1 <= i < nextId c)%nat) as [|Hout]; [assumption|].
    destruct (Hn i Hout) as [Hnone _]. rewrite Hnone in Hpending.
    destruct Hpending; discriminate. }
  unfold settle. simpl. rewrite (Hu i Hpending). constructor; simpl.
  - rewrite dom_delete_L, Ht. reflexivity.
  - intros j r Hj. apply lookup_delete_Some in Hj as [_ Hj]. eauto.
  - intros j [r Hj]. apply lookup_delete_Some in Hj as [Hne Hj].
    rewrite lookup_insert_ne by exact Hne. apply Hu. eauto.
  - intros j Hj. destruct (decide (i = j)) as [->|Hne].
    + right. rewrite lookup_insert. case_decide; [eauto|contradiction].
    + rewrite lookup_delete_ne, lookup_insert_ne by exact Hne. auto.
  - intros j Hj. assert (Hne : i <> j) by (intros ->; contradiction).
    rewrite lookup_delete_ne, lookup_insert_ne by exact Hne. auto.
  - intros E. destruct (Hs E) as [-> ->]. split; [apply delete_empty|reflexivity].
  - exact Ha.
  - exact Hid.
Qed.

Lemma resume_idle (i : nat) (c : WorkerChannel Result) :
  shutdownAwaits c = None -> resume i c = c.
Proof. unfold resume. intros ->. reflexivity. Qed.

Lemma settle_awaits (i : nat) (s : Settlement Result) (c : WorkerChannel Result) :
  shutdownAwaits (settle i s c) = shutdownAwaits c.
Proof. unfold settle. destruct (settled c !! i); reflexivity. Qed.

(** The loop of [shutdown] and [handleError], entry by entry. *)
Lemma rejectLoop_effect (reason : JsError) (entries : list (nat * PendingRequest)) :
  forall c : WorkerChannel Result,
    let c' :=
      fold_left
        (fun acc entry =>
           settle (fst entry) (Rejected (ThrownError reason))
                  (clearTimeout (timeout (snd entry)) acc))
        entries c in
    nextId c' = nextId c /\ pendingRequests c' = pendingRequests c /\
    isShutdown c' = isShutdown c /\ posted c' = posted c /\
    terminated c' = terminated c /\ cancelHooks c' = cancelHooks c /\
    shutdownAwaits c' = shutdownAwaits c /\
    (forall t, t ∈ timers c' <-> t ∈ timers c /\ t ∉ map (fun e => timeout (snd e)) entries) /\
    (forall i, settled c' !! i =
               match settled c !! i with
               | Some s => Some s
               | None => if decide (i ∈ map fst entries)
                         then Some (Rejected (ThrownError reason)) else None
               end).
Proof.
  induction entries as [|[i0 r0] entries IH]; intros c; simpl.
  - do 7 (split; [reflexivity|]). split.
    + intros t. split; [|tauto]. intros Hin. split; [exact Hin|]. apply not_elem_of_nil.
    + intros i. destruct (settled c !! i); reflexivity.
  - specialize (IH (settle i0 (Rejected (ThrownError reason)) (clearTimeout (timeout r0) c))).
    simpl in IH. destruct IH as (Hn & Hp & Hs & Hpo & Hte & Hc & Ha & Hti & Hse).
    assert (Hfields :
      forall c0 : WorkerChannel Result,
        let c1 := settle i0 (Rejected (ThrownError reason)) c0 in
        nextId c1 = nextId c0 /\ pendingRequests c1 = pendingRequests c0 /\
        isShutdown c1 = isShutdown c0 /\ posted c1 = posted c0 /\
        terminated c1 = terminated c0 /\ cancelHooks c1 = cancelHooks c0 /\
        shutdownAwaits c1 = shutdownAwaits c0 /\ timers c1 = timers c0).
    { intros c0. unfold settle. destruct (settled c0 !! i0); repeat split. }
    destruct (Hfields (clearTimeout (timeout r0) c))
      as (Fn & Fp & Fs & Fpo & Fte & Fc & Fa & Fti).
    rewrite Hn, Hp, Hs, Hpo, Hte, Hc, Ha, Fn, Fp, Fs, Fpo, Fte, Fc, Fa.
    do 7 (split; [reflexivity|]). split.
    + intros t. split.
      * intros Ht. apply Hti in Ht as [Ht Hnot]. rewrite Fti in Ht. simpl in Ht.
        apply elem_of_difference in Ht as [Ht Hne]. split; [exact Ht|].
        rewrite elem_of_cons. intros [->|Hin]; [|contradiction].
        apply Hne. apply elem_of_singleton. reflexivity.
      * intros [Ht Hnot]. apply Hti. rewrite Fti. simpl.
        rewrite elem_of_cons in Hnot. split.
        -- apply elem_of_difference. split; [exact Ht|].
           rewrite elem_of_singleton. intros ->. apply Hnot. left. reflexivity.
        -- intros Hin. apply Hnot. right. exact Hin.
    + intros i. rewrite Hse. unfold settle. simpl.
      destruct (settled c !! i0) eqn:E0; simpl.
      * destruct (settled c !! i) eqn:E; [reflexivity|].
        assert (Hne : i <> i0) by (intros ->; congruence).
        repeat case_decide; try reflexivity.
        -- exfalso. rewrite elem_of_cons in *. tauto.
        -- exfalso. rewrite elem_of_cons in *. tauto.
      * destruct (decide (i = i0)) as [->|Hne].
        -- rewrite lookup_insert. case_decide; [|contradiction]. rewrite E0.
           case_decide; [reflexivity|]. exfalso. rewrite elem_of_cons in *. tauto.
        -- rewrite lookup_insert_ne by (intros ->; contradiction).
           destruct (settled c !! i); [reflexivity|].
           repeat case_decide; try reflexivity; exfalso; rewrite elem_of_cons in *; tauto.
Qed.

(** [rejectAll] followed by [pendingRequests.clear()]. *)
Lemma rejectAll_clear (reason : JsError) (c : WorkerChannel Result) :
  WorkerInv c ->
  let c' := setPending ∅ (rejectAll reason c) in
  pendingRequests c' = ∅ /\ timers c' = ∅ /\
  nextId c' = nextId c /\ isShutdown c' = isShutdown c /\ posted c' = posted c /\
  terminated c' = terminated c /\ cancelHooks c' = cancelHooks c /\
  shutdownAwaits c' = shutdownAwaits c /\
  (forall i, settled c' !! i =
             match settled c !! i, pendingRequests c !! i with
             | Some s, _ => Some s
             | None, Some _ => Some (Rejected (ThrownError reason))
             | None, None => None
             end).
Proof.
  intros [Ht Hto Hu Hi Hn Hs Ha Hid]. unfold rejectAll. simpl.
  destruct (rejectLoop_effect reason (map_to_list (pendingRequests c)) c)
    as (En & Ep & Es & Epo & Ete & Ec & Ea & Eti & Ese).
  simpl in *. rewrite En, Es, Epo, Ete, Ec, Ea.
  repeat split; try reflexivity.
  - apply set_eq. intros t. split; [|intros H; apply elem_of_empty in H; contradiction].
    intros Hin. apply Eti in Hin as [Hin Hnot]. exfalso. apply Hnot.
    rewrite Ht in Hin. apply elem_of_dom in Hin as [r Hr].
    apply list_elem_of_fmap. exists (t, r). split.
    + simpl. symmetry. eauto.
    + apply elem_of_map_to_list. exact Hr.
  - intros i. rewrite Ese. destruct (settled c !! i); [reflexivity|].
    destruct (pendingRequests c !! i) as [r|] eqn:Er; case_decide as Hin; try reflexivity.
    + exfalso. apply Hin. apply list_elem_of_fmap. exists (i, r). split; [reflexivity|].
      apply elem_of_map_to_list. exact Er.
    + exfalso. apply list_elem_of_fmap in Hin as [[j r] [-> Hjr]]. simpl in Er.
      apply elem_of_map_to_list in Hjr. congruence.
Qed.

Lemma WorkerInv_rejectAll (reason : JsError) (c : WorkerChannel Result) :
  WorkerInv c -> WorkerInv (setPending ∅ (rejectAll reason c)).
Proof.
  intros Hinv.
  destruct (rejectAll_clear reason c Hinv) as (Ep & Eti & En & Es & Epo & Ete & Ec & Ea & Ese).
  destruct Hinv as [Ht Hto Hu Hi Hn Hs Ha Hid].
  constructor.
  - rewrite Eti, Ep, dom_empty_L. reflexivity.
  - intros i r. rewrite Ep, lookup_empty. discriminate.
  - intros i. rewrite Ep, lookup_empty. intros [r Hr]. discriminate.
  - intros i Hr. rewrite En in Hr. right. rewrite Ese.
    destruct (Hi i Hr) as [[r E]|[s E]]; rewrite E.
    + destruct (settled c !! i); eauto.
    + eauto.
  - intros i Hr. rewrite En in Hr. destruct (Hn i Hr) as [E1 E2].
    rewrite Ep, lookup_empty, Ese, E1, E2. split; reflexivity.
  - intros E. rewrite Es in E. rewrite Ete. destruct (Hs E) as [_ ->].
    split; [exact Ep|reflexivity].
  - rewrite Ea. exact Ha.
  - rewrite En. exact Hid.
Qed.

Lemma WorkerInv_sendMessage ty payload token (c : WorkerChannel Result) :
  WorkerInv c -> WorkerInv (snd (sendMessage postMessageThrows ty payload token c)).
Proof.
  intros Hinv. unfold sendMessage.
  destruct (isShutdown c) eqn:Es; [exact Hinv|].
  destruct (match token with Some tok => isCancelled tok | None => false end); [exact Hinv|].
  set (i := nextId c).
  set (c1 := mkChannel (S i) (<[i := {| timeout := i |}]> (pendingRequests c))
               false (posted c) (terminated c) (settled c) ({[i]} ∪ timers c)
               (match token with Some _ => {[i]} ∪ cancelHooks c | None => cancelHooks c end)
               (shutdownAwaits c)).
  assert (H1 : WorkerInv c1).
  { destruct Hinv as [Ht Hto Hu Hi Hn Hs Ha Hid]. constructor; simpl.
    - rewrite dom_insert_L, Ht. reflexivity.
    - intros j r Hj. apply lookup_insert_Some in Hj as [[<- <-]|[_ Hj]]; [reflexivity|eauto].
    - intros j [r Hj]. apply lookup_insert_Some in Hj as [[<- _]|[_ Hj]].
      + apply (Hn i). unfold i. lia.
      + apply Hu. eauto.
    - intros j Hj. destruct (decide (i = j)) as [<-|Hne].
      + left. rewrite lookup_insert. case_decide; [eauto|contradiction].
      + rewrite lookup_insert_ne by exact Hne. apply Hi. unfold i in *. lia.
    - intros j Hj. assert (Hne : i <> j) by (unfold i in *; lia).
      rewrite lookup_insert_ne by exact Hne. apply Hn. unfold i in *. lia.
    - discriminate.
    - exact Ha.
    - lia. }
  destruct (postMessageThrows _) as [error|]; simpl.
  - assert (Hp : is_Some (pendingRequests c1 !! i)).
    { simpl. rewrite lookup_insert. case_decide; [eauto|contradiction]. }
    exact (WorkerInv_finish i (Rejected error) c1 H1 Hp).
  - destruct H1 as [Ht Hto Hu Hi Hn Hs Ha Hid]. constructor; assumption.
Qed.

Lemma WorkerInv_shutdown (c : WorkerChannel Result) :
  WorkerInv c -> WorkerInv (shutdown postMessageThrows c).
Proof.
  intros Hinv. unfold shutdown. destruct (isShutdown c) eqn:Es; [exact Hinv|].
  set (c1 := mkChannel (nextId c) (pendingRequests c) true (posted c) (terminated c)
               (settled c) (timers c) (cancelHooks c) (shutdownAwaits c)).
  assert (H1 : WorkerInv (mkChannel (nextId c) (pendingRequests c) false (posted c)
                            (terminated c) (settled c) (timers c) (cancelHooks c)
                            (shutdownAwaits c))).
  { destruct Hinv as [Ht Hto Hu Hi Hn Hs Ha Hid]. constructor; simpl; try assumption.
    discriminate. }
  pose proof (rejectLoop_effect (Error "Worker is shutting down")
                (map_to_list (pendingRequests c)) c1) as Hsame.
  pose proof (rejectLoop_effect (Error "Worker is shutting down")
                (map_to_list (pendingRequests c))
                (mkChannel (nextId c) (pendingRequests c) false (posted c)
                   (terminated c) (settled c) (timers c) (cancelHooks c)
                   (shutdownAwaits c))) as Hother.
  pose proof (WorkerInv_rejectAll (Error "Worker is shutting down") _ H1) as H2.
  unfold rejectAll in *. simpl in *.
  destruct Hsame as (En & Ep & Esd & Epo & Ete & Ec & Ea & Eti & Ese).
  destruct Hother as (En' & Ep' & Esd' & Epo' & Ete' & Ec' & Ea' & Eti' & Ese').
  unfold sendMessage. simpl. rewrite Esd. simpl.
  destruct H2 as [Ht Hto Hu Hi Hn Hs Ha Hid]. simpl in *.
  constructor; simpl.
  - rewrite dom_empty_L in *. apply set_eq. intros t. rewrite Eti, <- Eti'. rewrite Ht.
    reflexivity.
  - intros i r. rewrite lookup_empty. discriminate.
  - intros i [r Hr]. rewrite lookup_empty in Hr. discriminate.
  - intros i Hr. rewrite En in Hr. rewrite <- En' in Hr. right.
    destruct (Hi i Hr) as [[r Hx]|Hx]; [rewrite lookup_empty in Hx; discriminate|].
    rewrite Ese. rewrite <- Ese'. exact Hx.
  - intros i Hr. rewrite En in Hr. rewrite <- En' in Hr.
    destruct (Hn i Hr) as [Hx Hy]. split; [exact Hx|].
    rewrite Ese. rewrite <- Ese'. exact Hy.
  - intros _. split; reflexivity.
  - reflexivity.
  - rewrite En' in Hid. rewrite En. exact Hid.
Qed.

Lemma WorkerInv_handleMessage response (c : WorkerChannel Result) :
  WorkerInv c -> WorkerInv (handleMessage response c).
Proof.
  intros Hinv. unfold handleMessage.
  destruct (pendingRequests c !! requestId response) as [request|] eqn:E; [|exact Hinv].
  rewrite (winv_timeout c Hinv _ _ E).
  assert (Hp : is_Some (pendingRequests c !! requestId response)) by eauto.
  destruct (truthy (error response)).
  - rewrite resume_idle.
    + apply WorkerInv_finish; assumption.
    + rewrite settle_awaits. simpl. apply (winv_awaits c Hinv).
  - rewrite resume_idle.
    + apply WorkerInv_finish; assumption.
    + rewrite settle_awaits. simpl. apply (winv_awaits c Hinv).
Qed.

Lemma WorkerInv_timeoutFired i (c : WorkerChannel Result) :
  WorkerInv c -> WorkerInv (timeoutFired i c).
Proof.
  intros Hinv. unfold timeoutFired. case_decide as Hin; [|exact Hinv].
  rewrite (winv_timers c Hinv) in Hin. apply elem_of_dom in Hin.
  rewrite resume_idle.
  - apply WorkerInv_finish; assumption.
  - rewrite settle_awaits. simpl. apply (winv_awaits c Hinv).
Qed.

Lemma WorkerInv_tokenFired i (c : WorkerChannel Result) :
  WorkerInv c -> WorkerInv (tokenFired i c).
Proof.
  intros Hinv. unfold tokenFired. case_decide as Hin; [|exact Hinv].
  destruct (pendingRequests c !! i) as [request|] eqn:E; [|exact Hinv].
  rewrite (winv_timeout c Hinv _ _ E).
  assert (Hp : is_Some (pendingRequests c !! i)) by eauto.
  rewrite resume_idle.
  - apply WorkerInv_finish; assumption.
  - rewrite settle_awaits. simpl. apply (winv_awaits c Hinv).
Qed.

Lemma WorkerInv_handleError message (c : WorkerChannel Result) :
  WorkerInv c -> WorkerInv (handleError message c).
Proof.
  intros Hinv. unfold handleError. rewrite (winv_awaits c Hinv).
  apply WorkerInv_rejectAll. exact Hinv.
Qed.

Lemma WorkerInv_step (c : WorkerChannel Result) (e : Event Result) :
  WorkerInv c -> WorkerInv (step postMessageThrows c e).
Proof.
  intros Hinv. destruct e; simpl.
  - apply WorkerInv_sendMessage. exact Hinv.
  - unfold computeProgress. destruct (isShutdown c); [exact Hinv|].
    apply WorkerInv_sendMessage. exact Hinv.
  - unfold computeETA. destruct (isShutdown c); [exact Hinv|].
    apply WorkerInv_sendMessage. exact Hinv.
  - apply WorkerInv_shutdown. exact Hinv.
  - apply WorkerInv_handleMessage. exact Hinv.
  - apply WorkerInv_handleError. exact Hinv.
  - apply WorkerInv_timeoutFired. exact Hinv.
  - apply WorkerInv_tokenFired. exact Hinv.
Qed.

Lemma WorkerInv_run (es : list (Event Result)) (c : WorkerChannel Result) :
  WorkerInv c -> WorkerInv (run postMessageThrows c es).
Proof.
  revert c. induction es as [|e es IH]; intros c Hinv; [exact Hinv|].
  apply IH. apply WorkerInv_step. exact Hinv.
Qed.

Lemma WorkerInv_create : WorkerInv (create (Result := Result)).
Proof.
  constructor; simpl.
  - rewrite dom_empty_L. reflexivity.
  - intros i r. rewrite lookup_empty. discriminate.
  - intros i [r Hr]. rewrite lookup_empty in Hr. discriminate.
  - intros i Hr. lia.
  - intros i _. rewrite !lookup_empty. split; reflexivity.
  - discriminate.
  - reflexivity.
  - lia.
Qed.

End WorkerBookkeeping.

Section WorkerLog.
Context {Result : Type}.
Variable postMessageThrows : Worker.WorkerMessage -> option Thrown.
Import Worker.

Lemma settle_log (i : nat) (s : Settlement Result) (c : WorkerChannel Result) :
  posted (settle i s c) = posted c /\ nextId (settle i s c) = nextId c.
Proof. unfold settle. destruct (settled c !! i); split; reflexivity. Qed.

Lemma resume_log (i : nat) (c : WorkerChannel Result) :
  posted (resume i c) = posted c /\ nextId (resume i c) = nextId c.
Proof.
  unfold resume. destruct (shutdownAwaits c); [|split; reflexivity].
  destruct (Nat.eqb i _); split; reflexivity.
Qed.

Lemma StronglySorted_lt_snoc (l : list nat) (x : nat) :
  StronglySorted lt l -> Forall (fun y => (y < x)%nat) l -> StronglySorted lt (l ++ [x]).
Proof.
  induction 1 as [|y l Hs IH Hy]; intros Hall; simpl.
  - repeat constructor.
  - apply Forall_cons_iff in Hall as [Hyx Hall].
    constructor; [apply IH; exact Hall|].
    apply Forall_app. split; [exact Hy|]. repeat constructor. exact Hyx.
Qed.

Lemma PostedInv_sendMessage ty payload token (c : WorkerChannel Result) :
  ty <> SHUTDOWN -> (1 <= nextId c)%nat ->
  PostedInv c -> PostedInv (snd (sendMessage postMessageThrows ty payload token c)).
Proof.
  intros Hty Hid [Hsorted Hall]. unfold sendMessage.
  destruct (isShutdown c); [split; assumption|].
  destruct (match token with Some tok => isCancelled tok | None => false end);
    [split; assumption|].
  assert (Hweaker : Forall (fun m => (1 <= id m < S (nextId c))%nat /\ type m <> SHUTDOWN)
                      (posted c)).
  { eapply Forall_impl; [exact Hall|]. simpl. intros m [H1 H2]. split; [lia|exact H2]. }
  destruct (postMessageThrows _) as [error|]; unfold PostedInv; simpl.
  - destruct (settle_log (nextId c) (Rejected error)
                (clearTimeout (nextId c)
                   (setPending (delete (nextId c)
                                  (<[nextId c := {| timeout := nextId c |}]> (pendingRequests c)))
                      (mkChannel (S (nextId c))
                         (<[nextId c := {| timeout := nextId c |}]> (pendingRequests c))
                         false (posted c) (terminated c) (settled c)
                         ({[nextId c]} ∪ timers c)
                         (match token with
                          | Some _ => {[nextId c]} ∪ cancelHooks c
                          | None => cancelHooks c
                          end)
                         (shutdownAwaits c))))) as [-> ->].
    simpl. split; assumption.
  - split.
    + rewrite map_app. simpl. apply StronglySorted_lt_snoc; [exact Hsorted|].
      apply Forall_forall. intros x Hx. apply list_elem_of_fmap in Hx as [m [-> Hm]].
      rewrite Forall_forall in Hall.
      destruct (Hall m Hm) as [H1 _]. lia.
    + apply Forall_app. split; [exact Hweaker|].
      constructor; [|constructor]. simpl. split; [lia|exact Hty].
Qed.

Lemma PostedInv_same (c c' : WorkerChannel Result) :
  posted c' = posted c -> nextId c' = nextId c -> PostedInv c -> PostedInv c'.
Proof. unfold PostedInv. intros -> ->. tauto. Qed.

Lemma quiet_end i j (s : Settlement Result) t p (c : WorkerChannel Result) :
  let c' := resume i (settle j s (clearTimeout t (setPending p c))) in
  posted c' = posted c /\ nextId c' = nextId c.
Proof.
  simpl. destruct (resume_log i (settle j s (clearTimeout t (setPending p c)))) as [-> ->].
  destruct (settle_log j s (clearTimeout t (setPending p c))) as [-> ->].
  split; reflexivity.
Qed.

Ltac quiet :=
  match goal with
  | Hposted : PostedInv ?c
    |- PostedInv (resume ?i (settle ?j ?s (clearTimeout ?t (setPending ?p ?c)))) =>
      destruct (quiet_end i j s t p c) as [Hq1 Hq2];
      exact (PostedInv_same c _ Hq1 Hq2 Hposted)
  end.

Lemma PostedInv_step (c : WorkerChannel Result) (e : Event Result) :
  WorkerInv c -> PostedInv c -> PostedInv (step postMessageThrows c e).
Proof.
  intros Hinv Hposted. pose proof (winv_nextId c Hinv) as Hid.
  destruct e; simpl.
  - apply PostedInv_sendMessage; [discriminate|assumption..].
  - unfold computeProgress. destruct (isShutdown c); [exact Hposted|].
    apply PostedInv_sendMessage; [discriminate|assumption..].
  - unfold computeETA. destruct (isShutdown c); [exact Hposted|].
    apply PostedInv_sendMessage; [discriminate|assumption..].
  - apply (PostedInv_same c); [apply shutdown_posts_nothing| |exact Hposted].
    unfold shutdown. destruct (isShutdown c) eqn:Es; [reflexivity|].
    destruct (rejectLoop_effect (Error "Worker is shutting down")
                (map_to_list (pendingRequests c))
                (mkChannel (nextId c) (pendingRequests c) true (posted c) (terminated c)
                   (settled c) (timers c) (cancelHooks c) (shutdownAwaits c)))
      as (En & _ & Esd & _).
    unfold sendMessage, rejectAll. simpl in *. rewrite Esd. simpl. exact En.
  - unfold handleMessage.
    destruct (pendingRequests c !! requestId response) as [request|]; [|exact Hposted].
    destruct (truthy (error response)); quiet.
  - unfold handleError. rewrite (winv_awaits c Hinv).
    destruct (rejectAll_clear (Error ("Worker error: " ++ message)%string) c Hinv)
      as (_ & _ & En & _ & Epo & _).
    apply (PostedInv_same c); assumption.
  - unfold timeoutFired. case_decide; [|exact Hposted].
    quiet.
  - unfold tokenFired. case_decide; [|exact Hposted].
    destruct (pendingRequests c !! i) as [request|]; [|exact Hposted].
    quiet.
Qed.

Lemma PostedInv_run (es : list (Event Result)) (c : WorkerChannel Result) :
  WorkerInv c -> PostedInv c -> PostedInv (run postMessageThrows c es).
Proof.
  revert c. induction es as [|e es IH]; intros c Hinv Hposted; [exact Hposted|].
  apply IH; [apply WorkerInv_step; exact Hinv|apply PostedInv_step; assumption].
Qed.

Lemma PostedInv_create : PostedInv (create (Result := Result)).
Proof. split; constructor. Qed.

(** Once shut down, always shut down. *)
Lemma isShutdown_step (c : WorkerChannel Result) (e : Event Result) :
  WorkerInv c -> isShutdown c = true -> isShutdown (step postMessageThrows c e) = true.
Proof.
  intros Hinv E. destruct (winv_shutdown c Hinv E) as [Hempty _].
  destruct e; simpl.
  - unfold initialize, sendMessage. rewrite E. exact E.
  - unfold computeProgress. rewrite E. exact E.
  - unfold computeETA. rewrite E. exact E.
  - unfold shutdown. rewrite E. exact E.
  - unfold handleMessage. rewrite Hempty, lookup_empty. exact E.
  - unfold handleError. rewrite (winv_awaits c Hinv).
    destruct (rejectAll_clear (Error ("Worker error: " ++ message)%string) c Hinv)
      as (_ & _ & _ & -> & _). exact E.
  - unfold timeoutFired. rewrite (winv_timers c Hinv), Hempty, dom_empty_L.
    case_decide as Hin; [|exact E]. apply elem_of_empty in Hin. contradiction.
  - unfold tokenFired. case_decide; [|exact E]. rewrite Hempty, lookup_empty. exact E.
Qed.

Lemma isShutdown_run (es : list (Event Result)) (c : WorkerChannel Result) :
  WorkerInv c -> isShutdown c = true -> isShutdown (run postMessageThrows c es) = true.
Proof.
  revert c. induction es as [|e es IH]; intros c Hinv E; [exact E|].
  apply IH; [apply WorkerInv_step; exact Hinv|apply isShutdown_step; assumption].
Qed.

Lemma isShutdown_after (es : list (Event Result)) (c : WorkerChannel Result) :
  WorkerInv c -> In Shutdown es -> isShutdown (run postMessageThrows c es) = true.
Proof.
  revert c. induction es as [|e es IH]; intros c Hinv Hin; [contradiction|].
  change (isShutdown (run postMessageThrows (step postMessageThrows c e) es) = true).
  destruct Hin as [->|Hin].
  - apply isShutdown_run; [apply WorkerInv_step; exact Hinv|].
    simpl. destruct (isShutdown c) eqn:E.
    + unfold shutdown. rewrite E. exact E.
    + apply (shutdown_flags postMessageThrows c E).
  - apply IH; [apply WorkerInv_step; exact Hinv|exact Hin].
Qed.

End WorkerLog.

(** X17.  In every state a channel can reach, the armed timeout timers
    are exactly those of the pending requests, no pending request is
    settled, and an id has been handed out exactly when its request is
    pending or settled: no request is lost without a timer or a
    settlement. *)
Theorem requests_are_pending_or_settled
    (Result : Type) (postMessageThrows : Worker.WorkerMessage -> option Thrown)
    (es : list (Worker.Event Result)) :
  let c := Worker.run postMessageThrows Worker.create es in
  Worker.timers c = dom (Worker.pendingRequests c) /\
  (forall i, is_Some (Worker.pendingRequests c !! i) -> Worker.settled c !! i = None) /\
  (forall i, (1 <= i < Worker.nextId c)%nat <->
             is_Some (Worker.pendingRequests c !! i) \/ is_Some (Worker.settled c !! i)).
Proof.
  intros c.
  destruct (WorkerInv_run postMessageThrows es Worker.create WorkerInv_create)
    as [Ht Hto Hu Hi Hn Hs Ha Hid].
  fold c in Ht, Hu, Hi, Hn. split; [exact Ht|]. split; [exact Hu|].
  intros i. split; [apply Hi|].
  intros Hsome. destruct (decide (1 <= i < Worker.nextId c)%nat) as [|Hout]; [assumption|].
  destruct (Hn i Hout) as [E1 E2]. rewrite E1, E2 in Hsome.
  destruct Hsome as [[x Hx]|[x Hx]]; discriminate.
Qed.

(** X18.  Once [shutdown] has been called, whatever else happened before
    or after: the channel is shut down, the worker terminated, nothing is
    pending, no timer is armed, and every request ever made is settled. *)
Theorem shutdown_leaves_nothing_behind
    (Result : Type) (postMessageThrows : Worker.WorkerMessage -> option Thrown)
    (es : list (Worker.Event Result)) (Hdown : In Worker.Shutdown es) :
  let c := Worker.run postMessageThrows Worker.create es in
  Worker.isShutdown c = true /\ Worker.terminated c = true /\
  Worker.pendingRequests c = ∅ /\ Worker.timers c = ∅ /\
  forall i, (1 <= i < Worker.nextId c)%nat -> is_Some (Worker.settled c !! i).
Proof.
  intros c.
  pose proof (isShutdown_after postMessageThrows es Worker.create WorkerInv_create Hdown) as E.
  destruct (WorkerInv_run postMessageThrows es Worker.create WorkerInv_create)
    as [Ht Hto Hu Hi Hn Hs Ha Hid].
  fold c in E, Ht, Hi, Hs. destruct (Hs E) as [Hempty Hterm].
  split; [exact E|]. split; [exact Hterm|]. split; [exact Hempty|].
  split; [rewrite Ht, Hempty, dom_empty_L; reflexivity|].
  intros i Hr. destruct (Hi i Hr) as [[r Hx]|Hx]; [|exact Hx].
  rewrite Hempty, lookup_empty in Hx. discriminate.
Qed.

(** X18 on a channel shut down with one request outstanding, and a late
    response after that. *)
Lemma shutdown_leaves_nothing_behind_witness :
  let c := Worker.run (Result := string) (fun _ => None) Worker.create
             [Worker.ComputeProgress [Worker.mkSample 1000 (Finite (1 # 2))] 5 None;
              Worker.Shutdown;
              Worker.Response (Worker.mkResponse 1 (Some "late"%string) None)] in
  Worker.isShutdown c = true /\ Worker.terminated c = true /\
  Worker.pendingRequests c = ∅ /\ Worker.timers c = ∅ /\
  forall i, (1 <= i < Worker.nextId c)%nat -> is_Some (Worker.settled c !! i).
Proof.
  apply (shutdown_leaves_nothing_behind string (fun _ => None)
           [Worker.ComputeProgress [Worker.mkSample 1000 (Finite (1 # 2))] 5 None;
            Worker.Shutdown;
            Worker.Response (Worker.mkResponse 1 (Some "late"%string) None)]).
  right. left. reflexivity.
Defined.

(** X19.  An error event of the worker, in any state the channel can
    reach, rejects every pending request with 'Worker error: <message>',
    disarms every timer and empties the pending map; settled requests
    keep their settlement, and the channel is not shut down by it. *)
Theorem worker_error_rejects_every_pending_request
    (Result : Type) (postMessageThrows : Worker.WorkerMessage -> option Thrown)
    (es : list (Worker.Event Result)) (message : string) :
  let c := Worker.run postMessageThrows Worker.create es in
  let c' := Worker.handleError message c in
  Worker.pendingRequests c' = ∅ /\ Worker.timers c' = ∅ /\
  Worker.isShutdown c' = Worker.isShutdown c /\
  Worker.terminated c' = Worker.terminated c /\
  (forall i, is_Some (Worker.pendingRequests c !! i) ->
     Worker.settled c' !! i
       = Some (Worker.Rejected
                 (ThrownError (Error ("Worker error: " ++ message)%string)))) /\
  (forall i, Worker.pendingRequests c !! i = None ->
     Worker.settled c' !! i = Worker.settled c !! i).
Proof.
  intros c c'.
  pose proof (WorkerInv_run postMessageThrows es Worker.create WorkerInv_create) as Hinv.
  fold c in Hinv. unfold c', Worker.handleError. rewrite (winv_awaits c Hinv).
  destruct (rejectAll_clear (Error ("Worker error: " ++ message)%string) c Hinv)
    as (Ep & Eti & _ & Es & _ & Ete & _ & _ & Ese).
  split; [exact Ep|]. split; [exact Eti|]. split; [exact Es|]. split; [exact Ete|]. split.
  - intros i Hp. rewrite Ese, (winv_unsettled c Hinv i Hp).
    destruct Hp as [r ->]. reflexivity.
  - intros i Hp. rewrite Ese, Hp. destruct (Worker.settled c !! i); reflexivity.
Qed.

(** X20.  The messages handed to [postMessage] carry strictly increasing
    ids, all of them at least 1 and below the counter: no id is used
    twice. *)
Theorem posted_ids_are_fresh
    (Result : Type) (postMessageThrows : Worker.WorkerMessage -> option Thrown)
    (es : list (Worker.Event Result)) :
  let c := Worker.run postMessageThrows Worker.create es in
  StronglySorted lt (map Worker.id (Worker.posted c)) /\
  Forall (fun m => (1 <= Worker.id m < Worker.nextId c)%nat) (Worker.posted c).
Proof.
  intros c.
  destruct (PostedInv_run postMessageThrows es Worker.create WorkerInv_create PostedInv_create)
    as [Hsorted Hall].
  split; [exact Hsorted|].
  eapply Forall_impl; [exact Hall|]. simpl. tauto.
Qed.

(** X21.  Whatever the callers and the worker do, no SHUTDOWN message is
    ever handed to [postMessage]: the only call that would send one is
    made by [shutdown] after it has set [isShutdown]. *)
Theorem no_history_posts_SHUTDOWN
    (Result : Type) (postMessageThrows : Worker.WorkerMessage -> option Thrown)
    (es : list (Worker.Event Result)) :
  Forall (fun m => Worker.type m <> Worker.SHUTDOWN)
         (Worker.posted (Worker.run postMessageThrows Worker.create es)).
Proof.
  destruct (PostedInv_run postMessageThrows es Worker.create WorkerInv_create PostedInv_create)
    as [_ Hall].
  eapply Forall_impl; [exact Hall|]. simpl. tauto.
Qed.

(** X22.  When the timeout of a request fires, the request is rejected
    with the timeout error and forgotten: a response that arrives later,
    the request's cancellation callback and a second firing all leave the
    channel as it is. *)
Theorem late_response_after_timeout_is_ignored
    (Result : Type) (postMessageThrows : Worker.WorkerMessage -> option Thrown)
    (es : list (Worker.Event Result)) (i : nat)
    (result : option Result) (error : option string) :
  let c := Worker.run postMessageThrows Worker.create es in
  i ∈ Worker.timers c ->
  let c1 := Worker.timeoutFired i c in
  Worker.settled c1 !! i
    = Some (Worker.Rejected
              (ThrownError (Error "Worker request timed out after 5000ms"))) /\
  Worker.handleMessage (Worker.mkResponse i result error) c1 = c1 /\
  Worker.tokenFired i c1 = c1 /\
  Worker.timeoutFired i c1 = c1.
Proof.
  intros c Hin c1.
  pose proof (WorkerInv_run postMessageThrows es Worker.create WorkerInv_create) as Hinv.
  fold c in Hinv.
  assert (Hp : is_Some (Worker.pendingRequests c !! i)).
  { rewrite (winv_timers c Hinv) in Hin. apply elem_of_dom in Hin. exact Hin. }
  assert (E : c1 =
    Worker.mkChannel (Worker.nextId c) (delete i (Worker.pendingRequests c))
      (Worker.isShutdown c) (Worker.posted c) (Worker.terminated c)
      (<[i := Worker.Rejected
                (ThrownError (Error "Worker request timed out after 5000ms"))]>
         (Worker.settled c))
      (Worker.timers c ∖ {[i]}) (Worker.cancelHooks c) (Worker.shutdownAwaits c)).
  { unfold c1, Worker.timeoutFired. case_decide; [|contradiction].
    rewrite resume_idle.
    - unfold Worker.settle. simpl. rewrite (winv_unsettled c Hinv i Hp). reflexivity.
    - rewrite settle_awaits. simpl. apply (winv_awaits c Hinv). }
  rewrite E. clear E. split; [|split; [|split]].
  - simpl. rewrite lookup_insert. case_decide; [reflexivity|contradiction].
  - unfold Worker.handleMessage. simpl. rewrite lookup_delete.
    case_decide; [reflexivity|contradiction].
  - unfold Worker.tokenFired. simpl. case_decide; [|reflexivity].
    rewrite lookup_delete. case_decide; [reflexivity|contradiction].
  - unfold Worker.timeoutFired. simpl. case_decide as Hin'; [|reflexivity].
    apply elem_of_difference in Hin' as [_ Hne]. exfalso. apply Hne.
    apply elem_of_singleton. reflexivity.
Qed.

(** X22 on one outstanding request. *)
Lemma late_response_after_timeout_is_ignored_witness :
  Worker.handleMessage (Worker.mkResponse 1 (Some "done"%string) None)
    (Worker.timeoutFired 1 oneRequest)
  = Worker.timeoutFired 1 oneRequest.
Proof.
  refine (proj1 (proj2 (late_response_after_timeout_is_ignored string (fun _ => None)
            [Worker.ComputeProgress [Worker.mkSample 1000 (Finite (1 # 2))] 5 None] 1%nat
            (Some "done"%string) None _))).
  vm_compute. reflexivity.
Defined.

(** ** ValueSmoother: cadence *)

Section SmootherCadence.
Context {T : Type} {V : JsValue T} {E : Engine}.

(** [1000 / Math.max(2, Math.min(10, maxHz))] for a [maxHz] that is a
    number: the exact quotient lies between 100 and 500. *)
Lemma clamped_interval (maxHz : JsNumber) :
  JsNum.isNaN maxHz = false ->
  exists c : Q,
    JsNum.max 2 (JsNum.min 10 maxHz) = Finite c /\ (2 <= c <= 10)%Q /\
    JsNum.div 1000 (Finite c) = JsNum.fl (1000 / c) /\ (100 <= 1000 / c <= 500)%Q.
Proof.
  intros Hnan.
  assert (Hc : exists c : Q,
             JsNum.max 2 (JsNum.min 10 maxHz) = Finite c /\ (2 <= c <= 10)%Q).
  { destruct maxHz as [|[|]|q]; try discriminate.
    - exists 2%Q. split; [reflexivity|lra].
    - exists 10%Q. split; [reflexivity|lra].
    - unfold JsNum.min, JsNum.max, JsNum.compare, JsNum.ofZ.
      destruct (Qcompare_spec (inject_Z 10) q) as [H|H|H].
      + exists 10%Q. split; [reflexivity|lra].
      + exists 10%Q. split; [reflexivity|lra].
      + destruct (Qcompare_spec (inject_Z 2) q) as [H'|H'|H'].
        * exists 2%Q. split; [reflexivity|lra].
        * exists q. split; [reflexivity|]. unfold inject_Z in *. lra.
        * exists 2%Q. split; [reflexivity|lra]. }
  destruct Hc as (c & Hc & Hlo & Hhi). exists c. split; [exact Hc|]. split; [lra|].
  split.
  - unfold JsNum.div, JsNum.ofZ.
    destruct (Qcompare_spec c 0) as [H|H|H]; try reflexivity. lra.
  - split.
    + apply Qle_shift_div_l; lra.
    + apply Qle_shift_div_r; lra.
Qed.

(** Under the laws of rounding, a result whose exact value lies between two
    integers lies between them. *)
Lemma fl_between (Hieee : IEEE E) (lo hi : Z) (q : Q) :
  Z.abs lo <= 2 ^ 53 -> Z.abs hi <= 2 ^ 53 ->
  (inject_Z lo <= q <= inject_Z hi)%Q ->
  exists r : Q, JsNum.fl q = Finite r /\ (inject_Z lo <= r <= inject_Z hi)%Q.
Proof.
  intros Hlo Hhi [Hl Hh]. unfold JsNum.fl.
  destruct (JsNum.exactInteger (Qred q)).
  - exists (Qred q). split; [reflexivity|]. rewrite Qred_correct. split; assumption.
  - assert (H1 : JsNum.le (round (inject_Z lo)) (round (Qred q)) = true).
    { apply (round_monotone E Hieee). rewrite Qred_correct. exact Hl. }
    assert (H2 : JsNum.le (round (Qred q)) (round (inject_Z hi)) = true).
    { apply (round_monotone E Hieee). rewrite Qred_correct. exact Hh. }
    rewrite (round_integer E Hieee lo Hlo) in H1.
    rewrite (round_integer E Hieee hi Hhi) in H2.
    destruct (round (Qred q)) as [|[|]|r]; try discriminate.
    exists r. split; [reflexivity|].
    unfold JsNum.le, JsNum.compare in H1, H2.
    destruct (Qcompare_spec (inject_Z lo) r); destruct (Qcompare_spec r (inject_Z hi));
      try discriminate; split; lra.
Qed.

Lemma spaced_after (d : JsNumber) (es : list (SmootherEvent T)) :
  forall (prev : Z) (s : Smoother.t T),
    Smoother.minInterval s = d ->
    Smoother.lastValueUndefined s = false ->
    Forall (fun v => isUndefined v = false) (offered es) ->
    (forall p, Smoother.pendingTimeout s = Some p -> isUndefined (Smoother.captured p) = false) ->
    prev <= Smoother.lastUpdate s ->
    Sorted Z.le (prev :: clock es) ->
    Forall (Z.le prev) (clock es) ->
    spaced d (prev :: emissions s es).
Proof.
  induction es as [|e es IH]; intros prev s Hd Hlast Hoff Hpend Hprev Hsorted Hall;
    [exact I|].
  destruct e as [now value|now|]; cbn [emissions clock offered] in *.
  - apply Forall_cons_iff in Hall as [Hnow Hall].
    apply Forall_cons_iff in Hoff as [Hvalue Hoff].
    assert (Hrest : Sorted Z.le (now :: clock es)).
    { inversion Hsorted; assumption. }
    assert (Hall' : Forall (Z.le now) (clock es)).
    { apply Sorted_StronglySorted in Hrest; [|intros x y z; lia].
      inversion Hrest; assumption. }
    assert (Hkeep : Sorted Z.le (prev :: clock es)).
    { apply StronglySorted_Sorted. constructor.
      - apply Sorted_StronglySorted in Hrest; [|intros x y z; lia].
        inversion Hrest; assumption.
      - exact Hall. }
    unfold Smoother.shouldEmit. rewrite Hlast. cbn [orb].
    destruct (JsNum.ge (JsNum.ofZ (now - Smoother.lastUpdate s)) (Smoother.minInterval s))
      eqn:Eg.
    + change (spaced d (prev :: now :: emissions (Smoother.emit now value s) es)).
      split.
      * rewrite <- Hd. apply (ge_up (now - Smoother.lastUpdate s)); [lia|exact Eg].
      * apply IH; try assumption; try reflexivity; first [exact Hvalue|simpl; lia].
    + destruct (Smoother.pendingTimeout s) as [p|] eqn:Ep; cbn [app].
      * apply IH; try assumption. intros p' Hp'. apply Hpend. congruence.
      * apply IH; try assumption.
        simpl. intros p' Hp'. injection Hp' as <-. exact Hvalue.
  - apply Forall_cons_iff in Hall as [Hnow Hall].
    assert (Hrest : Sorted Z.le (now :: clock es)).
    { inversion Hsorted; assumption. }
    assert (Hkeep : Sorted Z.le (prev :: clock es)).
    { apply StronglySorted_Sorted. constructor.
      - apply Sorted_StronglySorted in Hrest; [|intros x y z; lia].
        inversion Hrest; assumption.
      - exact Hall. }
    unfold Smoother.fire. destruct (Smoother.pendingTimeout s) as [p|] eqn:Ep.
    + apply IH; try assumption.
      * unfold Smoother.lastValueUndefined. simpl. apply Hpend. reflexivity.
      * simpl. discriminate.
    + apply IH; try assumption. intros p' Hp'. congruence.
  - apply IH; try assumption. simpl. discriminate.
Qed.

Lemma spaced_first (d : JsNumber) (es : list (SmootherEvent T)) :
  forall s : Smoother.t T,
    Smoother.minInterval s = d ->
    Smoother.lastValue s = None ->
    Smoother.pendingTimeout s = None ->
    Forall (fun v => isUndefined v = false) (offered es) ->
    Sorted Z.le (clock es) ->
    spaced d (emissions s es).
Proof.
  induction es as [|e es IH]; intros s Hd Hlast Hpending Hoff Hsorted; [exact I|].
  destruct e as [now value|now|]; cbn [emissions clock offered] in *.
  - apply Forall_cons_iff in Hoff as [Hvalue Hoff].
    unfold Smoother.shouldEmit, Smoother.lastValueUndefined. rewrite Hlast. cbn [orb app].
    apply spaced_after; try assumption;
      first [exact Hvalue
            |simpl; lia
            |simpl; intros p Hp; congruence
            |apply Sorted_StronglySorted in Hsorted; [|intros x y z; lia];
             inversion Hsorted; assumption].
  - unfold Smoother.fire. rewrite Hpending. apply IH; try assumption.
    inversion Hsorted; assumption.
  - apply IH; simpl; first [assumption|reflexivity].
Qed.

(** With a [NaN] interval no test [since >= minInterval] ever holds. *)
Lemma emissions_nan (es : list (SmootherEvent T)) :
  forall s : Smoother.t T,
    Smoother.minInterval s = NaN ->
    Smoother.lastValueUndefined s = false ->
    Forall (fun v => isUndefined v = false) (offered es) ->
    (forall p, Smoother.pendingTimeout s = Some p -> isUndefined (Smoother.captured p) = false) ->
    emissions s es = [].
Proof.
  induction es as [|e es IH]; intros s Hd Hlast Hoff Hpend; [reflexivity|].
  destruct e as [now value|now|]; cbn [emissions offered] in *.
  - apply Forall_cons_iff in Hoff as [Hvalue Hoff].
    unfold Smoother.shouldEmit. rewrite Hlast, Hd.
    cbn [orb JsNum.ge JsNum.le JsNum.compare].
    destruct (Smoother.pendingTimeout s) as [p|] eqn:Ep; cbn [app].
    + apply IH; try assumption; try reflexivity. intros p' Hp'. apply Hpend. congruence.
    + apply IH; try assumption; try exact Hd; try reflexivity.
      simpl. intros p' Hp'. injection Hp' as <-. exact Hvalue.
  - unfold Smoother.fire. destruct (Smoother.pendingTimeout s) as [p|] eqn:Ep.
    + apply IH; try assumption; try exact Hd; try reflexivity.
      * unfold Smoother.lastValueUndefined. simpl. apply Hpend. reflexivity.
      * simpl. discriminate.
    + apply IH; try assumption; try reflexivity. intros p' Hp'. congruence.
  - apply IH; try assumption; try reflexivity. simpl. discriminate.
Qed.

Lemma emissions_nan_first (es : list (SmootherEvent T)) :
  forall s : Smoother.t T,
    Smoother.minInterval s = NaN ->
    Forall (fun v => isUndefined v = false) (offered es) ->
    (forall p, Smoother.pendingTimeout s = Some p -> isUndefined (Smoother.captured p) = false) ->
    (length (emissions s es) <= 1)%nat.
Proof.
  induction es as [|e es IH]; intros s Hd Hoff Hpend; [simpl; lia|].
  destruct (Smoother.lastValueUndefined s) eqn:El;
    [|rewrite (emissions_nan _ s Hd El Hoff Hpend); simpl; lia].
  destruct e as [now value|now|]; cbn [emissions offered] in *.
  - apply Forall_cons_iff in Hoff as [Hvalue Hoff].
    unfold Smoother.shouldEmit. rewrite El. cbn [orb app length].
    rewrite emissions_nan; [simpl; lia|exact Hd|exact Hvalue|exact Hoff|exact Hpend].
  - unfold Smoother.fire. destruct (Smoother.pendingTimeout s) as [p|] eqn:Ep.
    + apply IH; try assumption; try exact Hd; try reflexivity. simpl. discriminate.
    + apply IH; try assumption; try reflexivity. intros p' Hp'. congruence.
  - apply IH; try assumption; try reflexivity. simpl. discriminate.
Qed.

End SmootherCadence.

(** X23.  A [ValueSmoother] that is offered values other than [undefined]
    answers true to [shouldEmit] (not forced) at times for which the test
    [now - previous >= minInterval] holds, whatever its timer does in
    between, as long as the clock does not run backwards.  [minInterval] is
    200 ms when [maxHz] is left out, [NaN] when [maxHz] is [NaN] (then at
    most one offer is answered true), and for every other [maxHz], rounding
    to the nearest double being monotone and exact on integers, a number
    between 100 ms and 500 ms (10 Hz to 2 Hz). *)
Theorem smoother_emissions_are_spaced
    (T : Type) (V : JsValue T) (E : Engine)
    (maxHz : option JsNumber) (es : list (SmootherEvent T))
    (Hclock : Sorted Z.le (clock es))
    (Hdefined : Forall (fun v => isUndefined v = false) (offered es)) :
  let s := Smoother.create (T := T) maxHz in
  spaced (Smoother.minInterval s) (emissions s es) /\
  (maxHz = None -> Smoother.minInterval s = Finite 200) /\
  (maxHz = Some NaN -> Smoother.minInterval s = NaN /\ (length (emissions s es) <= 1)%nat) /\
  (IEEE E ->
   forall hz, maxHz = Some hz -> JsNum.isNaN hz = false ->
   exists r : Q, Smoother.minInterval s = Finite r /\ (100 <= r <= 500)%Q).
Proof.
  intros s. split; [|split; [|split]].
  - apply spaced_first; [reflexivity|reflexivity|reflexivity|exact Hdefined|exact Hclock].
  - intros ->. vm_compute. reflexivity.
  - intros ->. split; [reflexivity|].
    apply emissions_nan_first; [reflexivity|exact Hdefined|].
    simpl. discriminate.
  - intros Hieee hz -> Hnan.
    destruct (clamped_interval hz Hnan) as (c & Hc & _ & Hdiv & Hrange).
    unfold s, Smoother.create. cbn [Smoother.minInterval].
    change (JsNum.ofZ 2) with (2 : JsNumber) in *.
    rewrite Hc, Hdiv.
    apply (fl_between Hieee 100 500); [vm_compute; discriminate..|exact Hrange].
Qed.

(** X23 at 4 Hz (one emission per 250 ms) with exact arithmetic: of the
    offers at 1000, 1100 and 1300 ms the first and the last are answered
    true. *)
Lemma smoother_emissions_are_spaced_witness :
  let es := [Offer 1000 "a"%string; Offer 1100 "b"%string; Offer 1300 "c"%string] in
  let s := Smoother.create (T := string) (E := exactEngine) (Some (JsNum.ofZ 4)) in
  emissions (E := exactEngine) s es = [1000; 1300] /\
  Smoother.minInterval s = Finite 250 /\
  spaced (Finite 250) (emissions (E := exactEngine) s es) /\
  exists r : Q, Smoother.minInterval s = Finite r /\ (100 <= r <= 500)%Q.
Proof.
  intros es s.
  assert (Hclock : Sorted Z.le (clock es)) by (simpl; repeat constructor; lia).
  assert (Hdefined : Forall (fun v => isUndefined v = false) (offered es))
    by (repeat constructor).
  assert (Hieee : IEEE exactEngine) by exact exactEngine_IEEE.
  destruct (smoother_emissions_are_spaced string string_value exactEngine
              (Some (JsNum.ofZ 4)) es Hclock Hdefined) as (Hspaced & _ & _ & Hrange).
  split; [vm_compute; reflexivity|]. split; [vm_compute; reflexivity|].
  split; [exact Hspaced|].
  exact (Hrange Hieee (JsNum.ofZ 4) eq_refl eq_refl).
Defined.

(** ** Semaphore *)

Section SemaphoreFacts.
Context {E : Engine}.
Import Semaphore.

Lemma semaphore_step_waiters (s : t) (o : op) :
  (waitQueue s <> [] -> JsNum.gt (permits s) 0 = false) ->
  granted s ++ waitQueue s = seq 0 (nextCaller s) ->
  (waitQueue (step s o) <> [] -> JsNum.gt (permits (step s o)) 0 = false) /\
  granted (step s o) ++ waitQueue (step s o) = seq 0 (nextCaller (step s o)).
Proof.
  intros Hw Hfifo. destruct o; cbn [step].
  - unfold acquire. destruct (JsNum.gt (permits s) 0) eqn:Eg;
      cbn [permits waitQueue granted nextCaller].
    + assert (Hempty : waitQueue s = []).
      { destruct (waitQueue s) as [|w ws] eqn:Ew; [reflexivity|].
        assert (false = true) by (rewrite <- Hw by discriminate; reflexivity).
        discriminate. }
      rewrite Hempty in *. split; [congruence|].
      rewrite !app_nil_r in *. rewrite seq_S, Hfifo. reflexivity.
    + split; [intros _; exact Eg|]. rewrite app_assoc, Hfifo, seq_S. reflexivity.
  - unfold release. destruct (waitQueue s) as [|next rest] eqn:Ew;
      [change (Z.of_nat (length (@nil nat)) >? 0) with false
      |change (Z.of_nat (length (next :: rest)) >? 0) with true];
      cbn [permits waitQueue granted nextCaller].
    + split; [congruence|]. exact Hfifo.
    + split.
      * intros _. apply Hw. discriminate.
      * rewrite <- app_assoc. exact Hfifo.
  - unfold tryAcquire. destruct (JsNum.gt (permits s) 0) eqn:Eg;
      cbn [snd permits waitQueue granted nextCaller].
    + split; [|exact Hfifo]. intros Hne. specialize (Hw Hne). congruence.
    + split; [intros _; exact Eg|exact Hfifo].
Qed.

Lemma semaphore_run_waiters (ops : list op) :
  forall s : t,
    (waitQueue s <> [] -> JsNum.gt (permits s) 0 = false) ->
    granted s ++ waitQueue s = seq 0 (nextCaller s) ->
    (waitQueue (run s ops) <> [] -> JsNum.gt (permits (run s ops)) 0 = false) /\
    granted (run s ops) ++ waitQueue (run s ops) = seq 0 (nextCaller (run s ops)).
Proof.
  induction ops as [|o ops IH]; intros s Hw Hfifo; [split; assumption|].
  destruct (semaphore_step_waiters s o Hw Hfifo) as [Hw' Hfifo'].
  exact (IH (step s o) Hw' Hfifo').
Qed.

Lemma releases_cons (o : op) (ops : list op) :
  releases (o :: ops) = (releases [o] + releases ops)%nat.
Proof. unfold releases. simpl. destruct o; reflexivity. Qed.

(** One call on a count that is the integer [k]. *)
Lemma semaphore_step_accounts (s : t) (o : op) (k : Z) :
  permits s = JsNum.ofZ k -> 0 <= k -> k + Z.of_nat (releases [o]) <= 2 ^ 53 ->
  exists k' : Z,
    permits (step s o) = JsNum.ofZ k' /\ 0 <= k' <= k + Z.of_nat (releases [o]) /\
    k' + Z.of_nat (length (granted (step s o))) + Z.of_nat (taken (step s o))
    = k + Z.of_nat (length (granted s)) + Z.of_nat (taken s) + Z.of_nat (releases [o]).
Proof.
  intros Hk Hpos Hbound. destruct o; cbn [step].
  - unfold acquire. rewrite Hk. change (JsNum.ofZ k) with (k : JsNumber).
    rewrite gt_ofZ. destruct (Z.ltb_spec 0 k) as [Hlt|Hle].
    + exists (k - 1). cbn [permits granted taken].
      rewrite sub_ofZ by (unfold releases in Hbound; simpl in Hbound; lia).
      rewrite length_app. unfold releases. simpl. repeat split; lia.
    + exists k. cbn [permits granted taken]. unfold releases. simpl. repeat split; lia.
  - unfold release. destruct (waitQueue s) as [|next rest];
      [change (Z.of_nat (length (@nil nat)) >? 0) with false
      |change (Z.of_nat (length (next :: rest)) >? 0) with true];
      cbn [permits granted taken].
    + exists (k + 1). rewrite Hk.
      rewrite add_ofZ by (unfold releases in Hbound; simpl in Hbound; lia).
      unfold releases. simpl. repeat split; lia.
    + exists k. rewrite length_app. unfold releases. simpl. repeat split; (exact Hk || lia).
  - unfold tryAcquire. rewrite Hk. rewrite gt_ofZ. destruct (Z.ltb_spec 0 k) as [Hlt|Hle].
    + exists (k - 1). cbn [snd permits granted taken].
      rewrite sub_ofZ by (unfold releases in Hbound; simpl in Hbound; lia).
      unfold releases. simpl. repeat split; lia.
    + exists k. cbn [snd]. unfold releases. simpl. repeat split; (exact Hk || lia).
Qed.

Lemma semaphore_run_accounts (ops : list op) :
  forall (s : t) (k : Z),
    permits s = JsNum.ofZ k -> 0 <= k -> k + Z.of_nat (releases ops) <= 2 ^ 53 ->
    exists k' : Z,
      permits (run s ops) = JsNum.ofZ k' /\ 0 <= k' /\
      k' + Z.of_nat (length (granted (run s ops))) + Z.of_nat (taken (run s ops))
      = k + Z.of_nat (length (granted s)) + Z.of_nat (taken s) + Z.of_nat (releases ops).
Proof.
  induction ops as [|o ops IH]; intros s k Hk Hpos Hbound.
  - exists k. unfold releases. simpl. repeat split; (exact Hk || lia).
  - change (run s (o :: ops)) with (run (step s o) ops).
    rewrite releases_cons in Hbound |- *.
    destruct (semaphore_step_accounts s o k Hk Hpos) as (k1 & Hk1 & Hpos1 & Hcount1); [lia|].
    destruct (IH (step s o) k1 Hk1 (proj1 Hpos1)) as (k2 & Hk2 & Hpos2 & Hcount2); [lia|].
    exists k2. split; [exact Hk2|]. split; [exact Hpos2|]. lia.
Qed.

End SemaphoreFacts.

(** X24.  A semaphore created with an integer [n >= 0], as long as [n] plus
    the number of [release] calls stays within 2^53 (where counting in
    doubles is exact): the count of permits is an integer that is never
    negative, no permit is left while somebody waits, and every permit is
    accounted for: the permits available plus those handed out (by
    [acquire] and by [tryAcquire]) are [n] plus the number of [release]
    calls, which is not capped at [n]. *)
Theorem semaphore_accounts_for_every_permit
    (E : Engine) (n : Z) (ops : list Semaphore.op)
    (Hn : 0 <= n) (Hexact : n + Z.of_nat (releases ops) <= 2 ^ 53) :
  let s := Semaphore.run (Semaphore.create n) ops in
  exists available : Z,
    Semaphore.availablePermits s = JsNum.ofZ available /\
    0 <= available /\
    (Semaphore.waitQueue s <> [] -> available = 0) /\
    available + Z.of_nat (length (Semaphore.granted s)) + Z.of_nat (Semaphore.taken s)
    = n + Z.of_nat (releases ops).
Proof.
  intros s. unfold Semaphore.availablePermits.
  destruct (semaphore_run_accounts ops (Semaphore.create n) n eq_refl Hn Hexact)
    as (k & Hk & Hpos & Hcount).
  destruct (semaphore_run_waiters ops (Semaphore.create n)) as [Hw _];
    [simpl; congruence|reflexivity|].
  fold s in Hk, Hcount, Hw. exists k. split; [exact Hk|]. split; [exact Hpos|]. split.
  - intros Hne. specialize (Hw Hne). rewrite Hk in Hw.
    change (JsNum.ofZ k) with (k : JsNumber) in Hw. rewrite gt_ofZ in Hw.
    apply Z.ltb_ge in Hw. lia.
  - rewrite Hcount. simpl. lia.
Qed.

(** X24 with one permit, two [acquire] calls and two [release] calls: one
    permit is available again, and both calls were served. *)
Lemma semaphore_accounts_for_every_permit_witness :
  let ops := [Semaphore.Acquire; Semaphore.Acquire; Semaphore.Release; Semaphore.Release] in
  let s := Semaphore.run (E := exactEngine) (Semaphore.create 1) ops in
  (Semaphore.availablePermits s = JsNum.ofZ 1 /\ Semaphore.granted s = [0%nat; 1%nat]) /\
  exists available : Z,
    Semaphore.availablePermits s = JsNum.ofZ available /\
    0 <= available /\
    (Semaphore.waitQueue s <> [] -> available = 0) /\
    available + Z.of_nat (length (Semaphore.granted s)) + Z.of_nat (Semaphore.taken s)
    = 1 + Z.of_nat (releases ops).
Proof.
  split; [split; reflexivity|].
  apply (semaphore_accounts_for_every_permit exactEngine 1
           [Semaphore.Acquire; Semaphore.Acquire; Semaphore.Release; Semaphore.Release]).
  - lia.
  - vm_compute. discriminate.
Defined.

(** X25.  Whatever the initial count, [acquire] calls are served in the
    order they were made: the promises resolved so far, followed by the
    waiting ones, are the calls in call order; and [tryAcquire] never
    succeeds while a caller waits. *)
Theorem semaphore_serves_in_call_order
    (E : Engine) (n : JsNumber) (ops : list Semaphore.op) :
  let s := Semaphore.run (Semaphore.create n) ops in
  Semaphore.granted s ++ Semaphore.waitQueue s = seq 0 (Semaphore.nextCaller s) /\
  (fst (Semaphore.tryAcquire s) = true -> Semaphore.waitQueue s = []).
Proof.
  intros s.
  destruct (semaphore_run_waiters ops (Semaphore.create n)) as [Hw Hfifo];
    [simpl; congruence|reflexivity|].
  fold s in Hw, Hfifo. split; [exact Hfifo|].
  unfold Semaphore.tryAcquire.
  destruct (JsNum.gt (Semaphore.permits s) 0) eqn:Eg; [|discriminate].
  intros _. destruct (Semaphore.waitQueue s) as [|w ws]; [reflexivity|].
  assert (false = true) by (rewrite <- Hw by discriminate; reflexivity).
  discriminate.
Qed.

(** ** RateLimiter *)

Section RateLimiterFacts.
Import RateLimiter.

(** The clamp leaves nothing above 10: a number up to 10, or [NaN]. *)
Lemma clamped_maxHz (hz : JsNumber) : JsNum.gt (JsNum.max 2 (JsNum.min 10 hz)) 10 = false.
Proof.
  destruct hz as [|[|]|q]; try reflexivity.
  unfold JsNum.min, JsNum.max, JsNum.compare, JsNum.ofZ.
  destruct (Qcompare_spec (inject_Z 10) q) as [H|H|H]; try reflexivity.
  destruct (Qcompare_spec (inject_Z 2) q) as [H'|H'|H']; try reflexivity.
  unfold JsNum.gt. apply Bool.not_true_is_false. rewrite lt_finite. lra.
Qed.

Lemma length_filter_le {A : Type} (f : A -> bool) (l : list A) :
  (length (List.filter f l) <= length l)%nat.
Proof.
  induction l as [|x l IH]; simpl; [lia|]. destruct (f x); simpl; lia.
Qed.

(** Below the limit means at most nine calls held. *)
Lemma under_limit (s : t) (held : list Z) :
  JsNum.gt (maxHz s) 10 = false ->
  JsNum.lt (JsNum.ofZ (Z.of_nat (length held))) (maxHz s) = true ->
  (length held < 10)%nat.
Proof.
  intros Hmax Hunder. unfold JsNum.gt in Hmax.
  destruct (maxHz s) as [|[|]|q]; try discriminate.
  unfold JsNum.ofZ in *. apply lt_finite in Hunder.
  assert (Hq : ~ (inject_Z 10 < q)%Q) by (rewrite <- lt_finite; congruence).
  assert (Hlt : (inject_Z (Z.of_nat (length held)) < inject_Z 10)%Q) by lra.
  rewrite <- Zlt_Qlt in Hlt. lia.
Qed.

Lemma held_step (s : t) (o : op) :
  JsNum.gt (maxHz s) 10 = false -> (length (calls s) <= 10)%nat ->
  maxHz (step s o) = maxHz s /\ (length (calls (step s o)) <= 10)%nat.
Proof.
  intros Hmax Hlen. destruct o as [now|]; simpl.
  - unfold isAllowed.
    destruct (JsNum.lt (JsNum.ofZ (Z.of_nat (length (recent now s)))) (maxHz s))
      eqn:Eu; simpl.
    + split; [reflexivity|]. rewrite length_app. simpl.
      pose proof (under_limit s (recent now s) Hmax Eu). lia.
    + split; [reflexivity|]. unfold recent.
      pose proof (length_filter_le (fun time => now - time <? windowMs s) (calls s)). lia.
  - split; [reflexivity|lia].
Qed.

Lemma held_run (ops : list op) :
  forall s : t,
    JsNum.gt (maxHz s) 10 = false -> (length (calls s) <= 10)%nat ->
    (length (calls (run s ops)) <= 10)%nat.
Proof.
  induction ops as [|o ops IH]; intros s Hmax Hlen; [exact Hlen|].
  destruct (held_step s o Hmax Hlen) as [Hm Hl].
  apply (IH (step s o)); [rewrite Hm; exact Hmax|exact Hl].
Qed.

Lemma inWindow_later (last now : Z) (log : list Z) :
  last <= now -> inWindow now (inWindow last log) = inWindow now log.
Proof.
  intros Hle. unfold inWindow. induction log as [|u log IH]; simpl; [reflexivity|].
  destruct (last - u <? 1000) eqn:E1; simpl.
  - rewrite IH. reflexivity.
  - rewrite IH. destruct (now - u <? 1000) eqn:E2; [|reflexivity].
    apply Z.ltb_lt in E2. apply Z.ltb_ge in E1. lia.
Qed.

Lemma inWindow_snoc (now : Z) (log : list Z) :
  inWindow now (log ++ [now]) = inWindow now log ++ [now].
Proof.
  unfold inWindow. rewrite List.filter_app. simpl.
  replace (now - now) with 0 by lia. reflexivity.
Qed.

Lemma last_cons (l : list Z) :
  forall a d : Z, List.last (a :: l) d = List.last l a.
Proof.
  induction l as [|x l IH]; intros a d; [reflexivity|].
  change (List.last (x :: l) d = List.last (x :: l) a). rewrite !IH. reflexivity.
Qed.

(** With a clock that does not run backwards and no [reset], the calls
    held are the admitted ones of the window of the latest reading. *)
Lemma window_run (times : list Z) :
  forall (s : t) (last : Z),
    windowMs s = 1000 -> JsNum.gt (maxHz s) 10 = false ->
    calls s = inWindow last (admitted s) ->
    (length (calls s) <= 10)%nat ->
    Sorted Z.le (last :: times) ->
    let s' := run s (map IsAllowed times) in
    calls s' = inWindow (List.last times last) (admitted s') /\
    (length (calls s') <= 10)%nat.
Proof.
  induction times as [|now times IH]; intros s last Hw Hmax Hcalls Hlen Hsorted.
  - split; assumption.
  - assert (Hle : last <= now).
    { inversion Hsorted as [|? ? _ Hhd]. inversion Hhd. assumption. }
    assert (Hrest : Sorted Z.le (now :: times)) by (inversion Hsorted; assumption).
    assert (Hrecent : recent now s = inWindow now (admitted s)).
    { unfold recent. rewrite Hw, Hcalls. apply (inWindow_later last now); exact Hle. }
    change (run s (map IsAllowed (now :: times)))
      with (run (snd (isAllowed now s)) (map IsAllowed times)).
    rewrite last_cons.
    unfold isAllowed.
    destruct (JsNum.lt (JsNum.ofZ (Z.of_nat (length (recent now s)))) (maxHz s))
      eqn:Eu; cbn [snd]; apply IH; cbn [windowMs maxHz calls admitted];
      try assumption.
    + rewrite Hrecent, inWindow_snoc. reflexivity.
    + rewrite length_app. simpl. pose proof (under_limit s (recent now s) Hmax Eu). lia.
    + unfold recent.
      pose proof (length_filter_le (fun time => now - time <? windowMs s) (calls s)). lia.
Qed.

End RateLimiterFacts.

(** X26.  With a clock that does not run backwards, a [RateLimiter] that
    is not reset admits at most 10 calls in any one-second window ending
    at a call, whatever [maxHz] it was given: of the calls it has admitted
    up to a reading [now], at most 10 are less than 1000 ms old. *)
Theorem rate_limiter_admits_at_most_ten_per_window
    (hz : option JsNumber) (times : list Z) (now : Z)
    (Hclock : Sorted Z.le (times ++ [now])) :
  let s := RateLimiter.run (RateLimiter.create hz)
             (map RateLimiter.IsAllowed (times ++ [now])) in
  (length (inWindow now (RateLimiter.admitted s)) <= 10)%nat.
Proof.
  intros s.
  assert (Hfirst : Sorted Z.le (List.hd now times :: times ++ [now])).
  { constructor; [exact Hclock|]. destruct times; simpl; constructor; lia. }
  destruct (window_run (times ++ [now]) (RateLimiter.create hz) (List.hd now times))
    as [Hcalls Hlen]; try reflexivity; try exact Hfirst.
  - apply clamped_maxHz.
  - simpl. lia.
  - fold s in Hcalls, Hlen. rewrite last_last in Hcalls. rewrite <- Hcalls. exact Hlen.
Qed.

(** X26 on twelve calls within 11 ms at the default 5 Hz. *)
Lemma rate_limiter_admits_at_most_ten_per_window_witness :
  let times := [1000; 1001; 1002; 1003; 1004; 1005; 1006; 1007; 1008; 1009; 1010] in
  let s := RateLimiter.run (RateLimiter.create (Some (JsNum.ofZ 5)))
             (map RateLimiter.IsAllowed (times ++ [1011])) in
  (length (inWindow 1011 (RateLimiter.admitted s)) <= 10)%nat.
Proof.
  apply (rate_limiter_admits_at_most_ten_per_window (Some (JsNum.ofZ 5))
           [1000; 1001; 1002; 1003; 1004; 1005; 1006; 1007; 1008; 1009; 1010] 1011).
  simpl. repeat constructor; lia.
Defined.

(** X27.  Whatever the clock does and however often it is reset, a
    [RateLimiter] holds at most 10 call times, so [getCurrentRate] never
    reports more than 10. *)
Theorem rate_limiter_rate_is_at_most_ten
    (hz : option JsNumber) (ops : list RateLimiter.op) (now : Z) :
  let s := RateLimiter.run (RateLimiter.create hz) ops in
  (length (RateLimiter.calls s) <= 10)%nat /\
  RateLimiter.getCurrentRate now s <= 10.
Proof.
  intros s.
  assert (Hlen : (length (RateLimiter.calls s) <= 10)%nat).
  { apply held_run; [apply clamped_maxHz|simpl; lia]. }
  split; [exact Hlen|]. unfold RateLimiter.getCurrentRate, RateLimiter.recent.
  pose proof (length_filter_le (fun time => now - time <? RateLimiter.windowMs s)
                (RateLimiter.calls s)). lia.
Qed.

(** ** CancellationTokenImpl *)

Section TokenFacts.
Import Token.

Lemma invoke_all (pending : list Callback) :
  forall s : t,
    let s' := fold_left invoke pending s in
    isCancelled s' = isCancelled s /\ callbacks s' = callbacks s /\
    called s' = called s ++ pending /\
    warned s' = warned s ++ List.filter throws pending.
Proof.
  induction pending as [|c pending IH]; intros s; simpl.
  - rewrite !app_nil_r. repeat split.
  - destruct (IH (invoke s c)) as (Hi & Hc & Hcalled & Hwarned).
    rewrite Hi, Hc, Hcalled, Hwarned. unfold invoke. simpl.
    rewrite <- !app_assoc. simpl. repeat split.
    destruct (throws c); [rewrite <- app_assoc|]; reflexivity.
Qed.

Lemma token_step (s : t) (o : op) (seen : list op) :
  called s ++ callbacks s = registered seen ->
  warned s = List.filter throws (called s) ->
  (isCancelled s = true -> callbacks s = []) ->
  (isCancelled s = false -> called s = []) ->
  (isCancelled s = true <-> In Cancel seen) ->
  let s' := step s o in
  called s' ++ callbacks s' = registered (seen ++ [o]) /\
  warned s' = List.filter throws (called s') /\
  (isCancelled s' = true -> callbacks s' = []) /\
  (isCancelled s' = false -> called s' = []) /\
  (isCancelled s' = true <-> In Cancel (seen ++ [o])).
Proof.
  intros Hreg Hwarn Hdone Hidle Hflag.
  assert (Hsnoc : forall c, registered (seen ++ [OnCancelled c]) = registered seen ++ [c]).
  { intros c. clear. induction seen as [|[|c0] seen IH]; simpl; [reflexivity|exact IH|].
    rewrite IH. reflexivity. }
  assert (Hsame : registered (seen ++ [Cancel]) = registered seen).
  { clear. induction seen as [|[|c0] seen IH]; simpl; [reflexivity|exact IH|].
    rewrite IH. reflexivity. }
  destruct o as [|c]; simpl.
  - unfold cancel. destruct (isCancelled s) eqn:E.
    + rewrite Hsame. split; [exact Hreg|]. split; [exact Hwarn|].
      split; [intros _; apply Hdone; reflexivity|].
      split; [rewrite E; discriminate|].
      split; [intros _|intros _; exact E].
      apply in_or_app. left. apply Hflag. reflexivity.
    + destruct (invoke_all (callbacks s) (mk true (callbacks s) (called s) (warned s)))
        as (Hi & _ & Hcalled & Hwarned).
      simpl in Hi, Hcalled, Hwarned. simpl.
      rewrite Hi, Hcalled, Hwarned, Hsame, app_nil_r, Hreg.
      rewrite (Hidle eq_refl) in *. simpl in *.
      split; [reflexivity|]. split; [rewrite Hwarn, <- Hreg; reflexivity|].
      split; [reflexivity|]. split; [discriminate|].
      split; [intros _|reflexivity].
      apply in_or_app. right. left. reflexivity.
  - unfold onCancelled, invoke. destruct (isCancelled s) eqn:E; simpl.
    + rewrite (Hdone eq_refl) in *. rewrite app_nil_r in *. rewrite Hsnoc, Hreg.
      split; [reflexivity|]. split.
      * rewrite List.filter_app, Hwarn, Hreg. simpl.
        destruct (throws c); [reflexivity|rewrite app_nil_r; reflexivity].
      * split; [reflexivity|]. split; [discriminate|]. split; [intros _|reflexivity].
        apply in_or_app. left. apply Hflag. reflexivity.
    + rewrite Hsnoc, <- Hreg, app_assoc. split; [reflexivity|].
      split; [exact Hwarn|]. split; [discriminate|]. split; [intros _; auto|].
      split; [discriminate|]. intros Hin. apply in_app_or in Hin as [Hin|[Hin|[]]].
      * apply Hflag in Hin. discriminate.
      * discriminate.
Qed.

Lemma token_run (ops : list op) :
  forall (s : t) (seen : list op),
    called s ++ callbacks s = registered seen ->
    warned s = List.filter throws (called s) ->
    (isCancelled s = true -> callbacks s = []) ->
    (isCancelled s = false -> called s = []) ->
    (isCancelled s = true <-> In Cancel seen) ->
    let s' := run s ops in
    called s' ++ callbacks s' = registered (seen ++ ops) /\
    warned s' = List.filter throws (called s') /\
    (isCancelled s' = true -> callbacks s' = []) /\
    (isCancelled s' = false -> called s' = []) /\
    (isCancelled s' = true <-> In Cancel (seen ++ ops)).
Proof.
  induction ops as [|o ops IH]; intros s seen Hreg Hwarn Hdone Hidle Hflag.
  - simpl. rewrite app_nil_r. repeat split; try assumption; apply Hflag.
  - destruct (token_step s o seen Hreg Hwarn Hdone Hidle Hflag) as (H1 & H2 & H3 & H4 & H5).
    replace (seen ++ o :: ops) with ((seen ++ [o]) ++ ops)
      by (rewrite <- app_assoc; reflexivity).
    exact (IH (step s o) (seen ++ [o]) H1 H2 H3 H4 H5).
Qed.

End TokenFacts.

(** X28.  Along any history of a cancellation token, the callbacks it
    has called followed by those it still holds are the registered ones in
    registration order, so each is called at most once.  Once [cancel] has
    been called every registered callback has been called and none is
    held; before that none has been called.  A callback that throws is
    warned about and stops nothing. *)
Theorem token_calls_every_callback_once (ops : list Token.op) :
  let s := Token.run Token.create ops in
  Token.called s ++ Token.callbacks s = registered ops /\
  Token.warned s = List.filter Token.throws (Token.called s) /\
  (Token.isCancelled s = true <-> In Token.Cancel ops) /\
  (Token.isCancelled s = true -> Token.called s = registered ops) /\
  (Token.isCancelled s = false -> Token.callbacks s = registered ops).
Proof.
  intros s.
  destruct (token_run ops Token.create []) as (H1 & H2 & H3 & H4 & H5);
    try reflexivity; try discriminate.
  { simpl. split; [discriminate|contradiction]. }
  fold s in H1, H2, H3, H4, H5. simpl in H1, H5.
  split; [exact H1|]. split; [exact H2|]. split; [exact H5|]. split.
  - intros E. rewrite (H3 E), app_nil_r in H1. exact H1.
  - intros E. rewrite (H4 E) in H1. exact H1.
Qed.

(** ** createThrottler (utils/throttle.ts) *)

(** X29.  A call of the throttled function always records its arguments
    as the latest ones, also when it runs [fn] on the leading edge.  So
    when a timer is armed after the call, its callback runs [fn] with the
    arguments of that call; if the call itself ran [fn] on the leading
    edge while an earlier timer was still armed, [fn] is run twice with
    the same arguments. *)
Theorem trailing_run_uses_the_latest_arguments
    (E : Engine) (Args : Type) (s : Throttler.t Args) (now executeNow fireNow : Z)
    (args : Args) :
  let s1 := Throttler.throttled now executeNow args s in
  Throttler.timeoutId s1 <> None ->
  Throttler.executed (Throttler.fire fireNow s1)
    = Throttler.executed s1 ++ [(fireNow, args)] /\
  Throttler.timeoutId (Throttler.fire fireNow s1) = None /\
  Throttler.lastArgs (Throttler.fire fireNow s1) = None /\
  (Throttler.leading (Throttler.config s) = Some true ->
   JsNum.ge (JsNum.ofZ (now - Throttler.lastExecution s)) (Throttler.interval s) = true ->
   Throttler.executed (Throttler.fire fireNow s1)
     = Throttler.executed s ++ [(executeNow, args); (fireNow, args)]).
Proof.
  intros s1 Harmed.
  assert (Hlast : Throttler.lastArgs s1 = Some args).
  { unfold s1, Throttler.throttled.
    destruct (truthy (Throttler.leading (Throttler.config s)) && _); [reflexivity|].
    destruct (truthy (Throttler.trailing (Throttler.config s)) && _); reflexivity. }
  unfold Throttler.fire. cbn [Throttler.lastArgs]. rewrite Hlast.
  cbn [Throttler.execute Throttler.executed Throttler.timeoutId Throttler.lastArgs].
  split; [reflexivity|]. split; [reflexivity|]. split; [reflexivity|].
  intros Hleading Hdue.
  unfold s1, Throttler.throttled. rewrite Hleading, Hdue.
  cbn [truthy andb Throttler.execute Throttler.executed].
  rewrite <- app_assoc. reflexivity.
Qed.

(** X29 on an overdue timer: the call at 1250 ms runs [fn] at once, and
    the timer runs it again. *)
Lemma trailing_run_uses_the_latest_arguments_witness :
  Throttler.executed
    (Throttler.fire 1251
       (Throttler.throttled (E := exactEngine) 1250 1250 "c"%string
          (overdue (E := exactEngine))))
  = [(1000, "a"%string); (1250, "c"%string); (1251, "c"%string)].
Proof.
  destruct (trailing_run_uses_the_latest_arguments exactEngine string
              (overdue (E := exactEngine)) 1250 1250 1251 "c"%string)
    as (_ & _ & _ & Htwice).
  - vm_compute. discriminate.
  - rewrite Htwice.
    + reflexivity.
    + reflexivity.
    + reflexivity.
Defined.

(** ** The async-operation reducer (store/helpers.ts) *)

Section StoreFacts.
Context {Value : Type}.
Import Store.

Lemma OperationInv_step (op : AsyncOperation Value) (action : StoreAction Value) (now : Z) :
  OperationInv op -> OperationInv (asyncOperationReducer op action now).
Proof.
  intros (Hone & Hend & Hload). unfold asyncOperationReducer.
  destruct (endsWith (type action) "/pending");
    [|destruct (endsWith (type action) "/fulfilled");
      [|destruct (endsWith (type action) "/rejected");
        [|destruct (endsWith (type action) "/cancelled")]]];
    unfold OperationInv, isLoading; simpl.
  - split; [left; reflexivity|]. split.
    + split; [intros [x Hx]; discriminate|discriminate].
    + intros _. split; [reflexivity|]. split; [reflexivity|]. eauto.
  - split; [right; reflexivity|]. split; [|discriminate].
    split; [reflexivity|eauto].
  - split; [left; reflexivity|]. split; [|discriminate].
    split; [reflexivity|eauto].
  - split; [exact Hone|]. split; [|discriminate].
    split; [reflexivity|eauto].
  - split; [exact Hone|]. split; [exact Hend|exact Hload].
Qed.

Lemma OperationInv_run (actions : list (StoreAction Value * Z)) :
  forall op : AsyncOperation Value, OperationInv op -> OperationInv (run op actions).
Proof.
  induction actions as [|a actions IH]; intros op Hinv; [exact Hinv|].
  apply (IH (asyncOperationReducer op (fst a) (snd a))). apply OperationInv_step. exact Hinv.
Qed.

Lemma startTime_step (op : AsyncOperation Value) (action : StoreAction Value)
    (now start : Z) :
  startTime op = Some start -> startTime (asyncOperationReducer op action now) = Some start.
Proof.
  intros Hstart. unfold asyncOperationReducer.
  destruct (endsWith (type action) "/pending");
    [|destruct (endsWith (type action) "/fulfilled");
      [|destruct (endsWith (type action) "/rejected");
        [|destruct (endsWith (type action) "/cancelled")]]];
    simpl; rewrite ?Hstart; reflexivity.
Qed.

Lemma startTime_run (actions : list (StoreAction Value * Z)) (start : Z) :
  forall op : AsyncOperation Value,
    startTime op = Some start -> startTime (run op actions) = Some start.
Proof.
  induction actions as [|a actions IH]; intros op Hstart; [exact Hstart|].
  apply (IH (asyncOperationReducer op (fst a) (snd a))). apply startTime_step. exact Hstart.
Qed.

End StoreFacts.

(** X30.  An operation that starts idle and is only changed by
    [asyncOperationReducer] never carries data and an error together, has
    an end time exactly in the terminal states, and while pending has
    neither data nor error but a start time.  Its start time, once set,
    is never changed by later actions: going to pending again does not
    restart the clock. *)
Theorem reducer_keeps_operations_consistent
    (Value : Type) (actions more : list (Store.StoreAction Value * Z)) (start : Z) :
  let op := Store.run Store.createAsyncOperation actions in
  (Store.data op = None \/ Store.error' op = None) /\
  (is_Some (Store.endTime op) <-> Store.isTerminalState (Store.state op) = true) /\
  (Store.isLoading op = true ->
   Store.data op = None /\ Store.error' op = None /\ is_Some (Store.startTime op)) /\
  (Store.startTime op = Some start -> Store.startTime (Store.run op more) = Some start).
Proof.
  intros op.
  assert (Hinv : OperationInv op).
  { apply OperationInv_run. split; [left; reflexivity|]. split.
    - split; [intros [x Hx]; discriminate|discriminate].
    - discriminate. }
  destruct Hinv as (H1 & H2 & H3).
  split; [exact H1|]. split; [exact H2|]. split; [exact H3|].
  apply startTime_run.
Qed.

(** X30 on a load that fails at 1500 ms and is retried at 2000 ms. *)
Lemma reducer_keeps_operations_consistent_witness :
  let fetch := Store.mkAction (Value := string) "models/pending" None 1000 None in
  let fail := Store.mkAction "models/rejected" (Some "offline"%string) 1500 None in
  Store.startTime
    (Store.run (Store.run Store.createAsyncOperation [(fetch, 1000)])
       [(fail, 1500); (fetch, 2000)])
  = Some 1000.
Proof.
  intros fetch fail.
  apply (reducer_keeps_operations_consistent string [(fetch, 1000)]
           [(fail, 1500); (fetch, 2000)] 1000).
  vm_compute. reflexivity.
Defined.
